(** * The ONCE 3D-detection evaluation server (once_eval/evaluation.py)

    A shallow embedding of the evaluator: pairwise 3D IoU, greedy matching,
    score-threshold sampling, confusion counting, the precision/recall
    envelope, average precision and the textual report.

    Numbers.  The Python code works on IEEE doubles.  Here a finite double is
    an exact rational ([Q]); rounding is not modelled.  The outcome of a
    division, which numpy never raises on, is a [flt]: a finite rational, an
    infinity, or NaN.  Detection scores are canonical rationals ([Qc]) so that
    equal scores are equal terms.  Counters and indices are [nat]. *)

From Stdlib Require Import QArith Qabs Qminmax Qround Qcanon Lqa Lia ZArith.
From stdpp Require Import base list strings sorting numbers gmap pretty.

Local Open Scope Q_scope.

(** ** Scalars *)

Module Flt.

(** What a float64 holding the result of a division can be. *)
Inductive flt : Type :=
  | Fin (q : Q)
  | PInf
  | NInf
  | NaN.

Definition Qltb (a b : Q) : bool := negb (Qle_bool b a).

(** [a / b] on doubles: [0/0] is NaN, [x/0] an infinity of the sign of [x]. *)
Definition div (a b : Q) : flt :=
  if Qeq_bool b 0 then
    (if Qeq_bool a 0 then NaN else if Qltb 0 a then PInf else NInf)
  else Fin (a / b).

(** [a > b]; false as soon as one side is NaN. *)
Definition gtb (a b : flt) : bool :=
  match a, b with
  | Fin x, Fin y => Qltb y x
  | Fin _, NInf => true
  | PInf, Fin _ => true
  | PInf, NInf => true
  | _, _ => false
  end.

(** [a + b] with IEEE propagation. *)
Definition add (a b : flt) : flt :=
  match a, b with
  | NaN, _ | _, NaN => NaN
  | Fin x, Fin y => Fin (x + y)
  | PInf, NInf | NInf, PInf => NaN
  | PInf, _ | _, PInf => PInf
  | NInf, _ | _, NInf => NInf
  end.

(** [a / k] for a float [a] and a number [k]. *)
Definition divq (a : flt) (k : Q) : flt :=
  match a with
  | Fin x => div x k
  | NaN => NaN
  | PInf => if Qltb k 0 then NInf else PInf
  | NInf => if Qltb k 0 then PInf else NInf
  end.

(** [a * k] for a float [a] and a positive number [k]. *)
Definition mulq (a : flt) (k : Q) : flt :=
  match a with
  | Fin x => Fin (x * k)
  | other => other
  end.

(** [np.maximum]: NaN wins, otherwise the larger one. *)
Definition max (a b : flt) : flt :=
  match a, b with
  | NaN, _ | _, NaN => NaN
  | _, _ => if gtb b a then b else a
  end.

Definition zero : flt := Fin 0.

(** [a >= b] as IEEE has it: false as soon as one side is NaN. *)
Definition geb (a b : flt) : bool :=
  match a, b with
  | NaN, _ | _, NaN => false
  | _, _ => negb (gtb b a)
  end.

End Flt.
Export Flt.

Global Instance flt_inhabited : Inhabited flt := populate Flt.zero.
Global Instance Qc_inhabited : Inhabited Qc := populate (Q2Qc 0).

(** [np.pi], the double nearest to pi, as the rational it denotes. *)
Definition np_pi : Q := 884279719003555 # 281474976710656.

(** ** Exceptions *)

Inductive error : Type :=
  | AssertionError
  | ValueError
  | IndexError
  | KeyError
  | ZeroDivisionError
  | NotImplementedError.

Inductive res (A : Type) : Type :=
  | Ok (a : A)
  | Err (e : error).
Arguments Ok {A} a.
Arguments Err {A} e.

Global Instance res_ret : MRet res := fun A a => Ok a.
Global Instance res_bind : MBind res := fun A B k m =>
  match m with
  | Ok a => k a
  | Err e => Err e
  end.

Definition assert (b : bool) : res unit :=
  if b then Ok tt else Err AssertionError.

Fixpoint foldlM {S A : Type} (f : S -> A -> res S) (s : S) (l : list A)
  : res S :=
  match l with
  | [] => Ok s
  | a :: l' => s' ← f s a; foldlM f s' l'
  end.

Fixpoint res_mapM {A B : Type} (f : A -> res B) (l : list A) : res (list B) :=
  match l with
  | [] => Ok []
  | a :: l' => b ← f a; bs ← res_mapM f l'; Ok (b :: bs)
  end.

(** [l[i]] on a Python list or a numpy vector. *)
Definition index {A : Type} (l : list A) (i : nat) : res A :=
  match l !! i with
  | Some a => Ok a
  | None => Err IndexError
  end.

(** [l[i] = v] on a numpy vector. *)
Definition write {A : Type} (l : list A) (i : nat) (v : A) : res (list A) :=
  if decide (i < length l)%nat then Ok (<[i := v]> l) else Err IndexError.

(** [l[a:b]] for [0 <= a <= b]. *)
Definition slice {A : Type} (a b : nat) (l : list A) : list A :=
  take (b - a) (drop a l).

(** [np.concatenate(parts, 0)]; numpy refuses an empty list of arrays. *)
Definition np_concatenate {A : Type} (parts : list (list A)) : res (list A) :=
  match parts with
  | [] => Err ValueError
  | _ => Ok (concat parts)
  end.

(** ** Boxes and the IoU kernels *)

(** One row of a [N, 7] box array: (x, y, z, w, l, h, rot). *)
Record Box : Type := mkBox {
  bx : Q; by_ : Q; bz : Q; bw : Q; bl : Q; bh : Q; brot : Q
}.

(** Columns [0, 1, 3, 4, 6] of a box: what the bird's-eye-view routine sees. *)
Definition bev (b : Box) : Q * Q * Q * Q * Q :=
  (bx b, by_ b, bw b, bl b, brot b).

(** A 2-D array of floats with its second dimension kept apart, because a
    slice with no rows still has columns. *)
Record Mat : Type := mkMat {
  shape1 : nat;
  rows : list (list flt)
}.

Definition shape0 (m : Mat) : nat := length (rows m).

(** [m[i, j]]; numba does not check bounds, the model reads zero there. *)
Definition mat_get (m : Mat) (i j : nat) : flt := (rows m !!! i) !!! j.

(** [m[r0:r1, c0:c1]]. *)
Definition mat_slice (m : Mat) (r0 r1 c0 c1 : nat) : Mat :=
  mkMat (Nat.min c1 (shape1 m) - Nat.min c0 (shape1 m))
        (map (slice c0 c1) (slice r0 r1 (rows m))).

(** The three values of [gt_flag] and [pred_flag] (docstring of
    [filter_data]): -1 rejected, 0 accepted, 1 ignored. *)
Inductive flag : Type :=
  | Rejected
  | Accepted
  | Ignored.

Definition flag_code (f : flag) : Z :=
  match f with
  | Rejected => -1
  | Accepted => 0
  | Ignored => 1
  end.

Global Instance flag_eq_dec : EqDecision flag.
Proof. solve_decision. Defined.
Global Instance flag_inhabited : Inhabited flag := populate Accepted.

(** One sample's annotation: the dict with keys [name], [boxes_3d] and, for
    predictions, [score]. *)
Record Anno : Type := mkAnno {
  name : list string;
  boxes_3d : list Box;
  score : list Qc
}.

(** What the evaluator imports from modules that are not in the sources at
    hand. *)
Class Externals : Type := {
  (** Modelled from the spec: [rotate_iou_gpu_eval] of iou_utils called with
      [criterion=2]; for each pair it gives the area of the intersection of
      the two rotated rectangles, and its entry (i, j) depends on box i and
      box j only. *)
  rotate_iou_gpu_eval : Q * Q * Q * Q * Q -> Q * Q * Q * Q * Q -> Q;
  (** Modelled from the spec: [compute_split_parts] of eval_utils, the sizes
      of the parts the samples are cut into. *)
  compute_split_parts : nat -> nat -> list nat;
  (** Modelled from the spec: the difficulty filters of eval_utils; each
      gives the mask of the boxes to ignore. *)
  overall_filter : list Box -> list bool;
  distance_filter : list Box -> nat -> list bool;
  overall_distance_filter : list Box -> nat -> list bool;
  (** What ["%.2f"] prints for a float. *)
  format_2f : flt -> string
}.

(** Lines 329-336: the overlap of the two height intervals. *)
Definition inter_h (g p : Box) : Q :=
  let gt_max_h := bz g + bh g * (1 # 2) in
  let gt_min_h := bz g - bh g * (1 # 2) in
  let pred_max_h := bz p + bh p * (1 # 2) in
  let pred_min_h := bz p - bh p * (1 # 2) in
  let max_of_min := Qmax gt_min_h pred_min_h in
  let min_of_max := Qmin gt_max_h pred_max_h in
  let d := min_of_max - max_of_min in
  if Qle_bool d 0 then 0 else d.

Definition vol (b : Box) : Q := bw b * bl b * bh b.

(** Lines 338-344 at one entry, [intersection_2d] being that entry of the
    bird's-eye-view intersection. *)
Definition iou3d_of (intersection_2d : Q) (g p : Box) : flt :=
  let intersection_3d := intersection_2d * inter_h g p in
  let union_3d := vol g + vol p - intersection_3d in
  Flt.div intersection_3d union_3d.

(** Lines 377-380 at one entry. *)
Definition diff_rot (g p : Box) : Q :=
  let d := Qabs (brot g - brot p) in
  let reverse_diff_rot := 2 * np_pi - d in
  if Qle_bool np_pi d then reverse_diff_rot else d.

(** Line 381 at one entry. *)
Definition iou3d_with_heading_of (intersection_2d : Q) (g p : Box) : flt :=
  if Qltb (np_pi / 2) (diff_rot g p) then Fin 0
  else iou3d_of intersection_2d g p.

(** The yaw difference of two headings folded into [0, pi], as the
    specification words it: the angle between the two directions.  It is
    the reference against which [diff_rot] is compared. *)
Definition wrapped_yaw_difference (a b : Q) : Q :=
  let d := Qabs (a - b) in
  let r := d - inject_Z (Qfloor (d / (2 * np_pi))) * (2 * np_pi) in
  if Qle_bool np_pi r then 2 * np_pi - r else r.

Section Kernels.
Context `{Externals}.

Definition iou3d_entry (g p : Box) : flt :=
  iou3d_of (rotate_iou_gpu_eval (bev g) (bev p)) g p.

Definition iou3d_entry_with_heading (g p : Box) : flt :=
  iou3d_with_heading_of (rotate_iou_gpu_eval (bev g) (bev p)) g p.

Definition iou3d_kernel (gt_boxes pred_boxes : list Box) : Mat :=
  mkMat (length pred_boxes)
        (map (fun g => map (fun p => iou3d_entry g p) pred_boxes) gt_boxes).

Definition iou3d_kernel_with_heading (gt_boxes pred_boxes : list Box) : Mat :=
  mkMat (length pred_boxes)
        (map (fun g => map (fun p => iou3d_entry_with_heading g p) pred_boxes)
             gt_boxes).

(** ** compute_iou3d *)

(** Lines 414-419, one turn: the state is ([gt_num_idx], [pred_num_idx],
    [ious]). *)
Definition cut_part_step (gt_num_per_sample pred_num_per_sample : list nat)
    (iou3d_part : Mat) (sample_idx : nat) (st : nat * nat * list Mat)
    (idx : nat) : res (nat * nat * list Mat) :=
  let '(gt_num_idx, pred_num_idx, ious) := st in
  gt_box_num ← index gt_num_per_sample (sample_idx + idx);
  pred_box_num ← index pred_num_per_sample (sample_idx + idx);
  Ok ((gt_num_idx + gt_box_num)%nat, (pred_num_idx + pred_box_num)%nat,
      ious ++ [mat_slice iou3d_part
                 gt_num_idx (gt_num_idx + gt_box_num)
                 pred_num_idx (pred_num_idx + pred_box_num)]).

(** Lines 413-419: cut the part's matrix back into one block per sample. *)
Definition cut_part (gt_num_per_sample pred_num_per_sample : list nat)
    (iou3d_part : Mat) (sample_idx num_part_samples : nat)
  : res (list Mat) :=
  '(_, _, ious) ← foldlM
    (cut_part_step gt_num_per_sample pred_num_per_sample iou3d_part
                   sample_idx)
    (0%nat, 0%nat, []) (seq 0 num_part_samples);
  Ok ious.

(** Lines 401-420, one turn: the state is ([sample_idx], [ious]). *)
Definition compute_iou3d_step (gt_annos pred_annos : list Anno)
    (with_heading : bool) (st : nat * list Mat) (num_part_samples : nat)
  : res (nat * list Mat) :=
  let '(sample_idx, ious) := st in
  let gt_num_per_sample := map (fun anno => length (name anno)) gt_annos in
  let pred_num_per_sample := map (fun anno => length (name anno)) pred_annos in
  let gt_annos_part :=
    slice sample_idx (sample_idx + num_part_samples) gt_annos in
  let pred_annos_part :=
    slice sample_idx (sample_idx + num_part_samples) pred_annos in
  gt_boxes ← np_concatenate (map boxes_3d gt_annos_part);
  pred_boxes ← np_concatenate (map boxes_3d pred_annos_part);
  let iou3d_part :=
    if with_heading then iou3d_kernel_with_heading gt_boxes pred_boxes
    else iou3d_kernel gt_boxes pred_boxes in
  part ← cut_part gt_num_per_sample pred_num_per_sample iou3d_part
           sample_idx num_part_samples;
  Ok ((sample_idx + num_part_samples)%nat, ious ++ part).

Definition compute_iou3d (gt_annos pred_annos : list Anno)
    (split_parts : list nat) (with_heading : bool) : res (list Mat) :=
  (* lines 397-398: np.stack refuses an empty list *)
  _ ← match gt_annos with [] => Err ValueError | _ => Ok tt end;
  _ ← match pred_annos with [] => Err ValueError | _ => Ok tt end;
  '(_, ious) ← foldlM (compute_iou3d_step gt_annos pred_annos with_heading)
                 (0%nat, []) split_parts;
  Ok ious.

End Kernels.

(** ** get_thresholds *)

Definition Qn (n : nat) : Q := inject_Z (Z.of_nat n).

Definition eps : Q := 1 # 1000000.

(** Lines 172-174, [while r_recall + l_recall + eps > 2 * recall_level].
    [bound] is the left-hand side and [inc] is [1 / num_pr_points]. *)
Fixpoint while_append (fuel : nat) (bound inc : Q) (score : Qc)
    (st : Q * list Qc) : Q * list Qc :=
  match fuel with
  | O => st
  | S fuel' =>
      let '(recall_level, thresholds) := st in
      if Qltb (2 * recall_level) bound then
        while_append fuel' bound inc score
          (recall_level + inc, thresholds ++ [score])
      else st
  end.

(** The number of turns after which the condition of the loop is false:
    [recall_level] grows by [inc] a turn. *)
Definition while_turns (bound inc recall_level : Q) : nat :=
  Z.to_nat (Qceiling ((bound - 2 * recall_level) / (2 * inc))).

(** Lines 160-174, the body of the loop over [enumerate(scores)]. *)
Definition thresholds_step (num_gt num_pr_points len : nat)
    (st : Q * list Qc) (entry : nat * Qc) : res (Q * list Qc) :=
  let '(recall_level, thresholds) := st in
  let '(i, score) := entry in
  _ ← (if (num_gt =? 0)%nat then Err ZeroDivisionError else Ok tt);
  let l_recall := Qn (i + 1) / Qn num_gt in
  let r_recall :=
    if (i <? len - 1)%nat then Qn (i + 2) / Qn num_gt else l_recall in
  if Qltb (r_recall + l_recall) (2 * recall_level) && (i <? len - 1)%nat
  then Ok st
  else
    _ ← (if (num_pr_points =? 0)%nat then Err ZeroDivisionError else Ok tt);
    let inc := 1 / Qn num_pr_points in
    let recall_level := recall_level + inc in
    let bound := r_recall + l_recall + eps in
    Ok (while_append (while_turns bound inc recall_level) bound inc score
          (recall_level, thresholds ++ [score])).

Definition get_thresholds (scores : list Qc) (num_gt num_pr_points : nat)
  : res (list Qc) :=
  (* scores.sort(); scores = scores[::-1] *)
  let scores := reverse (merge_sort Qcle scores) in
  '(_, thresholds) ← foldlM
     (thresholds_step num_gt num_pr_points (length scores))
     (0, []) (zip (seq 0 (length scores)) scores);
  Ok thresholds.

(** ** Greedy matching *)

(** The state of a matching pass over the ground-truth rows.  [matched] is a
    ghost log: it records (i, det_idx) each time the pass executes
    [assigned[det_idx] = True] for row i, and nothing reads it. *)
Record pass : Type := mkPass {
  assigned : list bool;
  accum : list Qc;
  tp : nat;
  fn : nat;
  matched : list (nat * nat)
}.

Definition assign (st : pass) (i det_idx : nat) : pass :=
  mkPass (<[det_idx := true]> (assigned st)) (accum st) (tp st) (fn st)
         (matched st ++ [(i, det_idx)]).

Section Matching.
Variables (iou : Mat) (pred_scores : list Qc).
Variables (gt_flag pred_flag : list flag).
Variable iou_threshold : Q.

Let num_gt := shape0 iou.
Let num_pred := shape1 iou.

(** Lines 189-198, one turn: the pair is ([det_idx], [detected_score]), and
    [None] stands for -1. *)
Definition accumulate_inner_step (asg : list bool) (i : nat)
    (st : option nat * Qc) (j : nat) : option nat * Qc :=
  let '(det_idx, detected_score) := st in
  if bool_decide (pred_flag !!! j = Rejected) then (det_idx, detected_score)
  else if (asg !!! j : bool) then (det_idx, detected_score)
  else
    let iou_ij := mat_get iou i j in
    let pred_score := pred_scores !!! j in
    if Flt.gtb iou_ij (Fin iou_threshold)
       && bool_decide (detected_score < pred_score)%Qc
    then (Some j, pred_score)
    else (det_idx, detected_score).

(** Lines 187-198: the best-scoring free prediction for row [i]. *)
Definition accumulate_inner (asg : list bool) (i : nat) : option nat * Qc :=
  foldl (accumulate_inner_step asg i) (None, Q2Qc (-1)) (seq 0 num_pred).

(** Lines 184-207, one turn of the loop over the ground-truth rows. *)
Definition accumulate_step (st : pass) (i : nat) : pass :=
  if bool_decide (gt_flag !!! i = Rejected) then st
  else
    let '(det_idx, detected_score) := accumulate_inner (assigned st) i in
    let det := default 0%nat det_idx in
    let none := bool_decide (detected_score = Q2Qc (-1)) in
    if none && bool_decide (gt_flag !!! i = Accepted) then st
    else if negb none
            && (bool_decide (gt_flag !!! i = Ignored)
                || bool_decide (pred_flag !!! det = Ignored))
    then assign st i det
    else if negb none then
      let st' := assign st i det in
      mkPass (assigned st') (accum st ++ [pred_scores !!! det])
             (tp st) (fn st) (matched st')
    else st.

Definition accumulate_pass : pass :=
  foldl accumulate_step
    (mkPass (replicate num_pred false) [] 0 0 []) (seq 0 num_gt).

Definition accumulate_scores : list Qc := accum accumulate_pass.

Variable score_threshold : Qc.

Definition under_threshold : list bool :=
  map (fun s => bool_decide (s < score_threshold)%Qc) pred_scores.

(** What the inner loop of [compute_statistics] carries. *)
Record probe : Type := mkProbe {
  best_matched_iou : flt;
  det_idx : option nat;
  detected : bool;
  gt_assigned_to_ignore : bool
}.

(** Lines 228-243, one turn. *)
Definition statistics_inner_step (asg : list bool) (i : nat) (pr : probe)
    (j : nat) : probe :=
  if bool_decide (pred_flag !!! j = Rejected) then pr
  else if (asg !!! j : bool) then pr
  else if (under_threshold !!! j : bool) then pr
  else
    let iou_ij := mat_get iou i j in
    if Flt.gtb iou_ij (Fin iou_threshold)
       && (Flt.gtb iou_ij (best_matched_iou pr) || gt_assigned_to_ignore pr)
       && bool_decide (pred_flag !!! j = Accepted)
    then mkProbe iou_ij (Some j) true false
    else if Flt.gtb iou_ij (Fin iou_threshold)
            && negb (detected pr)
            && bool_decide (pred_flag !!! j = Ignored)
    then mkProbe (best_matched_iou pr) (Some j) true true
    else pr.

(** Lines 222-243. *)
Definition statistics_inner (asg : list bool) (i : nat) : probe :=
  foldl (statistics_inner_step asg i)
        (mkProbe (Fin 0) None false false) (seq 0 num_pred).

(** Lines 219-251, one turn of the loop over the ground-truth rows. *)
Definition statistics_step (st : pass) (i : nat) : pass :=
  if bool_decide (gt_flag !!! i = Rejected) then st
  else
    let pr := statistics_inner (assigned st) i in
    let det := default 0%nat (det_idx pr) in
    if negb (detected pr) && bool_decide (gt_flag !!! i = Accepted) then
      mkPass (assigned st) (accum st) (tp st) (S (fn st)) (matched st)
    else if detected pr
            && (bool_decide (gt_flag !!! i = Ignored)
                || bool_decide (pred_flag !!! det = Ignored))
    then assign st i det
    else if detected pr then
      let st' := assign st i det in
      mkPass (assigned st') (accum st) (S (tp st)) (fn st) (matched st')
    else st.

Definition statistics_pass : pass :=
  foldl statistics_step
    (mkPass (replicate num_pred false) [] 0 0 []) (seq 0 num_gt).

(** Line 254: is prediction [j] a false positive, given the final
    [assigned]? *)
Definition counts_as_fp (asg : list bool) (j : nat) : bool :=
  negb ((asg !!! j : bool)
        || bool_decide (pred_flag !!! j = Rejected)
        || bool_decide (pred_flag !!! j = Ignored)
        || (under_threshold !!! j : bool)).

(** Lines 253-255. *)
Definition count_fp (asg : list bool) : nat :=
  foldl (fun fp j => if counts_as_fp asg j then S fp else fp)
        0%nat (seq 0 num_pred).

Definition compute_statistics : nat * nat * nat :=
  let st := statistics_pass in
  (tp st, count_fp (assigned st), fn st).

End Matching.

(** ** filter_data *)

(** [flags[mask] = v] with a boolean mask, which must have the length of
    [flags]. *)
Definition mask_set (flags : list flag) (mask : list bool) (v : flag)
  : res (list flag) :=
  if decide (length mask = length flags) then
    Ok (zip_with (fun f (m : bool) => if m then v else f) flags mask)
  else Err IndexError.

(** Lines 278-284 (and 288-294): the mask of the boxes of another class. *)
Definition reject_mask (names : list string) (class_name : string)
    (use_superclass : bool) : list bool :=
  if use_superclass then
    if bool_decide (class_name = "Vehicle") then
      map (fun nm => bool_decide (nm = "Pedestrian")
                     || bool_decide (nm = "Cyclist")) names
    else map (fun nm => negb (bool_decide (nm = class_name))) names
  else map (fun nm => negb (bool_decide (nm = class_name))) names.

Section Evaluation.
Context `{Externals}.

(** Lines 297-313: the mask of the boxes to ignore. *)
Definition ignore_mask (boxes : list Box) (difficulty_mode : string)
    (difficulty_level : nat) : res (list bool) :=
  if bool_decide (difficulty_mode = "Overall") then
    Ok (overall_filter boxes)
  else if bool_decide (difficulty_mode = "Distance") then
    Ok (distance_filter boxes difficulty_level)
  else if bool_decide (difficulty_mode = "Overall&Distance") then
    Ok (overall_distance_filter boxes difficulty_level)
  else Err NotImplementedError.

Definition filter_data (gt_anno pred_anno : Anno) (difficulty_mode : string)
    (difficulty_level : nat) (class_name : string) (use_superclass : bool)
  : res (list flag * list flag) :=
  let num_gt := length (name gt_anno) in
  gt_flag ← mask_set (replicate num_gt Accepted)
              (reject_mask (name gt_anno) class_name use_superclass) Rejected;
  let num_pred := length (name pred_anno) in
  pred_flag ← mask_set (replicate num_pred Accepted)
              (reject_mask (name pred_anno) class_name use_superclass)
              Rejected;
  ignore ← ignore_mask (boxes_3d gt_anno) difficulty_mode difficulty_level;
  gt_flag ← mask_set gt_flag ignore Ignored;
  ignore ← ignore_mask (boxes_3d pred_anno) difficulty_mode difficulty_level;
  pred_flag ← mask_set pred_flag ignore Ignored;
  Ok (gt_flag, pred_flag).

(** ** get_evaluation_results *)

Definition iou_threshold_dict : gmap string Q :=
  list_to_map [("Car", 7 # 10); ("Bus", 7 # 10); ("Truck", 7 # 10);
               ("Pedestrian", 3 # 10); ("Cyclist", 5 # 10)].

Definition superclass_iou_threshold_dict : gmap string Q :=
  list_to_map [("Vehicle", 7 # 10); ("Pedestrian", 3 # 10);
               ("Cyclist", 5 # 10)].

(** [d[k]] on a dict. *)
Definition dict_get (d : gmap string Q) (k : string) : res Q :=
  match d !! k with
  | Some v => Ok v
  | None => Err KeyError
  end.

(** Lines 44-48: the classes that are scored. *)
Definition scored_classes (classes : list string) (use_superclass : bool)
  : res (list string) :=
  if use_superclass then
    let has c := bool_decide (c ∈ classes) in
    _ ← (if has "Car" || has "Bus" || has "Truck" then
           assert (has "Car" && has "Bus" && has "Truck")
         else Ok tt);
    Ok ("Vehicle" ::
        filter (fun cls_name => cls_name ∉ ["Car"; "Bus"; "Truck"]) classes)
  else Ok classes.

(** Lines 55-65. *)
Definition difficulty_types_of (difficulty_mode : string)
  : res (list string) :=
  if bool_decide (difficulty_mode = "Distance") then
    Ok ["0-30m"; "30-50m"; "50m-inf"]
  else if bool_decide (difficulty_mode = "Overall") then
    Ok ["overall"]
  else if bool_decide (difficulty_mode = "Overall&Distance") then
    Ok ["overall"; "0-30m"; "30-50m"; "50m-inf"]
  else Err NotImplementedError.

(** What the first loop over the samples (lines 74-88) builds. *)
Record gathered : Type := mkGathered {
  accum_all_scores : list (list Qc);
  gt_flags : list (list flag);
  pred_flags : list (list flag);
  num_valid_gt : nat
}.

Definition count_accepted (gt_flag : list flag) : nat :=
  length (filter (fun f => f = Accepted) gt_flag).

Section Block.
Variables (gt_annos pred_annos : list Anno) (ious : list Mat).
Variables (difficulty_mode : string) (use_superclass : bool).
Variables (cur_class : string) (iou_threshold : Q) (diff_idx : nat).

Let num_samples := length gt_annos.

(** Lines 77-88, one turn of the first loop over the samples. *)
Definition gather_step (g : gathered) (sample_idx : nat) : res gathered :=
  gt_anno ← index gt_annos sample_idx;
  pred_anno ← index pred_annos sample_idx;
  let pred_score := score pred_anno in
  iou ← index ious sample_idx;
  '(gt_flag, pred_flag) ←
     filter_data gt_anno pred_anno difficulty_mode diff_idx cur_class
                 use_superclass;
  let accum_scores :=
    accumulate_scores iou pred_score gt_flag pred_flag iou_threshold in
  Ok (mkGathered (accum_all_scores g ++ [accum_scores])
                 (gt_flags g ++ [gt_flag])
                 (pred_flags g ++ [pred_flag])
                 (num_valid_gt g + count_accepted gt_flag)).

(** Lines 74-88. *)
Definition gather : res gathered :=
  foldlM gather_step (mkGathered [] [] [] 0) (seq 0 num_samples).

(** [confusion_matrix[th_idx, :] += (tp, fp, fn)]. *)
Definition add_counts (row counts : nat * nat * nat) : nat * nat * nat :=
  let '(tp0, fp0, fn0) := row in
  let '(tp1, fp1, fn1) := counts in
  ((tp0 + tp1)%nat, (fp0 + fp1)%nat, (fn0 + fn1)%nat).

(** Lines 95-103, one turn of the second loop over the samples. *)
Definition confusion_step (g : gathered) (thresholds : list Qc)
    (cm : list (nat * nat * nat)) (sample_idx : nat)
  : res (list (nat * nat * nat)) :=
  pred_anno ← index pred_annos sample_idx;
  let pred_score := score pred_anno in
  iou ← index ious sample_idx;
  gt_flag ← index (gt_flags g) sample_idx;
  pred_flag ← index (pred_flags g) sample_idx;
  Ok (zip_with
        (fun row score_th =>
           add_counts row
             (compute_statistics iou pred_score gt_flag pred_flag
                                 iou_threshold score_th))
        cm thresholds).

(** Lines 93-103: a row (tp, fp, fn) per threshold, summed over the
    samples. *)
Definition confusion_matrix (g : gathered) (thresholds : list Qc)
  : res (list (nat * nat * nat)) :=
  foldlM (confusion_step g thresholds)
         (replicate (length thresholds) (0, 0, 0)%nat) (seq 0 num_samples).

End Block.

(** Lines 107-110, one turn on the rows of this class and difficulty: the
    pair is (precision, recall). *)
Definition draw_pr_curve_step (cm : list (nat * nat * nat))
    (rows : list flt * list flt) (th_idx : nat)
  : res (list flt * list flt) :=
  let '(precision, recall) := rows in
  let '(tp, fp, fn) := cm !!! th_idx in
  recall ← write recall th_idx (Flt.div (Qn tp) (Qn tp + Qn fn));
  precision ← write precision th_idx (Flt.div (Qn tp) (Qn tp + Qn fp));
  Ok (precision, recall).

(** Lines 106-110. *)
Definition draw_pr_curve (cm : list (nat * nat * nat))
    (rows0 : list flt * list flt) : res (list flt * list flt) :=
  foldlM (draw_pr_curve_step cm) rows0 (seq 0 (length cm)).

(** [np.max] of a vector; numpy refuses an empty one. *)
Definition np_max (l : list flt) : res flt :=
  match l with
  | [] => Err ValueError
  | a :: l' => Ok (foldl Flt.max a l')
  end.

(** Lines 113-116, one turn. *)
Definition envelope_step (rows : list flt * list flt) (th_idx : nat)
  : res (list flt * list flt) :=
  let '(precision, recall) := rows in
  m ← np_max (drop th_idx precision);
  precision ← write precision th_idx m;
  m ← np_max (drop th_idx recall);
  recall ← write recall th_idx m;
  Ok (precision, recall).

(** Lines 112-116. *)
Definition envelope (num_thresholds : nat) (rows1 : list flt * list flt)
  : res (list flt * list flt) :=
  foldlM envelope_step rows1 (seq 0 num_thresholds).

(** Lines 73-116 for one class and one difficulty: the rows
    [precision[cls_idx, diff_idx, :]] and [recall[cls_idx, diff_idx, :]]. *)
Definition class_difficulty_rows (gt_annos pred_annos : list Anno)
    (ious : list Mat) (difficulty_mode : string) (use_superclass : bool)
    (num_pr_points : nat) (cur_class : string) (iou_threshold : Q)
    (diff_idx : nat) : res (list flt * list flt) :=
  g ← gather gt_annos pred_annos ious difficulty_mode use_superclass
        cur_class iou_threshold diff_idx;
  all_scores ← np_concatenate (accum_all_scores g);
  thresholds ← get_thresholds all_scores (num_valid_gt g) num_pr_points;
  cm ← confusion_matrix gt_annos pred_annos ious iou_threshold g thresholds;
  let zeros := replicate (num_pr_points + 1) Flt.zero in
  rows1 ← draw_pr_curve cm (zeros, zeros);
  envelope (length thresholds) rows1.

(** Lines 118-121 at one (class, difficulty). *)
Definition average_precision_of (num_pr_points : nat) (precision : list flt)
  : flt :=
  Flt.mulq
    (Flt.divq (foldl Flt.add (Fin 0) (drop 1 precision)) (Qn num_pr_points))
    100.

(** ["%-Ns" % s]. *)
Definition ljust (width : nat) (s : string) : string :=
  s +:+ String.concat "" (replicate (width - String.length s) " ").

Definition nl : string := String (Ascii.ascii_of_nat 10) EmptyString.

(** A dict whose order of insertion is kept. *)
Fixpoint dict_set (d : list (string * flt)) (k : string) (v : flt)
  : list (string * flt) :=
  match d with
  | [] => [(k, v)]
  | (k', v') :: d' =>
      if bool_decide (k' = k) then (k, v) :: d'
      else (k', v') :: dict_set d' k v
  end.

(** Lines 123-146. *)
Definition report (classes difficulty_types : list string)
    (num_pr_points : nat) (AP : list (list flt))
  : string * list (string * flt) :=
  let num_difficulties := length difficulty_types in
  let ret_str := nl +:+ "|AP@" +:+ ljust 9 (pretty num_pr_points) +:+ "|" in
  let ret_str :=
    foldl (fun s diff_type => s +:+ ljust 12 diff_type +:+ "|")
          ret_str difficulty_types in
  let ret_str := ret_str +:+ nl in
  let '(ret_str, ret_dict) :=
    foldl
      (fun '(ret_str, ret_dict) '(cls_idx, cur_class) =>
         let ret_str := ret_str +:+ "|" +:+ ljust 12 cur_class +:+ "|" in
         let '(ret_str, ret_dict) :=
           foldl
             (fun '(ret_str, ret_dict) diff_idx =>
                let diff_type := difficulty_types !!! diff_idx in
                let key := "AP_" +:+ cur_class +:+ "/" +:+ diff_type in
                let ap_score := (AP !!! cls_idx) !!! diff_idx in
                (ret_str +:+ ljust 12 (format_2f ap_score) +:+ "|",
                 dict_set ret_dict key ap_score))
             (ret_str, ret_dict) (seq 0 num_difficulties) in
         (ret_str +:+ nl, ret_dict))
      (ret_str, []) (zip (seq 0 (length classes)) classes) in
  let mAP :=
    map (fun diff_idx =>
           Flt.divq (foldl Flt.add (Fin 0)
                       (map (fun row => row !!! diff_idx) AP))
                    (Qn (length AP)))
        (seq 0 num_difficulties) in
  let ret_str := ret_str +:+ "|" +:+ ljust 12 "mAP" +:+ "|" in
  let '(ret_str, ret_dict) :=
    foldl
      (fun '(ret_str, ret_dict) diff_idx =>
         let diff_type := difficulty_types !!! diff_idx in
         let key := "AP_mean" +:+ "/" +:+ diff_type in
         let ap_score := mAP !!! diff_idx in
         (ret_str +:+ ljust 12 (format_2f ap_score) +:+ "|",
          dict_set ret_dict key ap_score))
      (ret_str, ret_dict) (seq 0 num_difficulties) in
  (ret_str +:+ nl, ret_dict).

(** Lines 70-116: the loop over the classes and the difficulties, [rows]
    being what lines 73-116 compute for one class and one difficulty. *)
Definition precision_curves
    (rows : string -> Q -> nat -> res (list flt * list flt))
    (iou_thresholds : gmap string Q) (classes : list string)
    (num_difficulties : nat) : res (list (list (list flt * list flt))) :=
  res_mapM
    (fun cur_class =>
       iou_threshold ← dict_get iou_thresholds cur_class;
       res_mapM (fun diff_idx => rows cur_class iou_threshold diff_idx)
                (seq 0 num_difficulties))
    classes.

(** Lines 36-121: the array [AP], with the classes that are scored and the
    names of the difficulty columns. *)
Definition evaluate_AP (gt_annos pred_annos : list Anno)
    (classes : list string) (use_superclass : bool)
    (iou_thresholds : option (gmap string Q)) (num_pr_points : nat)
    (difficulty_mode : string) (ap_with_heading : bool) (num_parts : nat)
  : res (list string * list string * list (list flt)) :=
  let iou_thresholds :=
    match iou_thresholds with
    | Some d => d
    | None => if use_superclass then superclass_iou_threshold_dict
              else iou_threshold_dict
    end in
  _ ← assert (bool_decide (length gt_annos = length pred_annos));
  _ ← assert (bool_decide (difficulty_mode ∈
                ["Overall&Distance"; "Overall"; "Distance"]));
  classes ← scored_classes classes use_superclass;
  let num_samples := length gt_annos in
  let split_parts := compute_split_parts num_samples num_parts in
  ious ← compute_iou3d gt_annos pred_annos split_parts ap_with_heading;
  difficulty_types ← difficulty_types_of difficulty_mode;
  let num_difficulties := length difficulty_types in
  curves ← precision_curves
    (class_difficulty_rows gt_annos pred_annos ious difficulty_mode
       use_superclass num_pr_points)
    iou_thresholds classes num_difficulties;
  let precision := map (map fst) curves in
  _ ← (if (num_pr_points =? 0)%nat then Err ZeroDivisionError else Ok tt);
  Ok (classes, difficulty_types,
      map (map (average_precision_of num_pr_points)) precision).

Definition get_evaluation_results (gt_annos pred_annos : list Anno)
    (classes : list string) (use_superclass : bool)
    (iou_thresholds : option (gmap string Q)) (num_pr_points : nat)
    (difficulty_mode : string) (ap_with_heading : bool) (num_parts : nat)
  : res (string * list (string * flt)) :=
  '(classes, difficulty_types, AP) ←
     evaluate_AP gt_annos pred_annos classes use_superclass iou_thresholds
                 num_pr_points difficulty_mode ap_with_heading num_parts;
  Ok (report classes difficulty_types num_pr_points AP).

End Evaluation.

(** ** One implementation of the externals, to run the evaluator *)

Module Reference.

(** The overlap of two intervals given by centre and extent. *)
Definition overlap_1d (c1 e1 c2 e2 : Q) : Q :=
  let d := Qmin (c1 + e1 * (1 # 2)) (c2 + e2 * (1 # 2))
           - Qmax (c1 - e1 * (1 # 2)) (c2 - e2 * (1 # 2)) in
  if Qle_bool d 0 then 0 else d.

(** The intersection area of two rectangles that are not rotated. *)
Definition aligned_overlap (a b : Q * Q * Q * Q * Q) : Q :=
  let '(x1, y1, w1, l1, _) := a in
  let '(x2, y2, w2, l2, _) := b in
  overlap_1d x1 w1 x2 w2 * overlap_1d y1 l1 y2 l2.

(** Equal parts, and one more for the remainder. *)
Definition split_evenly (num_samples num_parts : nat) : list nat :=
  let part_samples := (num_samples / num_parts)%nat in
  let remain_samples := (num_samples mod num_parts)%nat in
  if (part_samples =? 0)%nat then [num_samples]
  else if (remain_samples =? 0)%nat then replicate num_parts part_samples
  else replicate num_parts part_samples ++ [remain_samples].

Definition dist2 (b : Box) : Q := bx b * bx b + by_ b * by_ b + bz b * bz b.

(** Is the box within the distance bucket 0-30m, 30-50m or 50m-inf? *)
Definition in_bucket (level : nat) (b : Box) : bool :=
  match level with
  | 0%nat => Qltb (dist2 b) 900
  | 1%nat => Qle_bool 900 (dist2 b) && Qltb (dist2 b) 2500
  | _ => Qle_bool 2500 (dist2 b)
  end.

Definition ignore_none (boxes : list Box) : list bool :=
  map (fun _ => false) boxes.

Definition ignore_by_distance (boxes : list Box) (level : nat) : list bool :=
  map (fun b => negb (in_bucket level b)) boxes.

Definition ignore_overall_distance (boxes : list Box) (level : nat)
  : list bool :=
  match level with
  | 0%nat => ignore_none boxes
  | S level' => ignore_by_distance boxes level'
  end.

(** Two decimals, through the nearest hundredth. *)
Definition two_decimals (a : flt) : string :=
  match a with
  | Fin q =>
      let h := Qfloor (q * 100 + (1 # 2)) in
      let frac := (Z.abs h mod 100)%Z in
      (if (h <? 0)%Z then "-" else "") +:+ pretty (Z.abs h / 100)%Z +:+ "."
      +:+ (if (frac <? 10)%Z then "0" else "") +:+ pretty frac
  | PInf => "inf"
  | NInf => "-inf"
  | NaN => "nan"
  end.

Definition externals : Externals :=
  {| rotate_iou_gpu_eval := aligned_overlap;
     compute_split_parts := split_evenly;
     overall_filter := ignore_none;
     distance_filter := ignore_by_distance;
     overall_distance_filter := ignore_overall_distance;
     format_2f := two_decimals |}.

End Reference.

(** ** Concrete inputs *)

Definition car_box : Box := mkBox 0 0 0 2 4 (3 # 2) 0.
Definition far_box : Box := mkBox 10 0 0 2 4 (3 # 2) 0.

Definition one_car_gt : Anno := mkAnno ["Car"] [car_box] [].
Definition one_car_pred : Anno := mkAnno ["Car"] [car_box] [Q2Qc (9 # 10)].
Definition one_car_miss : Anno := mkAnno ["Car"] [far_box] [Q2Qc (9 # 10)].
Definition flat_box : Box := mkBox 0 0 0 2 4 0 0.
Definition turned_box : Box := mkBox 0 0 0 2 4 (3 # 2) (19 # 2).

(** The extents of a box are positive. *)
Definition positive_extents (b : Box) : Prop :=
  0 < bw b /\ 0 < bl b /\ 0 < bh b.

(** A matrix of pairwise entries, as both kernels build it. *)
Definition pairwise (e : Box -> Box -> flt) (gt_boxes pred_boxes : list Box)
  : Mat :=
  mkMat (length pred_boxes)
        (map (fun g => map (fun p => e g p) pred_boxes) gt_boxes).

(** The IoU matrix of one sample, computed on its own. *)
Definition sample_iou `{Externals} (with_heading : bool)
    (gt_anno pred_anno : Anno) : Mat :=
  if with_heading then
    iou3d_kernel_with_heading (boxes_3d gt_anno) (boxes_3d pred_anno)
  else iou3d_kernel (boxes_3d gt_anno) (boxes_3d pred_anno).

(** The parallel sequences of an annotation have one length. *)
Definition anno_wf (a : Anno) : Prop :=
  length (name a) = length (boxes_3d a).

Definition pred_anno_wf (a : Anno) : Prop :=
  length (name a) = length (boxes_3d a) /\ length (name a) = length (score a).

(** The parts are not empty and cover the samples. *)
Definition split_ok (num_samples : nat) (split_parts : list nat) : Prop :=
  Forall (fun k => (1 <= k)%nat) split_parts
  /\ sum_list split_parts = num_samples.

(** What the ghost log of a pass must satisfy after the rows below [t]:
    it is a one-to-one relation between rows below [t] and predictions, and
    [assigned] is exactly the set of the predictions it holds. *)
Definition pass_inv (num_pred t : nat) (st : pass) : Prop :=
  length (assigned st) = num_pred
  /\ NoDup (matched st).*1
  /\ NoDup (matched st).*2
  /\ (forall i j, (i, j) ∈ matched st -> (i < t)%nat /\ (j < num_pred)%nat)
  /\ (forall j, assigned st !! j = Some true <-> j ∈ (matched st).*2).

(** The matched pairs that count as true positives: both sides accepted. *)
Definition counted_tp (gt_flag pred_flag : list flag)
    (m : list (nat * nat)) : nat :=
  length (filter (fun ij => gt_flag !!! ij.1 = Accepted
                            /\ pred_flag !!! ij.2 = Accepted) m).

(** The accepted rows below [t] that are left without a match. *)
Definition counted_fn (gt_flag : list flag) (t : nat)
    (m : list (nat * nat)) : nat :=
  length (filter (fun i => gt_flag !!! i = Accepted /\ i ∉ m.*1) (seq 0 t)).

(** One sample in which an ignored row takes the only accepted
    prediction that is above the thresholds. *)
Definition crossed_iou : Mat :=
  mkMat 2 [[Fin (6 # 10); Fin (8 # 10)]; [Fin 0; Fin (7 # 10)]].
Definition crossed_scores : list Qc := [Q2Qc (9 # 10); Q2Qc (5 # 10)].
Definition crossed_gt_flag : list flag := [Ignored; Accepted].
Definition crossed_pred_flag : list flag := [Ignored; Accepted].

(** [recall_level] after [t] turns of [recall_level += inc]. *)
Fixpoint bump (t : nat) (inc recall_level : Q) : Q :=
  match t with
  | O => recall_level
  | S t' => bump t' inc (recall_level + inc)
  end.

(** [r_recall + l_recall] at index [i] of [len] scores (lines 161-165). *)
Definition recall_sum (num_gt len i : nat) : Q :=
  (if (i <? len - 1)%nat then Qn (i + 2) / Qn num_gt
   else Qn (i + 1) / Qn num_gt)
  + Qn (i + 1) / Qn num_gt.

(** A number of PR points for which [eps] is more than a whole step. *)
Definition huge_pr_points : nat := Z.to_nat 3000000.

(** What holds of ([recall_level], [thresholds]) once the first [t] of
    [len] scores are handled: the level is the number of thresholds times
    the step; while a score remains there are at most [num_pr_points]
    thresholds, and [num_pr_points + 1] in the end; and the level has passed
    the recall bound of the score handled last. *)
Definition thresholds_inv (num_gt num_pr_points len t : nat)
    (st : Q * list Qc) : Prop :=
  st.1 == Qn (length st.2) * (1 / Qn num_pr_points)
  /\ ((t < len)%nat -> (length st.2 <= num_pr_points)%nat)
  /\ (length st.2 <= num_pr_points + 1)%nat
  /\ (forall i, S i = t -> (t < len)%nat ->
        recall_sum num_gt len i < 2 * st.1).

(** The largest number of PR points for which the bound on the number of
    thresholds is proved. *)
Definition pr_points_max : nat := Z.to_nat 666666.

(** Lines 107-110, the two quotients of a row (tp, fp, fn). *)
Definition raw_recall (row : nat * nat * nat) : flt :=
  let '(tp, fp, fn) := row in Flt.div (Qn tp) (Qn tp + Qn fn).
Definition raw_precision (row : nat * nat * nat) : flt :=
  let '(tp, fp, fn) := row in Flt.div (Qn tp) (Qn tp + Qn fp).

(** No quotient of the row is 0/0. *)
Definition row_defined (row : nat * nat * nat) : Prop :=
  let '(tp, fp, fn) := row in (0 < tp + fp)%nat /\ (0 < tp + fn)%nat.

(** [np.max] of a vector that is not empty. *)
Definition suffix_max (l : list flt) : flt :=
  foldl Flt.max (hd Flt.zero l) (tl l).

(** [v] is one of the values of [l] and none of them is above it. *)
Definition is_max_of (v : flt) (l : list flt) : Prop :=
  v ∈ l /\ forall x, x ∈ l -> Flt.geb v x = true.

(** Each value is at least the next one, as floats compare. *)
Definition non_increasing (l : list flt) : Prop :=
  forall i, (S i < length l)%nat -> Flt.geb (l !!! i) (l !!! S i) = true.

(** A finite value that is not negative. *)
Definition fin_nonneg (a : flt) : Prop :=
  exists q, a = Fin q /\ 0 <= q.

(** Two pedestrians and two detections astride the 30 m limit. *)
Definition ped_box (x : Q) : Box := mkBox x 0 0 2 4 (3 # 2) 0.
Definition straddle_gt : Anno :=
  mkAnno ["Pedestrian"; "Pedestrian"]
         [ped_box (302 # 10); ped_box (296 # 10)] [].
Definition straddle_pred : Anno :=
  mkAnno ["Pedestrian"; "Pedestrian"]
         [ped_box (305 # 10); ped_box (299 # 10)]
         [Q2Qc (9 # 10); Q2Qc (5 # 10)].

(** ** One class and one difficulty, sample by sample *)

(** A sample: its ground truth, its predictions and its IoU matrix. *)
Definition sample : Type := Anno * Anno * Mat.

Definition is_ok {A} (r : res A) : bool :=
  match r with Ok _ => true | Err _ => false end.

Section PerSample.
Context `{Externals}.
Variables (difficulty_mode : string) (use_superclass : bool).
Variable num_pr_points : nat.
Variables (cur_class : string) (iou_threshold : Q) (diff_idx : nat).

Definition sample_filter (s : sample) : res (list flag * list flag) :=
  filter_data s.1.1 s.1.2 difficulty_mode diff_idx cur_class use_superclass.

(** The samples are filtered without exception and none of their rows is
    accepted. *)
Definition no_accepted (l : list sample) : Prop :=
  forall s, s ∈ l ->
    exists gt_flag pred_flag,
      sample_filter s = Ok (gt_flag, pred_flag)
      /\ (Accepted ∉ gt_flag) /\ shape0 s.2 = length gt_flag.

(** The flags of a sample on which [filter_data] raises nothing. *)
Definition sample_flags (s : sample) : list flag * list flag :=
  match sample_filter s with
  | Ok flags => flags
  | Err _ => ([], [])
  end.

Definition sample_scores (s : sample) : list Qc :=
  accumulate_scores s.2 (score s.1.2) (sample_flags s).1 (sample_flags s).2
                    iou_threshold.

Definition sample_valid (s : sample) : nat :=
  count_accepted (sample_flags s).1.

Definition sample_counts (score_th : Qc) (s : sample) : nat * nat * nat :=
  compute_statistics s.2 (score s.1.2) (sample_flags s).1 (sample_flags s).2
                     iou_threshold score_th.

(** The row of the confusion matrix at one threshold: the sums over the
    samples. *)
Definition total_counts (l : list sample) (score_th : Qc) : nat * nat * nat :=
  (sum_list_with (fun s => (sample_counts score_th s).1.1) l,
   sum_list_with (fun s => (sample_counts score_th s).1.2) l,
   sum_list_with (fun s => (sample_counts score_th s).2) l).

(** What the first loop gathers. *)
Definition gathered_of (l : list sample) : gathered :=
  mkGathered (map sample_scores l)
             (map (fun s => (sample_flags s).1) l)
             (map (fun s => (sample_flags s).2) l)
             (sum_list_with sample_valid l).

(** [class_difficulty_rows] as a function of the list of samples. *)
Definition rows_of_samples (l : list sample) : res (list flt * list flt) :=
  _ ← res_mapM sample_filter l;
  all_scores ← np_concatenate (map sample_scores l);
  thresholds ← get_thresholds all_scores (sum_list_with sample_valid l)
                 num_pr_points;
  let cm := map (total_counts l) thresholds in
  let zeros := replicate (num_pr_points + 1) Flt.zero in
  rows1 ← draw_pr_curve cm (zeros, zeros);
  envelope (length thresholds) rows1.

End PerSample.

(** The samples of an evaluation. *)
Definition samples_of (gt_annos pred_annos : list Anno) (ious : list Mat)
  : list sample :=
  zip (zip gt_annos pred_annos) ious.

(** ** The layout of the report *)

(** Strings put one after the other. *)
Definition glue (l : list string) : string := foldr String.append "" l.

(** The line of lines 125-128: the number of PR points, then a cell per
    difficulty type. *)
Definition table_header (num_pr_points : nat)
    (difficulty_types : list string) : string :=
  nl +:+ "|AP@" +:+ ljust 9 (pretty num_pr_points) +:+ "|"
  +:+ glue (map (fun diff_type => ljust 12 diff_type +:+ "|")
                difficulty_types)
  +:+ nl.

(** A line of the table: a label, then a cell per score. *)
Definition table_row `{Externals} (label : string) (scores : list flt)
  : string :=
  "|" +:+ ljust 12 label +:+ "|"
  +:+ glue (map (fun ap_score => ljust 12 (format_2f ap_score) +:+ "|")
                scores)
  +:+ nl.

(** [np.mean(AP, axis=0)]. *)
Definition mean_AP (AP : list (list flt)) (num_difficulties : nat)
  : list flt :=
  map (fun diff_idx =>
         Flt.divq (foldl Flt.add (Fin 0)
                     (map (fun row => row !!! diff_idx) AP))
                  (Qn (length AP)))
      (seq 0 num_difficulties).

(** The keys of one line of the table. *)
Definition row_keys (label : string) (difficulty_types : list string)
  : list string :=
  map (fun diff_type => "AP_" +:+ label +:+ "/" +:+ diff_type)
      difficulty_types.

(** The keys in the order lines 129-145 assign them. *)
Definition table_keys (classes difficulty_types : list string)
  : list string :=
  concat (map (fun cur_class => row_keys cur_class difficulty_types) classes)
  ++ row_keys "mean" difficulty_types.

(** What [d[k] = v] does to the keys of a dict. *)
Definition add_key (keys : list string) (k : string) : list string :=
  if bool_decide (k ∈ keys) then keys else keys ++ [k].

(** Every element once, where it first occurs. *)
Definition first_occurrences (l : list string) : list string :=
  reverse (remove_dups (reverse l)).

(** The classes a caller lists in the order of the ONCE benchmark, with
    the pedestrians first. *)
Definition pedestrian_first : list string :=
  ["Pedestrian"; "Car"; "Bus"; "Truck"].

(** * Definitions for the further properties *)

(** ** What the greedy passes count *)

(** [s] is the score of an accepted prediction that overlaps an accepted
    ground-truth row by more than the threshold. *)
Definition true_positive_score (iou : Mat) (pred_scores : list Qc)
    (gt_flag pred_flag : list flag) (iou_threshold : Q) (s : Qc) : Prop :=
  exists i j, (i < shape0 iou)%nat /\ (j < shape1 iou)%nat
              /\ gt_flag !!! i = Accepted /\ pred_flag !!! j = Accepted
              /\ Flt.gtb (mat_get iou i j) (Fin iou_threshold) = true
              /\ s = pred_scores !!! j.

(** The number of predictions that are accepted and not under the score
    threshold. *)
Definition confident_accepted (pred_scores : list Qc) (pred_flag : list flag)
    (score_threshold : Qc) (num_pred : nat) : nat :=
  length (filter (fun j => pred_flag !!! j = Accepted
                           /\ (score_threshold <= pred_scores !!! j)%Qc)
                 (seq 0 num_pred)).

(** ** What filter_data decides for one box *)

(** The difficulty filters return one mask entry per box. *)
Definition filters_keep_length `{Externals} : Prop :=
  forall boxes level,
    length (overall_filter boxes) = length boxes
    /\ length (distance_filter boxes level) = length boxes
    /\ length (overall_distance_filter boxes level) = length boxes.

(** Lines 278-284 for one name: is the box of another class than the one
    that is scored? *)
Definition other_class (use_superclass : bool) (class_name nm : string)
  : bool :=
  if use_superclass && bool_decide (class_name = "Vehicle")
  then bool_decide (nm = "Pedestrian") || bool_decide (nm = "Cyclist")
  else negb (bool_decide (nm = class_name)).

(** The flag of a box that the difficulty filter ignores or not, and that
    is of another class or not: the mask of the ignored boxes is written
    last. *)
Definition flag_of (ignored other : bool) : flag :=
  if ignored then Ignored else if other then Rejected else Accepted.

Definition supported_modes : list string :=
  ["Overall&Distance"; "Overall"; "Distance"].

(** ** Which exceptions a computation can raise *)

(** Every exception [r] can raise is one of [es]. *)
Definition may_raise {A} (es : list error) (r : res A) : Prop :=
  forall e, r = Err e -> e ∈ es.

(** What lines 50-146 can raise, once the assertions of lines 42-46 have
    passed. *)
Definition body_errors : list error :=
  [ValueError; IndexError; KeyError; ZeroDivisionError].

(** The preconditions that lines 42-46 assert. *)
Definition preconditions (gt_annos pred_annos : list Anno)
    (classes : list string) (use_superclass : bool)
    (difficulty_mode : string) : Prop :=
  length gt_annos = length pred_annos
  /\ difficulty_mode ∈ ["Overall&Distance"; "Overall"; "Distance"]
  /\ (use_superclass = true ->
      "Car" ∈ classes \/ "Bus" ∈ classes \/ "Truck" ∈ classes ->
      "Car" ∈ classes /\ "Bus" ∈ classes /\ "Truck" ∈ classes).

(** ** Well-formed samples *)

(** A sample whose annotations have as many names as boxes and whose IoU
    matrix has a row per ground-truth box. *)
Definition sample_wf (s : sample) : Prop :=
  anno_wf s.1.1 /\ anno_wf s.1.2 /\ shape0 s.2 = length (name s.1.1).

(** ** Floats that denote the same number *)

(** Two outcomes of a division are the same float: the same special value,
    or finite values that are equal as rationals. *)
Definition flt_eq (a b : flt) : Prop :=
  match a, b with
  | Fin x, Fin y => x == y
  | PInf, PInf | NInf, NInf | NaN, NaN => True
  | _, _ => False
  end.

(** A car that faces the other way, less than one turn from [car_box]. *)
Definition reversed_box : Box := mkBox 0 0 0 2 4 (3 # 2) 3.

(** ** Reading the returned map *)

(** [d[k]] on the returned dict. *)
Fixpoint dict_lookup (d : list (string * flt)) (k : string) : option flt :=
  match d with
  | [] => None
  | (k', v) :: d' => if bool_decide (k' = k) then Some v else dict_lookup d' k
  end.

(** The character [/] (code 47). *)
Definition slash : Ascii.ascii :=
  Ascii.Ascii true true true true false true false false.

(** No character of the string is a slash. *)
Fixpoint slash_free (s : string) : bool :=
  match s with
  | EmptyString => true
  | String a s' => negb (bool_decide (a = slash)) && slash_free s'
  end.

(** ** Values in a range *)

(** A finite value between 0 and [top]. *)
Definition fin_within (top : Q) (a : flt) : Prop :=
  exists q, a = Fin q /\ 0 <= q /\ q <= top.

(** A sample whose predictions have a name, a box and a score each, and
    whose IoU matrix has a row per ground-truth box and a column per
    prediction. *)
Definition scored_sample_wf (s : sample) : Prop :=
  sample_wf s
  /\ shape1 s.2 = length (name s.1.2)
  /\ length (score s.1.2) = length (name s.1.2).

(** * Properties *)

(** ** Scalars *)

Lemma Qltb_lt a b : Qltb a b = true <-> a < b.
Proof.
  unfold Qltb. rewrite negb_true_iff. split.
  - intros E. apply Qnot_le_lt. intros Hle.
    apply Qle_bool_iff in Hle. congruence.
  - intros Hlt. destruct (Qle_bool b a) eqn:E; [|reflexivity].
    apply Qle_bool_iff in E. lra.
Qed.

Lemma Qltb_ge a b : Qltb a b = false <-> b <= a.
Proof. unfold Qltb. rewrite negb_false_iff. apply Qle_bool_iff. Qed.

Lemma Qle_bool_false a b : Qle_bool a b = false <-> b < a.
Proof.
  rewrite <- Qltb_lt. unfold Qltb.
  destruct (Qle_bool a b); simpl; intuition congruence.
Qed.

Lemma div_finite a b : ~ b == 0 -> Flt.div a b = Fin (a / b).
Proof.
  intros Hb. unfold Flt.div.
  destruct (Qeq_bool b 0) eqn:E; [|reflexivity].
  apply Qeq_bool_iff in E. contradiction.
Qed.

Lemma div_zero_zero a b : a == 0 -> b == 0 -> Flt.div a b = NaN.
Proof.
  intros Ha Hb. unfold Flt.div.
  apply Qeq_bool_iff in Ha, Hb. rewrite Ha, Hb. reflexivity.
Qed.

(** ** The IoU kernels *)

Lemma np_pi_pos : 0 < np_pi.
Proof. reflexivity. Qed.

Lemma inter_h_nonneg g p : 0 <= inter_h g p.
Proof.
  unfold inter_h. cbv zeta.
  destruct (Qle_bool _ 0) eqn:E; [lra|].
  apply Qle_bool_false in E. lra.
Qed.

Lemma inter_h_le_gt g p : 0 <= bh g -> inter_h g p <= bh g.
Proof.
  intros Hg. unfold inter_h. cbv zeta.
  destruct (Qle_bool _ 0) eqn:E; [lra|].
  pose proof (Q.le_min_l (bz g + bh g * (1 # 2)) (bz p + bh p * (1 # 2))).
  pose proof (Q.le_max_l (bz g - bh g * (1 # 2)) (bz p - bh p * (1 # 2))).
  lra.
Qed.

Lemma inter_h_le_pred g p : 0 <= bh p -> inter_h g p <= bh p.
Proof.
  intros Hp. unfold inter_h. cbv zeta.
  destruct (Qle_bool _ 0) eqn:E; [lra|].
  pose proof (Q.le_min_r (bz g + bh g * (1 # 2)) (bz p + bh p * (1 # 2))).
  pose proof (Q.le_max_r (bz g - bh g * (1 # 2)) (bz p - bh p * (1 # 2))).
  lra.
Qed.

Lemma inter_h_self b : 0 < bh b -> inter_h b b == bh b.
Proof.
  intros Hb. unfold inter_h. cbv zeta.
  pose proof (Q.min_id (bz b + bh b * (1 # 2))) as Hmin.
  pose proof (Q.max_id (bz b - bh b * (1 # 2))) as Hmax.
  destruct (Qle_bool _ 0) eqn:E.
  - apply Qle_bool_iff in E. lra.
  - lra.
Qed.

Lemma footprint_pos b : positive_extents b -> 0 < bw b * bl b.
Proof. intros (Hw & Hl & _). apply Qmult_lt_0_compat; assumption. Qed.

Lemma vol_pos b : positive_extents b -> 0 < vol b.
Proof.
  intros Hb. pose proof (footprint_pos b Hb) as Hf.
  destruct Hb as (_ & _ & Hh). unfold vol.
  apply Qmult_lt_0_compat; assumption.
Qed.

(** The quotient of lines 338-344 is a number of the unit interval once the
    bird's-eye-view intersection is at most either footprint. *)
Lemma iou3d_of_unit_interval K g p :
  positive_extents g -> positive_extents p ->
  0 <= K -> K <= bw g * bl g -> K <= bw p * bl p ->
  exists q, iou3d_of K g p = Fin q /\ 0 <= q /\ q <= 1.
Proof.
  intros Hg0 Hp0 HK HKg HKp.
  pose proof (vol_pos g Hg0) as Hg. pose proof (vol_pos p Hp0) as Hp.
  pose proof (footprint_pos g Hg0) as Hfg.
  pose proof (footprint_pos p Hp0) as Hfp.
  destruct Hg0 as (Hgw & Hgl & Hgh). destruct Hp0 as (Hpw & Hpl & Hph).
  unfold iou3d_of. cbv zeta.
  pose proof (inter_h_nonneg g p) as H0.
  pose proof (inter_h_le_gt g p ltac:(lra)) as H1.
  pose proof (inter_h_le_pred g p ltac:(lra)) as H2.
  set (ih := inter_h g p) in *.
  assert (HIg : K * ih <= vol g).
  { unfold vol. set (A := bw g * bl g) in *.
    apply Qle_trans with (A * ih).
    - apply Qmult_le_compat_r; assumption.
    - rewrite (Qmult_comm A ih), (Qmult_comm A (bh g)).
      apply Qmult_le_compat_r; lra. }
  assert (HIp : K * ih <= vol p).
  { unfold vol. set (A := bw p * bl p) in *.
    apply Qle_trans with (A * ih).
    - apply Qmult_le_compat_r; assumption.
    - rewrite (Qmult_comm A ih), (Qmult_comm A (bh p)).
      apply Qmult_le_compat_r; lra. }
  assert (HI : 0 <= K * ih) by (apply Qmult_le_0_compat; assumption).
  assert (HU : 0 < vol g + vol p - K * ih) by lra.
  rewrite div_finite by lra.
  eexists. split; [reflexivity|]. split.
  - apply Qle_shift_div_l; lra.
  - apply Qle_shift_div_r; lra.
Qed.

Lemma iou3d_of_self K b :
  positive_extents b -> K == bw b * bl b ->
  exists q, iou3d_of K b b = Fin q /\ q == 1.
Proof.
  intros Hb HK. pose proof (vol_pos b Hb) as Hv.
  destruct Hb as (Hw & Hl & Hh).
  unfold iou3d_of. cbv zeta.
  pose proof (inter_h_self b Hh) as Hih.
  assert (HI : K * inter_h b b == vol b).
  { rewrite HK, Hih. reflexivity. }
  assert (HU : vol b + vol b - K * inter_h b b == vol b).
  { rewrite HI. ring. }
  rewrite div_finite by lra.
  eexists. split; [reflexivity|].
  rewrite HU, HI. field. lra.
Qed.

Lemma diff_rot_self b : diff_rot b b == 0.
Proof.
  unfold diff_rot. cbv zeta.
  assert (E : Qabs (brot b - brot b) == 0).
  { rewrite Qabs_pos by lra. ring. }
  destruct (Qle_bool np_pi _) eqn:El.
  - apply Qle_bool_iff in El. pose proof np_pi_pos. lra.
  - exact E.
Qed.

(** Line 381 does what its comment says: where the mask holds the entry is
    zero, whatever the overlap. *)
Lemma heading_mask_zero K g p :
  np_pi / 2 < diff_rot g p -> iou3d_with_heading_of K g p = Fin 0.
Proof.
  intros Hm. unfold iou3d_with_heading_of.
  apply Qltb_lt in Hm. rewrite Hm. reflexivity.
Qed.

Lemma heading_mask_off K g p :
  diff_rot g p <= np_pi / 2 ->
  iou3d_with_heading_of K g p = iou3d_of K g p.
Proof.
  intros Hm. unfold iou3d_with_heading_of.
  apply Qltb_ge in Hm. rewrite Hm. reflexivity.
Qed.

Lemma Qdiv_ge_mult a b c : 0 < c -> a <= b / c -> a * c <= b.
Proof.
  intros Hc Hle. assert (E : b / c * c == b) by (field; lra).
  rewrite <- E. apply Qmult_le_compat_r; lra.
Qed.

Lemma Qdiv_lt_mult a b c : 0 < c -> b / c < a -> b < a * c.
Proof.
  intros Hc Hlt. assert (E : b / c * c == b) by (field; lra).
  rewrite <- E. apply Qmult_lt_compat_r; lra.
Qed.

(** The folded difference of the specification is an angle of [0, pi]. *)
Lemma wrapped_yaw_difference_range a b :
  0 <= wrapped_yaw_difference a b /\ wrapped_yaw_difference a b <= np_pi.
Proof.
  unfold wrapped_yaw_difference. cbv zeta.
  set (d := Qabs (a - b)).
  pose proof np_pi_pos as Hpi.
  pose proof (Qfloor_le (d / (2 * np_pi))) as Hlo.
  pose proof (Qlt_floor (d / (2 * np_pi))) as Hhi.
  set (k := inject_Z (Qfloor (d / (2 * np_pi)))) in *.
  assert (Hk1 : k * (2 * np_pi) <= d).
  { apply Qdiv_ge_mult; [lra | exact Hlo]. }
  assert (Hk2 : d < (k + 1) * (2 * np_pi)).
  { replace (inject_Z (Qfloor (d / (2 * np_pi)) + 1)) with (k + 1) in Hhi.
    - apply Qdiv_lt_mult; [lra | exact Hhi].
    - unfold k. rewrite inject_Z_plus. reflexivity. }
  destruct (Qle_bool np_pi _) eqn:E.
  - apply Qle_bool_iff in E. lra.
  - apply Qle_bool_false in E. lra.
Qed.

(** As long as the two yaws are at most a full turn apart, lines 377-380
    compute the folded difference. *)
Lemma diff_rot_wrapped g p :
  Qabs (brot g - brot p) <= 2 * np_pi ->
  diff_rot g p == wrapped_yaw_difference (brot g) (brot p).
Proof.
  intros Hd. unfold diff_rot, wrapped_yaw_difference. cbv zeta.
  set (d := Qabs (brot g - brot p)) in *.
  pose proof np_pi_pos as Hpi.
  pose proof (Qabs_nonneg (brot g - brot p)) as Hd0. fold d in Hd0.
  destruct (Qlt_le_dec d (2 * np_pi)) as [Hlt|Hge].
  - assert (Hf : Qfloor (d / (2 * np_pi)) = 0%Z).
    { assert (0 <= d / (2 * np_pi)) by (apply Qle_shift_div_l; lra).
      assert (d / (2 * np_pi) < 1) by (apply Qlt_shift_div_r; lra).
      pose proof (Qfloor_le (d / (2 * np_pi))).
      pose proof (Qlt_floor (d / (2 * np_pi))).
      assert (Hz : (0 <= Qfloor (d / (2 * np_pi)))%Z).
      { change 0%Z with (Qfloor 0). apply Qfloor_resp_le. assumption. }
      assert (Hz' : (Qfloor (d / (2 * np_pi)) < 1)%Z).
      { rewrite Zlt_Qlt. change (inject_Z 1) with 1. lra. }
      lia. }
    rewrite Hf.
    assert (Er : d - inject_Z 0 * (2 * np_pi) == d) by (change (inject_Z 0) with 0; ring).
    destruct (Qle_bool np_pi d) eqn:E1;
      destruct (Qle_bool np_pi (d - inject_Z 0 * (2 * np_pi))) eqn:E2;
      try apply Qle_bool_iff in E1; try apply Qle_bool_iff in E2;
      try apply Qle_bool_false in E1; try apply Qle_bool_false in E2;
      lra.
  - assert (Ed : d == 2 * np_pi) by lra.
    assert (Hf : Qfloor (d / (2 * np_pi)) = 1%Z).
    { assert (Eq : d / (2 * np_pi) == 1) by (rewrite Ed; field; lra).
      rewrite Eq. reflexivity. }
    rewrite Hf.
    destruct (Qle_bool np_pi d) eqn:E1;
      destruct (Qle_bool np_pi (d - inject_Z 1 * (2 * np_pi))) eqn:E2;
      try apply Qle_bool_iff in E1; try apply Qle_bool_iff in E2;
      try apply Qle_bool_false in E1; try apply Qle_bool_false in E2;
      change (inject_Z 1) with 1 in *; lra.
Qed.

Section KernelFacts.
Context `{Externals}.

Lemma map_fmap {A B} (f : A -> B) (l : list A) : map f l = f <$> l.
Proof. reflexivity. Qed.

Lemma lookup_total_map {A B} `{Inhabited B} (f : A -> B) l i a :
  l !! i = Some a -> map f l !!! i = f a.
Proof.
  intros Hl. rewrite map_fmap. apply list_lookup_total_correct.
  rewrite list_lookup_fmap, Hl. reflexivity.
Qed.

Lemma iou3d_kernel_get gt_boxes pred_boxes i j g p :
  gt_boxes !! i = Some g -> pred_boxes !! j = Some p ->
  mat_get (iou3d_kernel gt_boxes pred_boxes) i j = iou3d_entry g p.
Proof.
  intros Hg Hp. unfold mat_get, iou3d_kernel. simpl.
  rewrite (lookup_total_map _ _ _ _ Hg).
  apply (lookup_total_map _ _ _ _ Hp).
Qed.

Lemma iou3d_kernel_with_heading_get gt_boxes pred_boxes i j g p :
  gt_boxes !! i = Some g -> pred_boxes !! j = Some p ->
  mat_get (iou3d_kernel_with_heading gt_boxes pred_boxes) i j
  = iou3d_entry_with_heading g p.
Proof.
  intros Hg Hp. unfold mat_get, iou3d_kernel_with_heading. simpl.
  rewrite (lookup_total_map _ _ _ _ Hg).
  apply (lookup_total_map _ _ _ _ Hp).
Qed.

End KernelFacts.

(** C1, at a pair the heading filter lets through.  The two boxes share
    centre and extents and their yaws are 9.5 rad apart, that is about 176
    degrees once folded; lines 377-380 turn 9.5 into 2*pi - 9.5 < 0, the
    mask of line 381 stays off, and the entry keeps the plain IoU, 7/9 when
    the footprints overlap on an area of 7. *)
Theorem heading_filter_misses_wide_yaw_gap :
  np_pi / 2 < wrapped_yaw_difference (brot turned_box) (brot car_box)
  /\ diff_rot turned_box car_box < 0
  /\ (forall E : Externals,
        mat_get (@iou3d_kernel_with_heading E [turned_box] [car_box]) 0 0
        = mat_get (@iou3d_kernel E [turned_box] [car_box]) 0 0)
  /\ (exists q, iou3d_with_heading_of 7 turned_box car_box = Fin q
                /\ q == 7 # 9).
Proof.
  split; [reflexivity|]. split; [reflexivity|]. split.
  - intros E. reflexivity.
  - eexists. split; [reflexivity|]. reflexivity.
Qed.




(** ** The error monad and slices *)

Lemma foldlM_app {S A} (f : S -> A -> res S) s l1 l2 :
  foldlM f s (l1 ++ l2) = (s' ← foldlM f s l1; foldlM f s' l2).
Proof.
  revert s. induction l1 as [|a l1 IH]; intros s; simpl; [reflexivity|].
  destruct (f s a) as [s'|e]; simpl; [apply IH | reflexivity].
Qed.

Lemma foldlM_snoc {S A} (f : S -> A -> res S) s l a s' :
  foldlM f s l = Ok s' -> foldlM f s (l ++ [a]) = f s' a.
Proof.
  intros Hl. rewrite foldlM_app, Hl. simpl.
  destruct (f s' a); reflexivity.
Qed.

Lemma index_ok {A} (l : list A) i a : l !! i = Some a -> index l i = Ok a.
Proof. intros E. unfold index. rewrite E. reflexivity. Qed.

Lemma slice_middle {A} (l1 l l2 : list A) :
  slice (length l1) (length l1 + length l) (l1 ++ l ++ l2) = l.
Proof.
  unfold slice. rewrite drop_app_length.
  replace (length l1 + length l - length l1)%nat with (length l) by lia.
  apply take_app_length.
Qed.

Lemma slice_take_drop {A} (l : list A) a k :
  slice a (a + k) l = take k (drop a l).
Proof. unfold slice. f_equal. lia. Qed.

(** ** compute_iou3d gives each sample its own IoU matrix *)

Lemma mat_slice_pairwise e (G1 Gs G2 P1 Ps P2 : list Box) :
  mat_slice (pairwise e (G1 ++ Gs ++ G2) (P1 ++ Ps ++ P2))
            (length G1) (length G1 + length Gs)
            (length P1) (length P1 + length Ps)
  = pairwise e Gs Ps.
Proof.
  unfold mat_slice, pairwise. simpl. f_equal.
  - rewrite !length_app. lia.
  - rewrite !map_app.
    rewrite <- (length_map (fun g => map (fun p => e g p) (P1 ++ Ps ++ P2)) G1).
    rewrite <- (length_map (fun g => map (fun p => e g p) (P1 ++ Ps ++ P2)) Gs)
      at 1.
    rewrite slice_middle. rewrite map_map.
    apply map_ext. intros g. rewrite !map_app.
    rewrite <- (length_map (fun p => e g p) P1).
    rewrite <- (length_map (fun p => e g p) Ps) at 1.
    apply slice_middle.
Qed.

Lemma np_concatenate_ok {A} (parts : list (list A)) :
  parts <> [] -> np_concatenate parts = Ok (concat parts).
Proof. destruct parts; [congruence | reflexivity]. Qed.

Lemma map_nonempty {A B} (f : A -> B) (l : list A) :
  (1 <= length l)%nat -> map f l <> [].
Proof. destruct l; simpl; [lia | discriminate]. Qed.

Lemma concat_map_take_S {A B} (f : A -> list B) l t a :
  l !! t = Some a ->
  concat (map f (take (S t) l)) = concat (map f (take t l)) ++ f a.
Proof.
  intros Ha. rewrite (take_S_r _ _ _ Ha), map_app, concat_app. simpl.
  rewrite app_nil_r. reflexivity.
Qed.

Lemma concat_map_middle {A B} (f : A -> list B) l t a :
  l !! t = Some a ->
  concat (map f l)
  = concat (map f (take t l)) ++ f a ++ concat (map f (drop (S t) l)).
Proof.
  intros Ha. rewrite <- (take_drop_middle _ _ _ Ha) at 1.
  rewrite map_app, concat_app. reflexivity.
Qed.

Section CutPart.
Variable e : Box -> Box -> flt.
Variables (gnum pnum : list nat) (s : nat) (gs ps : list Anno).
Hypothesis same_length : length gs = length ps.
Hypothesis gnum_ok : forall idx g,
  gs !! idx = Some g -> gnum !! (s + idx)%nat = Some (length (boxes_3d g)).
Hypothesis pnum_ok : forall idx p,
  ps !! idx = Some p -> pnum !! (s + idx)%nat = Some (length (boxes_3d p)).

Let part : Mat :=
  pairwise e (concat (map boxes_3d gs)) (concat (map boxes_3d ps)).

(** The loop of lines 414-419 after [t] turns: the two running offsets are
    the numbers of boxes seen so far, and each block is the matrix of its
    own sample. *)
Lemma cut_part_steps t :
  (t <= length gs)%nat ->
  foldlM (cut_part_step gnum pnum part s) (0%nat, 0%nat, []) (seq 0 t)
  = Ok (length (concat (map boxes_3d (take t gs))),
        length (concat (map boxes_3d (take t ps))),
        zip_with (fun g p => pairwise e (boxes_3d g) (boxes_3d p))
                 (take t gs) (take t ps)).
Proof.
  induction t as [|t IH]; intros Ht; [reflexivity|].
  rewrite seq_S. rewrite (foldlM_snoc _ _ _ _ _ (IH ltac:(lia))). simpl.
  destruct (lookup_lt_is_Some_2 gs t ltac:(lia)) as [g Hg].
  destruct (lookup_lt_is_Some_2 ps t ltac:(lia)) as [p Hp].
  rewrite (index_ok _ _ _ (gnum_ok _ _ Hg)). simpl.
  rewrite (index_ok _ _ _ (pnum_ok _ _ Hp)). simpl.
  rewrite (concat_map_take_S boxes_3d gs t g Hg).
  rewrite (concat_map_take_S boxes_3d ps t p Hp).
  rewrite !length_app.
  rewrite (take_S_r _ _ _ Hg), (take_S_r _ _ _ Hp).
  rewrite zip_with_app by (rewrite !length_take; lia). simpl.
  unfold part.
  rewrite (concat_map_middle boxes_3d gs t g Hg) at 1.
  rewrite (concat_map_middle boxes_3d ps t p Hp) at 1.
  rewrite mat_slice_pairwise. reflexivity.
Qed.

Lemma cut_part_ok :
  cut_part gnum pnum part s (length gs)
  = Ok (zip_with (fun g p => pairwise e (boxes_3d g) (boxes_3d p)) gs ps).
Proof.
  unfold cut_part. rewrite (cut_part_steps (length gs) ltac:(lia)). simpl.
  rewrite firstn_all. rewrite same_length, firstn_all. reflexivity.
Qed.

End CutPart.

Section ComputeIou3d.
Context `{Externals}.
Variables (gt_annos pred_annos : list Anno) (with_heading : bool).
Hypothesis same_length : length gt_annos = length pred_annos.
Hypothesis gt_wf : Forall anno_wf gt_annos.
Hypothesis pred_wf : Forall anno_wf pred_annos.

Lemma sample_iou_pairwise g p :
  sample_iou with_heading g p
  = pairwise (if with_heading then iou3d_entry_with_heading else iou3d_entry)
             (boxes_3d g) (boxes_3d p).
Proof. unfold sample_iou. destruct with_heading; reflexivity. Qed.

Lemma num_per_sample_lookup (annos : list Anno) s k idx a :
  Forall anno_wf annos ->
  slice s (s + k) annos !! idx = Some a ->
  map (fun anno => length (name anno)) annos !! (s + idx)%nat
  = Some (length (boxes_3d a)).
Proof.
  intros Hwf Ha. rewrite slice_take_drop in Ha.
  apply lookup_take_Some in Ha as [Ha _]. rewrite lookup_drop in Ha.
  rewrite map_fmap, list_lookup_fmap, Ha. simpl. f_equal.
  rewrite Forall_lookup in Hwf. apply (Hwf _ _ Ha).
Qed.

(** One turn of the loop over the parts appends the matrices of the
    samples of that part. *)
Lemma compute_iou3d_step_ok s ious k :
  (1 <= k)%nat -> (s + k <= length gt_annos)%nat ->
  compute_iou3d_step gt_annos pred_annos with_heading (s, ious) k
  = Ok ((s + k)%nat,
        ious ++ zip_with (sample_iou with_heading)
                  (slice s (s + k) gt_annos) (slice s (s + k) pred_annos)).
Proof.
  intros Hk Hs. unfold compute_iou3d_step.
  set (gs := slice s (s + k) gt_annos).
  set (ps := slice s (s + k) pred_annos).
  assert (Lg : length gs = k).
  { unfold gs. rewrite slice_take_drop, length_take, length_drop. lia. }
  assert (Lp : length ps = k).
  { unfold ps. rewrite slice_take_drop, length_take, length_drop. lia. }
  rewrite np_concatenate_ok by (apply map_nonempty; lia).
  simpl.
  rewrite np_concatenate_ok by (apply map_nonempty; lia).
  simpl.
  assert (Ek : forall M,
    M = pairwise (if with_heading then iou3d_entry_with_heading
                  else iou3d_entry)
          (concat (map boxes_3d gs)) (concat (map boxes_3d ps)) ->
    cut_part (map (fun anno => length (name anno)) gt_annos)
             (map (fun anno => length (name anno)) pred_annos) M s k
    = Ok (zip_with (sample_iou with_heading) gs ps)).
  { intros M ->. rewrite <- Lg.
    rewrite cut_part_ok.
    - f_equal. apply zip_with_ext; try reflexivity.
      intros g p. symmetry. apply sample_iou_pairwise.
    - lia.
    - intros idx g Hg. apply (num_per_sample_lookup _ _ k _ _ gt_wf Hg).
    - intros idx p Hp. apply (num_per_sample_lookup _ _ k _ _ pred_wf Hp). }
  rewrite Ek by (destruct with_heading; reflexivity).
  reflexivity.
Qed.

Lemma compute_iou3d_steps split_parts : forall s ious,
  Forall (fun k => (1 <= k)%nat) split_parts ->
  (s + sum_list split_parts <= length gt_annos)%nat ->
  foldlM (compute_iou3d_step gt_annos pred_annos with_heading)
         (s, ious) split_parts
  = Ok ((s + sum_list split_parts)%nat,
        ious ++ zip_with (sample_iou with_heading)
                  (slice s (s + sum_list split_parts) gt_annos)
                  (slice s (s + sum_list split_parts) pred_annos)).
Proof.
  induction split_parts as [|k parts IH]; intros s ious Hpos Hsum.
  - simpl. rewrite Nat.add_0_r. unfold slice. rewrite Nat.sub_diag. simpl.
    rewrite app_nil_r. reflexivity.
  - inversion Hpos as [|? ? Hk Hrest]; subst. simpl in Hsum.
    cbn [foldlM].
    rewrite compute_iou3d_step_ok by lia. simpl.
    rewrite IH by (assumption || lia).
    f_equal. f_equal; [lia|].
    rewrite <- app_assoc. f_equal.
    rewrite !slice_take_drop.
    replace (s + k + sum_list parts - (s + k))%nat with (sum_list parts)
      by lia.
    rewrite <- !(take_take_drop _ k (sum_list parts)).
    rewrite zip_with_app
      by (rewrite !length_take, !length_drop; lia).
    rewrite !drop_drop. reflexivity.
Qed.

(** Whatever the parts, as long as they are not empty and cover the
    samples, each sample gets the matrix computed on its own boxes. *)
Lemma compute_iou3d_per_sample split_parts :
  gt_annos <> [] -> split_ok (length gt_annos) split_parts ->
  compute_iou3d gt_annos pred_annos split_parts with_heading
  = Ok (zip_with (sample_iou with_heading) gt_annos pred_annos).
Proof.
  intros Hne [Hpos Hsum]. unfold compute_iou3d.
  assert (E : forall l : list Anno, l <> [] ->
            match l with [] => Err ValueError | _ => Ok tt end = Ok tt).
  { intros [|? ?] Hl; [congruence | reflexivity]. }
  assert (Hne' : pred_annos <> []).
  { intros Ep. apply Hne. apply length_zero_iff_nil.
    rewrite same_length, Ep. reflexivity. }
  rewrite (E _ Hne), (E _ Hne'). simpl.
  rewrite compute_iou3d_steps; [|assumption|simpl; lia].
  simpl. f_equal. rewrite Hsum. unfold slice.
  rewrite Nat.sub_0_r. simpl. rewrite firstn_all.
  rewrite same_length, firstn_all. reflexivity.
Qed.

End ComputeIou3d.

(** ** The greedy passes *)

Lemma pass_inv_init num_pred :
  pass_inv num_pred 0 (mkPass (replicate num_pred false) [] 0 0 []).
Proof.
  unfold pass_inv. simpl. rewrite length_replicate.
  repeat split; try constructor.
  - apply elem_of_nil in H. destruct H.
  - apply elem_of_nil in H. destruct H.
  - intros Hj. apply lookup_replicate in Hj as [? _]. discriminate.
  - intros Hj. apply elem_of_nil in Hj. destruct Hj.
Qed.

Lemma pass_inv_keep num_pred t st st' :
  pass_inv num_pred t st ->
  assigned st' = assigned st -> matched st' = matched st ->
  pass_inv num_pred (S t) st'.
Proof.
  intros (Hlen & Hd1 & Hd2 & Hb & Ha) Ea Em. unfold pass_inv.
  rewrite Ea, Em. repeat split; try assumption.
  - destruct (Hb _ _ H). lia.
  - destruct (Hb _ _ H). lia.
  - apply Ha.
  - apply Ha.
Qed.

Lemma pass_inv_assign num_pred t st st' j :
  pass_inv num_pred t st ->
  (j < num_pred)%nat -> assigned st !!! j = false ->
  assigned st' = <[j := true]> (assigned st) ->
  matched st' = matched st ++ [(t, j)] ->
  pass_inv num_pred (S t) st'.
Proof.
  intros (Hlen & Hd1 & Hd2 & Hb & Ha) Hj Hfree Ea Em. unfold pass_inv.
  rewrite Ea, Em, !fmap_app. simpl.
  assert (Hfree' : assigned st !! j = Some false).
  { rewrite <- Hfree. apply list_lookup_lookup_total_lt. lia. }
  split; [rewrite length_insert; assumption|].
  split.
  { apply NoDup_app. split; [assumption|]. split; [|apply NoDup_singleton].
    intros i Hi Hi'. apply list_elem_of_singleton in Hi'. subst i.
    apply list_elem_of_fmap in Hi as ([i' j'] & E & Hin). simpl in E. subst.
    destruct (Hb _ _ Hin). lia. }
  split.
  { apply NoDup_app. split; [assumption|]. split; [|apply NoDup_singleton].
    intros j' Hj' Hj''. apply list_elem_of_singleton in Hj''. subst j'.
    apply Ha in Hj'. congruence. }
  split.
  { intros i' j' Hin. apply elem_of_app in Hin as [Hin|Hin].
    - destruct (Hb _ _ Hin). lia.
    - apply list_elem_of_singleton in Hin. inversion Hin; subst. lia. }
  intros j'. rewrite elem_of_app, list_elem_of_singleton.
  destruct (decide (j = j')) as [<-|Hne].
  - rewrite list_lookup_insert_eq by lia. tauto.
  - rewrite list_lookup_insert_ne by assumption. rewrite Ha.
    split; [tauto|]. intros [?|?]; [assumption|congruence].
Qed.

Section MatchingFacts.
Variables (iou : Mat) (pred_scores : list Qc).
Variables (gt_flag pred_flag : list flag).
Variable iou_threshold : Q.

(** The prediction picked for a row is a free one of the right class. *)
Lemma accumulate_inner_cases asg i n :
  let r := foldl (accumulate_inner_step iou pred_scores pred_flag
                    iou_threshold asg i)
                 (None, Q2Qc (-1)) (seq 0 n) in
  (r.1 = None /\ r.2 = Q2Qc (-1))
  \/ (exists j, r.1 = Some j /\ (j < n)%nat /\ asg !!! j = false
                /\ pred_flag !!! j <> Rejected
                /\ (Q2Qc (-1) < r.2)%Qc /\ r.2 = pred_scores !!! j).
Proof.
  induction n as [|n IH]; [left; split; reflexivity|].
  cbv zeta in *. rewrite seq_S, foldl_app. simpl.
  destruct (foldl _ _ (seq 0 n)) as [d ds]. simpl in *.
  unfold accumulate_inner_step.
  assert (Hkeep :
    (d = None /\ ds = Q2Qc (-1))
    \/ (exists j, d = Some j /\ (j < S n)%nat /\ asg !!! j = false
                  /\ pred_flag !!! j <> Rejected
                  /\ (Q2Qc (-1) < ds)%Qc /\ ds = pred_scores !!! j)).
  { destruct IH as [IH|(j & ? & ? & ?)]; [left; exact IH|].
    right. exists j. split; [assumption|]. split; [lia|assumption]. }
  case_bool_decide as Hrej; [exact Hkeep|].
  destruct (asg !!! n) eqn:Hasg; [exact Hkeep|].
  destruct (Flt.gtb _ _); simpl; [|exact Hkeep].
  case_bool_decide as Hlt; simpl; [|exact Hkeep].
  right. exists n. repeat split; try assumption; try lia.
  destruct IH as [[_ ->]|(j & _ & _ & _ & _ & Hds & _)]; [assumption|].
  eapply Qclt_trans; eassumption.
Qed.

Lemma accumulate_step_cases st i :
  length (assigned st) = shape1 iou ->
  let st' := accumulate_step iou pred_scores gt_flag pred_flag iou_threshold
               st i in
  (assigned st' = assigned st /\ matched st' = matched st
   /\ accum st' = accum st)
  \/ (exists j, (j < shape1 iou)%nat /\ assigned st !!! j = false
                /\ assigned st' = <[j := true]> (assigned st)
                /\ matched st' = matched st ++ [(i, j)]
                /\ (accum st' = accum st
                    \/ gt_flag !!! i = Accepted
                       /\ accum st' = accum st ++ [pred_scores !!! j])).
Proof.
  intros Hlen. unfold accumulate_step.
  case_bool_decide as Hrej; [left; repeat split|].
  pose proof (accumulate_inner_cases (assigned st) i (shape1 iou)) as Hin.
  fold (accumulate_inner iou pred_scores pred_flag iou_threshold
          (assigned st) i) in Hin.
  destruct (accumulate_inner _ _ _ _ _ _) as [d ds]. simpl in Hin.
  destruct Hin as [[-> ->]|(j & -> & Hj & Hfree & Hcls & Hds & Eds)].
  - rewrite bool_decide_eq_true_2 by reflexivity. simpl.
    case_bool_decide; left; repeat split.
  - rewrite bool_decide_eq_false_2
      by (intros E; rewrite E in Hds; apply (Qclt_not_eq _ _ Hds);
          reflexivity).
    simpl.
    destruct (bool_decide (gt_flag !!! i = Ignored)
              || bool_decide (pred_flag !!! j = Ignored)) eqn:Eign.
    + right. exists j. repeat split; try assumption. left. reflexivity.
    + right. exists j. simpl. repeat split; try assumption. right.
      apply orb_false_iff in Eign as [Eg _].
      apply bool_decide_eq_false in Eg.
      split; [|reflexivity].
      destruct (gt_flag !!! i); congruence.
Qed.

Lemma accumulate_pass_inv t :
  let st := foldl (accumulate_step iou pred_scores gt_flag pred_flag
                     iou_threshold)
                  (mkPass (replicate (shape1 iou) false) [] 0 0 [])
                  (seq 0 t) in
  pass_inv (shape1 iou) t st
  /\ (length (accum st)
      <= length (filter (fun i => gt_flag !!! i = Accepted) (seq 0 t)))%nat.
Proof.
  induction t as [|t [IH IHa]].
  - split; [apply pass_inv_init | simpl; lia].
  - cbv zeta in *. rewrite seq_S, foldl_app. simpl.
    set (st := foldl _ _ (seq 0 t)) in *.
    rewrite filter_app, length_app.
    pose proof (accumulate_step_cases st t (proj1 IH)) as Hst.
    simpl in Hst.
    destruct Hst as [(Ea & Em & Ec)|(j & Hj & Hfree & Ea & Em & Hc)].
    + split; [eapply pass_inv_keep; eassumption|]. rewrite Ec. lia.
    + split; [eapply pass_inv_assign; eassumption|].
      destruct Hc as [->|[Hacc ->]]; [lia|].
      rewrite length_app. simpl.
      rewrite filter_cons_True by assumption. simpl. lia.
Qed.

Variable score_threshold : Qc.

Lemma statistics_inner_cases asg i n :
  let pr := foldl (statistics_inner_step iou pred_scores pred_flag
                     iou_threshold score_threshold asg i)
                  (mkProbe (Fin 0) None false false) (seq 0 n) in
  (detected pr = false /\ det_idx pr = None)
  \/ (exists j, detected pr = true /\ det_idx pr = Some j /\ (j < n)%nat
                /\ asg !!! j = false
                /\ pred_flag !!! j <> Rejected
                /\ under_threshold pred_scores score_threshold !!! j = false).
Proof.
  induction n as [|n IH]; [left; split; reflexivity|].
  cbv zeta in *. rewrite seq_S, foldl_app. simpl.
  set (pr := foldl _ _ (seq 0 n)) in *.
  unfold statistics_inner_step.
  assert (Hkeep :
    (detected pr = false /\ det_idx pr = None)
    \/ (exists j, detected pr = true /\ det_idx pr = Some j /\ (j < S n)%nat
                  /\ asg !!! j = false
                  /\ pred_flag !!! j <> Rejected
                  /\ under_threshold pred_scores score_threshold !!! j
                     = false)).
  { destruct IH as [IH|(j & ? & ? & ? & ? & ? & ?)]; [left; exact IH|].
    right. exists j. repeat split; try assumption; lia. }
  case_bool_decide as Hrej; [exact Hkeep|].
  destruct (asg !!! n) eqn:Hasg; [exact Hkeep|].
  destruct (under_threshold _ _ !!! n) eqn:Hund; [exact Hkeep|].
  destruct (_ && _ && bool_decide (pred_flag !!! n = Accepted)).
  { right. exists n. simpl. repeat split; try assumption; lia. }
  destruct (_ && _ && bool_decide (pred_flag !!! n = Ignored)).
  { right. exists n. simpl. repeat split; try assumption; lia. }
  exact Hkeep.
Qed.

(** One row of [compute_statistics]: either nothing is assigned, and the
    row is a false negative exactly when it is accepted, or a free
    prediction is assigned, and the row is a true positive exactly when both
    sides are accepted. *)
Lemma statistics_step_cases st i :
  let st' := statistics_step iou pred_scores gt_flag pred_flag iou_threshold
               score_threshold st i in
  (assigned st' = assigned st /\ matched st' = matched st
   /\ tp st' = tp st
   /\ fn st' = (if bool_decide (gt_flag !!! i = Accepted) then S (fn st)
                else fn st))
  \/ (exists j, (j < shape1 iou)%nat /\ assigned st !!! j = false
                /\ pred_flag !!! j <> Rejected
                /\ under_threshold pred_scores score_threshold !!! j = false
                /\ gt_flag !!! i <> Rejected
                /\ assigned st' = <[j := true]> (assigned st)
                /\ matched st' = matched st ++ [(i, j)]
                /\ fn st' = fn st
                /\ tp st' = (if bool_decide (gt_flag !!! i = Accepted
                                             /\ pred_flag !!! j = Accepted)
                             then S (tp st) else tp st)).
Proof.
  unfold statistics_step.
  case_bool_decide as Hrej.
  { left. rewrite Hrej. repeat split. }
  pose proof (statistics_inner_cases (assigned st) i (shape1 iou)) as Hin.
  fold (statistics_inner iou pred_scores pred_flag iou_threshold
          score_threshold (assigned st) i) in Hin.
  destruct (statistics_inner _ _ _ _ _ _ _) as [b d det gati]. simpl in *.
  destruct Hin as [[-> ->]|(j & -> & -> & Hj & Hfree & Hcls & Hund)]; simpl.
  - left. case_bool_decide; simpl; repeat split.
  - right. exists j.
    destruct (gt_flag !!! i) eqn:Eg; [congruence| |];
      destruct (pred_flag !!! j) eqn:Ep; try congruence; simpl;
      repeat split; try assumption; try congruence;
      try (rewrite bool_decide_eq_true_2 by (split; reflexivity); reflexivity);
      try (rewrite bool_decide_eq_false_2 by (intros [? ?]; congruence);
           reflexivity).
Qed.

End MatchingFacts.

Lemma filter_ext_in {A} (P1 P2 : A -> Prop)
    `{!forall x, Decision (P1 x), !forall x, Decision (P2 x)} (l : list A) :
  (forall x, x ∈ l -> P1 x <-> P2 x) -> filter P1 l = filter P2 l.
Proof.
  induction l as [|a l IH]; intros Hiff; [reflexivity|].
  assert (Ha : P1 a <-> P2 a) by (apply Hiff; left).
  assert (Hl : filter P1 l = filter P2 l).
  { apply IH. intros x Hx. apply Hiff. right. exact Hx. }
  destruct (decide (P1 a)) as [H1|H1].
  - rewrite !filter_cons_True by tauto. rewrite Hl. reflexivity.
  - rewrite !filter_cons_False by tauto. exact Hl.
Qed.

Lemma count_by_filter {A} (b : A -> bool) (l : list A) (n0 : nat) :
  foldl (fun c x => if b x then S c else c) n0 l
  = (n0 + length (filter (fun x => b x = true) l))%nat.
Proof.
  revert n0. induction l as [|x l IH]; intros n0; simpl; [lia|].
  rewrite IH. destruct (b x) eqn:E.
  - rewrite filter_cons_True by assumption. simpl. lia.
  - rewrite filter_cons_False by congruence. lia.
Qed.

Lemma NoDup_snd_functional {A B} (l : list (A * B)) a1 a2 b :
  NoDup l.*2 -> (a1, b) ∈ l -> (a2, b) ∈ l -> a1 = a2.
Proof.
  induction l as [|[a' b'] l IH]; intros Hnd H1 H2.
  - apply elem_of_nil in H1. destruct H1.
  - simpl in Hnd. apply NoDup_cons in Hnd as [Hnotin Hnd].
    apply elem_of_cons in H1 as [E1|H1]; apply elem_of_cons in H2 as [E2|H2].
    + congruence.
    + inversion E1; subst. exfalso. apply Hnotin.
      apply list_elem_of_fmap. exists (a2, b'). split; [reflexivity|assumption].
    + inversion E2; subst. exfalso. apply Hnotin.
      apply list_elem_of_fmap. exists (a1, b'). split; [reflexivity|assumption].
    + apply IH; assumption.
Qed.

Lemma NoDup_fst_functional {A B} (l : list (A * B)) a b1 b2 :
  NoDup l.*1 -> (a, b1) ∈ l -> (a, b2) ∈ l -> b1 = b2.
Proof.
  induction l as [|[a' b'] l IH]; intros Hnd H1 H2.
  - apply elem_of_nil in H1. destruct H1.
  - simpl in Hnd. apply NoDup_cons in Hnd as [Hnotin Hnd].
    apply elem_of_cons in H1 as [E1|H1]; apply elem_of_cons in H2 as [E2|H2].
    + congruence.
    + inversion E1; subst. exfalso. apply Hnotin.
      apply list_elem_of_fmap. exists (a', b2). split; [reflexivity|assumption].
    + inversion E2; subst. exfalso. apply Hnotin.
      apply list_elem_of_fmap. exists (a', b1). split; [reflexivity|assumption].
    + apply IH; assumption.
Qed.

Section StatisticsFacts.
Variables (iou : Mat) (pred_scores : list Qc).
Variables (gt_flag pred_flag : list flag).
Variable iou_threshold : Q.
Variable score_threshold : Qc.

Lemma counted_fn_snoc t m m' :
  (forall i, (i < t)%nat -> i ∈ m'.*1 <-> i ∈ m.*1) ->
  counted_fn gt_flag (S t) m'
  = (counted_fn gt_flag t m
     + if bool_decide (gt_flag !!! t = Accepted /\ t ∉ m'.*1) then 1 else 0)%nat.
Proof.
  intros Hsame. unfold counted_fn.
  rewrite seq_S, filter_app, length_app. simpl. f_equal.
  - f_equal. apply filter_ext_in. intros i Hi.
    apply elem_of_seq in Hi. rewrite (Hsame i) by lia. reflexivity.
  - case_bool_decide as Ht.
    + rewrite filter_cons_True by assumption. reflexivity.
    + rewrite filter_cons_False by assumption. reflexivity.
Qed.

(** After [t] rows of [compute_statistics]: the log is one-to-one, [tp]
    counts the matched pairs with both sides accepted, [fn] the accepted
    rows without a match, and every matched prediction is of the class and
    not under the score threshold. *)
Lemma statistics_pass_inv t :
  let st := foldl (statistics_step iou pred_scores gt_flag pred_flag
                     iou_threshold score_threshold)
                  (mkPass (replicate (shape1 iou) false) [] 0 0 [])
                  (seq 0 t) in
  pass_inv (shape1 iou) t st
  /\ tp st = counted_tp gt_flag pred_flag (matched st)
  /\ fn st = counted_fn gt_flag t (matched st)
  /\ (forall i j, (i, j) ∈ matched st ->
        gt_flag !!! i <> Rejected /\ pred_flag !!! j <> Rejected
        /\ under_threshold pred_scores score_threshold !!! j = false).
Proof.
  induction t as [|t (IH & IHtp & IHfn & IHm)].
  - split; [apply pass_inv_init|]. split; [reflexivity|].
    split; [reflexivity|]. intros i j Hin. apply elem_of_nil in Hin.
    destruct Hin.
  - cbv zeta in *. rewrite seq_S, foldl_app. simpl.
    set (st := foldl _ _ (seq 0 t)) in *.
    pose proof (statistics_step_cases iou pred_scores gt_flag pred_flag
                  iou_threshold score_threshold st t) as Hst.
    simpl in Hst.
    assert (Hlow : forall i, i ∈ (matched st).*1 -> (i < t)%nat).
    { intros i Hi. apply list_elem_of_fmap in Hi as ([i' j'] & -> & Hin).
      destruct IH as (_ & _ & _ & Hb & _). apply (Hb _ _ Hin). }
    destruct Hst as [(Ea & Em & Etp & Efn)
                    |(j & Hj & Hfree & Hcls & Hund & Hg & Ea & Em & Efn & Etp)].
    + split; [eapply pass_inv_keep; eassumption|].
      rewrite Em. split; [congruence|]. split; [|assumption].
      rewrite Efn, IHfn, (counted_fn_snoc t (matched st) (matched st))
        by reflexivity.
      assert (Hnot : t ∉ (matched st).*1).
      { intros Hin. apply Hlow in Hin. lia. }
      case_bool_decide as Hacc.
      * rewrite bool_decide_eq_true_2 by (split; assumption). lia.
      * rewrite bool_decide_eq_false_2 by tauto. lia.
    + split; [eapply pass_inv_assign; eassumption|].
      rewrite Em. split; [|split].
      * rewrite Etp, IHtp. unfold counted_tp.
        rewrite filter_app, length_app. simpl.
        case_bool_decide as Hboth.
        -- rewrite filter_cons_True by exact Hboth. simpl. lia.
        -- rewrite filter_cons_False by exact Hboth. simpl. lia.
      * rewrite Efn, IHfn.
        rewrite (counted_fn_snoc t (matched st)).
        -- rewrite bool_decide_eq_false_2; [lia|].
           intros [_ Hnot]. apply Hnot. rewrite fmap_app.
           apply elem_of_app. right. simpl. left.
        -- intros i Hi. rewrite fmap_app, elem_of_app. simpl.
           rewrite list_elem_of_singleton. split; [|tauto].
           intros [?|?]; [assumption|lia].
      * intros i' j' Hin. apply elem_of_app in Hin as [Hin|Hin].
        -- apply (IHm _ _ Hin).
        -- apply list_elem_of_singleton in Hin. inversion Hin; subst.
           repeat split; assumption.
Qed.

Lemma count_fp_filter asg :
  count_fp iou pred_scores pred_flag score_threshold asg
  = length (filter (fun j => counts_as_fp pred_scores pred_flag
                               score_threshold asg j = true)
                   (seq 0 (shape1 iou))).
Proof. unfold count_fp. rewrite count_by_filter. reflexivity. Qed.

Lemma under_threshold_lookup j :
  (j < length pred_scores)%nat ->
  under_threshold pred_scores score_threshold !!! j
  = bool_decide (pred_scores !!! j < score_threshold)%Qc.
Proof.
  intros Hj. unfold under_threshold.
  apply (lookup_total_map (fun s => bool_decide (s < score_threshold)%Qc)
           pred_scores j (pred_scores !!! j)).
  apply list_lookup_lookup_total_lt. exact Hj.
Qed.

End StatisticsFacts.

Section MatchingClaims.
Variables (iou : Mat) (pred_scores : list Qc).
Variables (gt_flag pred_flag : list flag).
Variable iou_threshold : Q.
Variable score_threshold : Qc.

Lemma pass_inv_one_to_one n t st :
  pass_inv n t st ->
  (forall i1 i2 j, (i1, j) ∈ matched st -> (i2, j) ∈ matched st -> i1 = i2)
  /\ (forall i j1 j2, (i, j1) ∈ matched st -> (i, j2) ∈ matched st -> j1 = j2)
  /\ (forall j, assigned st !! j = Some true <-> exists i, (i, j) ∈ matched st).
Proof.
  intros (_ & Hd1 & Hd2 & _ & Ha). split; [|split].
  - intros i1 i2 j. apply NoDup_snd_functional. exact Hd2.
  - intros i j1 j2. apply NoDup_fst_functional. exact Hd1.
  - intros j. rewrite Ha, list_elem_of_fmap. split.
    + intros ([i j'] & E & Hin). simpl in E. subst. exists i. exact Hin.
    + intros (i & Hin). exists (i, j). split; [reflexivity|exact Hin].
Qed.

(** C7.  In the pass of [accumulate_scores] and in the pass of
    [compute_statistics], at any score threshold, the pairs (row,
    prediction) for which [assigned[det_idx] = True] is executed form a
    one-to-one relation: no prediction is taken by two rows, no row takes
    two predictions, and [assigned] marks exactly the predictions taken. *)
Theorem greedy_matching_is_one_to_one :
  let acc := accumulate_pass iou pred_scores gt_flag pred_flag
               iou_threshold in
  let sta := statistics_pass iou pred_scores gt_flag pred_flag iou_threshold
               score_threshold in
  (NoDup (matched acc).*1 /\ NoDup (matched acc).*2
   /\ (forall i1 i2 j,
         (i1, j) ∈ matched acc -> (i2, j) ∈ matched acc -> i1 = i2)
   /\ (forall i j1 j2,
         (i, j1) ∈ matched acc -> (i, j2) ∈ matched acc -> j1 = j2)
   /\ (forall j, assigned acc !! j = Some true
                 <-> exists i, (i, j) ∈ matched acc))
  /\ (NoDup (matched sta).*1 /\ NoDup (matched sta).*2
      /\ (forall i1 i2 j,
            (i1, j) ∈ matched sta -> (i2, j) ∈ matched sta -> i1 = i2)
      /\ (forall i j1 j2,
            (i, j1) ∈ matched sta -> (i, j2) ∈ matched sta -> j1 = j2)
      /\ (forall j, assigned sta !! j = Some true
                    <-> exists i, (i, j) ∈ matched sta)).
Proof.
  intros acc sta.
  pose proof (proj1 (accumulate_pass_inv iou pred_scores gt_flag pred_flag
                       iou_threshold (shape0 iou))) as Hacc.
  pose proof (proj1 (statistics_pass_inv iou pred_scores gt_flag pred_flag
                       iou_threshold score_threshold (shape0 iou))) as Hsta.
  fold acc in Hacc. fold sta in Hsta.
  split.
  - split; [apply Hacc|]. split; [apply Hacc|].
    apply (pass_inv_one_to_one _ _ _ Hacc).
  - split; [apply Hsta|]. split; [apply Hsta|].
    apply (pass_inv_one_to_one _ _ _ Hsta).
Qed.

Lemma counts_as_fp_iff st j :
  length pred_scores = shape1 iou ->
  pass_inv (shape1 iou) (shape0 iou) st ->
  (j < shape1 iou)%nat ->
  counts_as_fp pred_scores pred_flag score_threshold (assigned st) j = true
  <-> (j ∉ (matched st).*2) /\ pred_flag !!! j = Accepted
      /\ (score_threshold <= pred_scores !!! j)%Qc.
Proof.
  intros Hlen (Hl & _ & _ & _ & Ha) Hj. unfold counts_as_fp.
  rewrite under_threshold_lookup by lia.
  rewrite negb_true_iff, !orb_false_iff, !bool_decide_eq_false.
  rewrite <- Ha.
  rewrite (list_lookup_lookup_total_lt (assigned st) j) by lia.
  split.
  - intros (((Hasg & Hrej) & Hign) & Hund). split; [|split].
    + rewrite Hasg. congruence.
    + destruct (pred_flag !!! j); congruence.
    + apply Qcnot_lt_le. exact Hund.
  - intros (Hasg & Hacc & Hle). repeat split.
    + destruct (assigned st !!! j); congruence.
    + congruence.
    + congruence.
    + apply Qcle_not_lt. exact Hle.
Qed.

(** C6.  [compute_statistics] returns, at any score threshold: as false
    positives, the number of predictions that no row has taken, that are
    flagged accepted and whose score is at least the threshold, so that a
    prediction that is rejected, ignored, under the threshold or taken by a
    row is never one; as true positives, the number of matched pairs with
    both sides accepted; as false negatives, the number of accepted rows
    without a match.  A row matched to an ignored prediction is thus in
    neither count. *)
Theorem false_positives_are_free_accepted_confident :
  length pred_scores = shape1 iou ->
  let st := statistics_pass iou pred_scores gt_flag pred_flag iou_threshold
              score_threshold in
  compute_statistics iou pred_scores gt_flag pred_flag iou_threshold
                     score_threshold
  = (counted_tp gt_flag pred_flag (matched st),
     length (filter (fun j => (j ∉ (matched st).*2)
                              /\ pred_flag !!! j = Accepted
                              /\ (score_threshold <= pred_scores !!! j)%Qc)
                    (seq 0 (shape1 iou))),
     counted_fn gt_flag (shape0 iou) (matched st))
  /\ (forall j, (j < shape1 iou)%nat ->
        counts_as_fp pred_scores pred_flag score_threshold (assigned st) j
        = true
        <-> (forall i, (i, j) ∉ matched st) /\ pred_flag !!! j = Accepted
            /\ (score_threshold <= pred_scores !!! j)%Qc)
  /\ (forall i j, (i, j) ∈ matched st ->
        pred_flag !!! j = Ignored \/ gt_flag !!! i = Ignored ->
        ((i, j) ∉ filter (fun ij => gt_flag !!! ij.1 = Accepted
                                    /\ pred_flag !!! ij.2 = Accepted)
                         (matched st))
        /\ i ∉ filter (fun i => gt_flag !!! i = Accepted
                                /\ i ∉ (matched st).*1)
                      (seq 0 (shape0 iou))).
Proof.
  intros Hlen st.
  pose proof (statistics_pass_inv iou pred_scores gt_flag pred_flag
                iou_threshold score_threshold (shape0 iou))
    as (Hinv & Htp & Hfn & Hm).
  fold (statistics_pass iou pred_scores gt_flag pred_flag iou_threshold
          score_threshold) in Hinv, Htp, Hfn, Hm.
  fold st in Hinv, Htp, Hfn, Hm.
  split; [|split].
  - unfold compute_statistics. fold st. rewrite Htp, Hfn.
    rewrite count_fp_filter. do 2 f_equal.
    f_equal. apply filter_ext_in. intros j Hj. apply elem_of_seq in Hj.
    apply counts_as_fp_iff; [assumption|assumption|lia].
  - intros j Hj. rewrite (counts_as_fp_iff st j Hlen Hinv Hj).
    rewrite list_elem_of_fmap. split.
    + intros (Hno & ? & ?). split; [|split; assumption].
      intros i Hin. apply Hno. exists (i, j). split; [reflexivity|exact Hin].
    + intros (Hno & ? & ?). split; [|split; assumption].
      intros ([i j'] & E & Hin). simpl in E. subst. apply (Hno _ Hin).
  - intros i j Hin Hign. split.
    + rewrite list_elem_of_filter. simpl. intros [[Hg Hp] _].
      destruct Hign; congruence.
    + rewrite list_elem_of_filter. intros [[_ Hnot] _]. apply Hnot.
      apply list_elem_of_fmap. exists (i, j). split; [reflexivity|exact Hin].
Qed.

End MatchingClaims.

Lemma false_positives_are_free_accepted_confident_witness :
  compute_statistics crossed_iou crossed_scores crossed_gt_flag
                     crossed_pred_flag (1 # 2) (Q2Qc (1 # 2))
  = (0, 0, 1)%nat.
Proof.
  rewrite (proj1 (false_positives_are_free_accepted_confident
                    crossed_iou crossed_scores crossed_gt_flag
                    crossed_pred_flag (1 # 2) (Q2Qc (1 # 2)) eq_refl)).
  reflexivity.
Defined.

(** ** get_thresholds *)

Lemma Qn_nonneg k : 0 <= Qn k.
Proof.
  unfold Qn. change 0 with (inject_Z 0). rewrite <- Zle_Qle. lia.
Qed.

Lemma Qn_le a b : (a <= b)%nat -> Qn a <= Qn b.
Proof. intros Hab. unfold Qn. rewrite <- Zle_Qle. lia. Qed.

Lemma Qn_lt a b : (a < b)%nat -> Qn a < Qn b.
Proof. intros Hab. unfold Qn. rewrite <- Zlt_Qlt. lia. Qed.

Lemma Qn_lt_inv a b : Qn a < Qn b -> (a < b)%nat.
Proof. unfold Qn. rewrite <- Zlt_Qlt. lia. Qed.

Lemma Qn_S k : Qn (S k) == Qn k + 1.
Proof.
  unfold Qn. rewrite Nat2Z.inj_succ, <- Z.add_1_r, inject_Z_plus.
  reflexivity.
Qed.

Lemma Qn_add a b : Qn (a + b) == Qn a + Qn b.
Proof. unfold Qn. rewrite Nat2Z.inj_add, inject_Z_plus. reflexivity. Qed.

Lemma Qn_pos k : (1 <= k)%nat -> 0 < Qn k.
Proof. intros Hk. apply (Qn_lt 0 k). lia. Qed.

(** Enough turns: the ceiling that [while_turns] takes is at least the
    quotient it rounds. *)
Lemma while_turns_enough bound inc recall_level :
  0 < inc ->
  bound <= 2 * (recall_level + Qn (while_turns bound inc recall_level) * inc).
Proof.
  intros Hinc. unfold while_turns.
  set (x := (bound - 2 * recall_level) / (2 * inc)).
  assert (Hx : x <= Qn (Z.to_nat (Qceiling x))).
  { unfold Qn. pose proof (Qle_ceiling x) as Hc.
    destruct (Z.le_gt_cases 0 (Qceiling x)) as [Hpos|Hneg].
    - rewrite Z2Nat.id by assumption. exact Hc.
    - replace (Z.to_nat (Qceiling x)) with 0%nat by lia.
      eapply Qle_trans; [exact Hc|]. rewrite <- Zle_Qle. simpl. lia. }
  assert (Hm : x * (2 * inc) <= Qn (Z.to_nat (Qceiling x)) * (2 * inc)).
  { apply Qmult_le_compat_r; lra. }
  assert (Ex : x * (2 * inc) == bound - 2 * recall_level).
  { unfold x. field. lra. }
  lra.
Qed.

Lemma bump_eq t inc : forall recall_level,
  bump t inc recall_level == recall_level + Qn t * inc.
Proof.
  induction t as [|t IH]; intros rl.
  - simpl. unfold Qn. simpl. ring.
  - cbn [bump]. rewrite IH, Qn_S. ring.
Qed.

(** The [while] of lines 172-174 after any number of turns: it has appended
    [t] copies of the score, and it stopped either because its condition
    failed or because the turns ran out; if it turned at all, the condition
    held just before the last turn. *)
Lemma while_append_fuel fuel bound inc score : forall recall_level ths,
  exists t,
    (t <= fuel)%nat
    /\ while_append fuel bound inc score (recall_level, ths)
       = (bump t inc recall_level, ths ++ replicate t score)
    /\ (bound <= 2 * bump t inc recall_level \/ t = fuel)
    /\ (t = 0%nat \/ 2 * (bump t inc recall_level - inc) < bound).
Proof.
  induction fuel as [|fuel IH]; intros rl ths.
  - exists 0%nat. simpl. rewrite app_nil_r. repeat split; auto.
  - simpl. destruct (Qltb (2 * rl) bound) eqn:Ec.
    + destruct (IH (rl + inc) (ths ++ [score])) as (t & Ht & -> & Hex & Hlast).
      exists (S t). split; [lia|]. cbn [bump]. split.
      * f_equal. rewrite <- app_assoc. reflexivity.
      * split; [destruct Hex as [?| ->]; [left; assumption|right; reflexivity]|].
        right. destruct Hlast as [->|Hlast]; [|exact Hlast].
        simpl. apply Qltb_lt in Ec. lra.
    + exists 0%nat. simpl. rewrite app_nil_r. split; [lia|].
      split; [reflexivity|]. split; [|left; reflexivity].
      left. apply Qltb_ge in Ec. exact Ec.
Qed.

(** With the turns that [get_thresholds] allows, the loop stops because its
    condition fails. *)
Lemma while_append_exits bound inc score recall_level ths :
  0 < inc ->
  exists t,
    while_append (while_turns bound inc recall_level) bound inc score
                 (recall_level, ths)
    = (bump t inc recall_level, ths ++ replicate t score)
    /\ bound <= 2 * bump t inc recall_level
    /\ (t = 0%nat \/ 2 * (bump t inc recall_level - inc) < bound).
Proof.
  intros Hinc.
  destruct (while_append_fuel (while_turns bound inc recall_level) bound inc
              score recall_level ths) as (t & Ht & E & Hex & Hlast).
  exists t. split; [exact E|]. split; [|exact Hlast].
  destruct Hex as [Hex| ->]; [exact Hex|].
  rewrite bump_eq. apply while_turns_enough. exact Hinc.
Qed.

Section Thresholds.
Variables (num_gt num_pr_points len : nat).
Hypothesis num_gt_pos : (1 <= num_gt)%nat.
Hypothesis num_pr_points_pos : (1 <= num_pr_points)%nat.

Let inc : Q := 1 / Qn num_pr_points.

Lemma inc_pos : 0 < inc.
Proof.
  unfold inc. apply Qlt_shift_div_l; [apply Qn_pos; assumption|lra].
Qed.

(** One turn of the loop over the scores: either the score is skipped, or
    it is appended once and then [t] more times, until
    [bound <= 2 * recall_level]. *)
Lemma thresholds_step_spec recall_level ths i score :
  (thresholds_step num_gt num_pr_points len (recall_level, ths) (i, score)
   = Ok (recall_level, ths)
   /\ (i < len - 1)%nat
   /\ recall_sum num_gt len i < 2 * recall_level)
  \/ (exists t,
        thresholds_step num_gt num_pr_points len (recall_level, ths)
                        (i, score)
        = Ok (bump t inc (recall_level + inc),
              ths ++ score :: replicate t score)
        /\ ((i < len - 1)%nat -> 2 * recall_level <= recall_sum num_gt len i)
        /\ recall_sum num_gt len i + eps
           <= 2 * bump t inc (recall_level + inc)
        /\ (t = 0%nat
            \/ 2 * (bump t inc (recall_level + inc) - inc)
               < recall_sum num_gt len i + eps)).
Proof.
  unfold thresholds_step.
  destruct (num_gt =? 0)%nat eqn:Eg; [apply Nat.eqb_eq in Eg; lia|].
  simpl.
  fold (recall_sum num_gt len i).
  destruct (Qltb (recall_sum num_gt len i) (2 * recall_level)
            && (i <? len - 1)%nat) eqn:Eskip.
  - left. apply andb_true_iff in Eskip as [E1 E2].
    apply Qltb_lt in E1. apply Nat.ltb_lt in E2. auto.
  - right.
    destruct (num_pr_points =? 0)%nat eqn:En; [apply Nat.eqb_eq in En; lia|].
    simpl. fold inc.
    destruct (while_append_exits (recall_sum num_gt len i + eps) inc score
                (recall_level + inc) (ths ++ [score]) inc_pos)
      as (t & -> & Hex & Hlast).
    exists t. split.
    { rewrite <- app_assoc. reflexivity. }
    split; [|split; assumption].
    intros Hi. apply andb_false_iff in Eskip as [E1|E2].
    + apply Qltb_ge in E1. exact E1.
    + apply Nat.ltb_ge in E2. lia.
Qed.

End Thresholds.

Section ThresholdsArith.
Variables (num_gt len : nat).
Hypothesis num_gt_pos : (1 <= num_gt)%nat.

Let g : Q := / Qn num_gt.

Lemma g_pos : 0 < g.
Proof. apply Qinv_lt_0_compat. apply Qn_pos. assumption. Qed.

Lemma g_inv : Qn num_gt * g == 1.
Proof.
  apply Qmult_inv_r. pose proof (Qn_pos num_gt num_gt_pos). lra.
Qed.

Lemma recall_sum_inner i :
  (i + 2 <= len)%nat ->
  recall_sum num_gt len i == (2 * Qn i + 3) * g.
Proof.
  intros Hi. unfold recall_sum.
  destruct (i <? len - 1)%nat eqn:E; [|apply Nat.ltb_ge in E; lia].
  unfold Qdiv. fold g. rewrite !Qn_add.
  change (Qn 2) with 2. change (Qn 1) with 1. ring.
Qed.

Lemma recall_sum_last i :
  (i + 1 = len)%nat ->
  recall_sum num_gt len i == (2 * Qn i + 2) * g.
Proof.
  intros Hi. unfold recall_sum.
  destruct (i <? len - 1)%nat eqn:E; [apply Nat.ltb_lt in E; lia|].
  unfold Qdiv. fold g. rewrite !Qn_add. change (Qn 1) with 1. ring.
Qed.

Lemma recall_sum_inner_le i :
  (i + 2 <= len)%nat -> (len <= num_gt)%nat ->
  recall_sum num_gt len i <= 2 - g.
Proof.
  intros Hi Hlen. rewrite recall_sum_inner by assumption.
  assert (Hq : Qn i + 2 <= Qn num_gt).
  { change 2 with (Qn 2). rewrite <- Qn_add. apply Qn_le. lia. }
  assert (Hm : (2 * Qn i + 3) * g <= (2 * Qn num_gt - 1) * g).
  { apply Qmult_le_compat_r; [lra|]. pose proof g_pos. lra. }
  pose proof g_inv. lra.
Qed.

Lemma recall_sum_last_le i :
  (i + 1 = len)%nat -> (len <= num_gt)%nat ->
  recall_sum num_gt len i <= 2.
Proof.
  intros Hi Hlen. rewrite recall_sum_last by assumption.
  assert (Hq : Qn i + 1 <= Qn num_gt).
  { change 1 with (Qn 1). rewrite <- Qn_add. apply Qn_le. lia. }
  assert (Hm : (2 * Qn i + 2) * g <= (2 * Qn num_gt) * g).
  { apply Qmult_le_compat_r; [lra|]. pose proof g_pos. lra. }
  pose proof g_inv. lra.
Qed.

End ThresholdsArith.

Section ThresholdsBound.
Variables (num_gt num_pr_points len : nat).
Hypothesis num_pr_points_pos : (1 <= num_pr_points)%nat.
Hypothesis num_pr_points_max : (num_pr_points <= pr_points_max)%nat.
Hypothesis len_le : (len <= num_gt)%nat.

Local Abbreviation u := (1 / Qn num_pr_points).

Lemma u_inv : Qn num_pr_points * u == 1.
Proof.
  field. pose proof (Qn_pos _ num_pr_points_pos). lra.
Qed.

Lemma u_min : 1 <= 666666 * u.
Proof.
  pose proof (inc_pos num_pr_points num_pr_points_pos) as Hu.
  assert (Hq : Qn num_pr_points <= 666666).
  { apply Qn_le in num_pr_points_max. unfold pr_points_max, Qn in *.
    rewrite Z2Nat.id in num_pr_points_max by lia. exact num_pr_points_max. }
  assert (Hm : Qn num_pr_points * u <= 666666 * u).
  { apply Qmult_le_compat_r; lra. }
  pose proof u_inv. lra.
Qed.

Lemma Qn_mul_u_le a b : (a <= b)%nat -> Qn a * u <= Qn b * u.
Proof.
  intros Hab. pose proof (inc_pos num_pr_points num_pr_points_pos) as Hu.
  apply Qmult_le_compat_r; [apply Qn_le; assumption|lra].
Qed.

Lemma thresholds_inv_step t recall_level ths score :
  (t < len)%nat ->
  thresholds_inv num_gt num_pr_points len t (recall_level, ths) ->
  exists recall_level' k,
    thresholds_step num_gt num_pr_points len (recall_level, ths) (t, score)
    = Ok (recall_level', ths ++ replicate k score)
    /\ thresholds_inv num_gt num_pr_points len (S t)
         (recall_level', ths ++ replicate k score).
Proof.
  intros Ht (I1 & IA & IN & IB). simpl in I1, IA, IN, IB.
  assert (HG : (1 <= num_gt)%nat) by lia.
  pose proof (inc_pos num_pr_points num_pr_points_pos) as Hu.
  pose proof u_inv as Hui. pose proof u_min as Hum.
  pose proof Qn_mul_u_le as Hmul.
  pose proof (g_pos num_gt HG) as Hg. pose proof (g_inv num_gt HG) as Hgi.
  specialize (IA Ht).
  destruct (thresholds_step_spec num_gt num_pr_points len HG
              num_pr_points_pos recall_level ths t score)
    as [(E & Hi & Hskip)|(k & E & Hns & Hex & Hlast)].
  - (* the score is skipped *)
    exists recall_level, 0%nat. simpl. rewrite app_nil_r.
    split; [exact E|]. unfold thresholds_inv. simpl.
    split; [exact I1|]. split; [intros _; exact IA|]. split; [exact IN|].
    intros i Ei _. inversion Ei; subst i. exact Hskip.
  - (* the score is appended once, then [k] more times *)
    exists (bump k u (recall_level + u)), (S k). simpl.
    split; [exact E|]. unfold thresholds_inv. simpl.
    rewrite length_app. simpl. rewrite length_replicate.
    clear E.
    remember (1 / Qn num_pr_points) as v eqn:Ev.
    set (n0 := length ths) in *.
    assert (E1 : bump k v (recall_level + v) == Qn (n0 + S k) * v).
    { rewrite bump_eq, I1, Qn_add, Qn_S. ring. }
    assert (Eprev : bump k v (recall_level + v) - v == Qn (n0 + k) * v).
    { rewrite E1, !Qn_add, Qn_S. ring. }
    assert (HB : (S t < len)%nat ->
                 recall_sum num_gt len t < 2 * bump k v (recall_level + v)).
    { intros _. unfold eps in Hex. lra. }
    assert (HA : (S t < len)%nat -> (n0 + S k <= num_pr_points)%nat).
    { intros Hlt.
      pose proof (recall_sum_inner_le num_gt len HG t ltac:(lia) len_le)
        as Hc.
      specialize (Hns ltac:(lia)).
      assert (Hn0 : (n0 < num_pr_points)%nat).
      { destruct (le_gt_dec num_pr_points n0) as [Hge|]; [|lia].
        pose proof (Hmul _ _ Hge). lra. }
      destruct Hlast as [->|Hlast]; [lia|].
      destruct (le_gt_dec (n0 + S k) num_pr_points) as [|Hgt]; [assumption|].
      exfalso.
      pose proof (Hmul num_pr_points (n0 + k)%nat ltac:(lia)) as Hbig.
      pose proof (Hmul n0 (num_pr_points - 1)%nat ltac:(lia)) as Hsmall.
      assert (Epred : Qn (num_pr_points - 1) * v == 1 - v).
      { assert (Es : Qn num_pr_points == Qn (num_pr_points - 1) + 1).
        { rewrite <- Qn_S. replace (S (num_pr_points - 1)) with num_pr_points
            by lia. reflexivity. }
        assert (Em : Qn num_pr_points * v
                     == (Qn (num_pr_points - 1) + 1) * v).
        { rewrite <- Es. reflexivity. }
        lra. }
      unfold eps in *.
      destruct t as [|t'].
      - rewrite (recall_sum_inner num_gt len HG 0 ltac:(lia)) in *.
        change (Qn 0) with 0 in *.
        assert (H2 : 2 * / Qn num_gt <= Qn num_gt * / Qn num_gt).
        { apply Qmult_le_compat_r; [|lra].
          change 2 with (Qn 2). apply Qn_le. lia. }
        lra.
      - specialize (IB t' eq_refl Ht).
        rewrite (recall_sum_inner num_gt len HG t' ltac:(lia)) in IB.
        rewrite (recall_sum_inner num_gt len HG (S t') ltac:(lia)) in *.
        rewrite Qn_S in *. lra. }
    split; [exact E1|]. split; [exact HA|]. split.
    + destruct (le_gt_dec len (S t)) as [Hlast'|Hin];
        [|specialize (HA Hin); lia].
      pose proof (recall_sum_last_le num_gt len HG t ltac:(lia) len_le) as Hc.
      destruct Hlast as [->|Hlast]; [lia|].
      destruct (le_gt_dec (n0 + S k) (num_pr_points + 1)) as [|Hgt];
        [assumption|].
      exfalso.
      pose proof (Hmul (num_pr_points + 1)%nat (n0 + k)%nat ltac:(lia)) as Hbig.
      rewrite Qn_add in Hbig. change (Qn 1) with 1 in Hbig.
      unfold eps in *. lra.
    + intros i Ei Hlt. inversion Ei; subst i. apply HB. exact Hlt.
Qed.

End ThresholdsBound.

Lemma zip_seq_lookup {A} (l : list A) t x :
  l !! t = Some x -> zip (seq 0 (length l)) l !! t = Some (t, x).
Proof.
  intros Hx. apply lookup_zip_Some. split; [|exact Hx].
  apply lookup_seq_lt. eapply lookup_lt_Some. eassumption.
Qed.

(** The loop of [get_thresholds] over a list of scores, of which there are
    no more than [num_gt], raises nothing and keeps [thresholds_inv]. *)
Lemma thresholds_loop num_gt num_pr_points (sc : list Qc) t :
  (1 <= num_pr_points)%nat -> (num_pr_points <= pr_points_max)%nat ->
  (length sc <= num_gt)%nat -> (t <= length sc)%nat ->
  exists st,
    foldlM (thresholds_step num_gt num_pr_points (length sc)) (0, [])
           (take t (zip (seq 0 (length sc)) sc))
    = Ok st
    /\ thresholds_inv num_gt num_pr_points (length sc) t st.
Proof.
  intros Hn Hmax Hlen. induction t as [|t IH]; intros Ht.
  - exists (0, []). split; [reflexivity|]. unfold thresholds_inv. simpl.
    split; [change (Qn 0) with 0; ring|]. split; [lia|]. split; [lia|].
    intros i Ei. discriminate Ei.
  - destruct (IH ltac:(lia)) as ([rl ths] & E & Hinv).
    destruct (lookup_lt_is_Some_2 sc t ltac:(lia)) as [x Hx].
    rewrite (take_S_r _ _ _ (zip_seq_lookup sc t x Hx)).
    rewrite (foldlM_snoc _ _ _ _ _ E).
    destruct (thresholds_inv_step num_gt num_pr_points (length sc) Hn Hmax
                Hlen t rl ths x ltac:(lia) Hinv) as (rl' & k & E' & Hinv').
    eexists. split; [exact E'|exact Hinv'].
Qed.

Lemma get_thresholds_nil num_gt num_pr_points :
  get_thresholds [] num_gt num_pr_points = Ok [].
Proof. reflexivity. Qed.

Lemma get_thresholds_length_le scores num_gt num_pr_points :
  (length scores <= num_gt)%nat ->
  (1 <= num_pr_points)%nat -> (num_pr_points <= pr_points_max)%nat ->
  exists thresholds,
    get_thresholds scores num_gt num_pr_points = Ok thresholds
    /\ (length thresholds <= num_pr_points + 1)%nat.
Proof.
  intros Hlen Hn Hmax. unfold get_thresholds.
  set (sc := reverse (merge_sort Qcle scores)).
  assert (Hsc : length sc = length scores).
  { unfold sc. rewrite length_reverse.
    apply Permutation_length, merge_sort_Permutation. }
  destruct (thresholds_loop num_gt num_pr_points sc (length sc) Hn Hmax
              ltac:(lia) ltac:(lia)) as ([rl ths] & E & Hinv).
  rewrite take_ge in E by (rewrite length_zip, length_seq; lia).
  rewrite E. simpl. exists ths. split; [reflexivity|].
  destruct Hinv as (_ & _ & Hle & _). exact Hle.
Qed.

Lemma write_ok {A} (l : list A) i v :
  (i < length l)%nat -> write l i v = Ok (<[i := v]> l).
Proof. intros Hi. unfold write. rewrite decide_True by exact Hi. reflexivity. Qed.


(** ** The precision/recall envelope *)

Lemma geb_fin a b : Flt.geb (Fin a) (Fin b) = true <-> b <= a.
Proof.
  unfold Flt.geb, Flt.gtb. rewrite negb_true_iff. apply Qltb_ge.
Qed.

Lemma max_fin a b :
  Flt.max (Fin a) (Fin b) = if Qltb a b then Fin b else Fin a.
Proof. reflexivity. Qed.

Lemma raw_quotient_nonneg tp d :
  (0 < tp + d)%nat -> fin_nonneg (Flt.div (Qn tp) (Qn tp + Qn d)).
Proof.
  intros Hd.
  assert (Hq : 0 < Qn tp + Qn d).
  { rewrite <- Qn_add. apply Qn_pos. lia. }
  rewrite div_finite by lra.
  eexists. split; [reflexivity|].
  apply Qle_shift_div_l; [exact Hq|]. pose proof (Qn_nonneg tp). lra.
Qed.

Lemma raw_nonneg row :
  row_defined row ->
  fin_nonneg (raw_precision row) /\ fin_nonneg (raw_recall row).
Proof.
  destruct row as [[tp fp] fn]. intros [Hp Hr]. split.
  - apply raw_quotient_nonneg. exact Hp.
  - apply raw_quotient_nonneg. exact Hr.
Qed.

(** The running maximum of finite values is one of them and dominates
    them. *)
Lemma foldl_max_fin l : forall a,
  fin_nonneg a -> Forall fin_nonneg l ->
  fin_nonneg (foldl Flt.max a l)
  /\ foldl Flt.max a l ∈ a :: l
  /\ (forall x, x ∈ a :: l -> Flt.geb (foldl Flt.max a l) x = true).
Proof.
  induction l as [|b l IH]; intros a Ha Hl.
  - simpl. split; [exact Ha|]. split; [left|].
    intros x Hx. apply list_elem_of_singleton in Hx. subst x.
    destruct Ha as (q & -> & _). apply geb_fin. lra.
  - inversion Hl as [|? ? Hb Hl']; subst. simpl.
    destruct Ha as (qa & -> & Hqa). destruct Hb as (qb & -> & Hqb).
    rewrite max_fin. destruct (Qltb qa qb) eqn:E.
    + apply Qltb_lt in E.
      destruct (IH (Fin qb) ltac:(eexists; eauto) Hl') as (Hf & Hin & Hge).
      split; [exact Hf|]. split.
      * right. exact Hin.
      * intros x Hx. apply elem_of_cons in Hx as [->|Hx]; [|apply Hge, Hx].
        destruct Hf as (q & Eq & _). rewrite Eq.
        specialize (Hge (Fin qb) ltac:(left)). rewrite Eq in Hge.
        apply geb_fin in Hge. apply geb_fin. lra.
    + apply Qltb_ge in E.
      destruct (IH (Fin qa) ltac:(eexists; eauto) Hl') as (Hf & Hin & Hge).
      split; [exact Hf|]. split.
      * apply elem_of_cons in Hin as [->|Hin]; [left|right; right; exact Hin].
      * intros x Hx. apply elem_of_cons in Hx as [->|Hx];
          [apply Hge; left|].
        apply elem_of_cons in Hx as [->|Hx]; [|apply Hge; right; exact Hx].
        destruct Hf as (q & Eq & _). rewrite Eq.
        specialize (Hge (Fin qa) ltac:(left)). rewrite Eq in Hge.
        apply geb_fin in Hge. apply geb_fin. lra.
Qed.

(** Zeros after finite values that are not negative never win. *)
Lemma foldl_max_zeros k : forall a,
  fin_nonneg a -> foldl Flt.max a (replicate k Flt.zero) = a.
Proof.
  induction k as [|k IH]; intros a Ha; [reflexivity|].
  simpl. destruct Ha as (q & -> & Hq).
  unfold Flt.zero at 1. rewrite max_fin.
  rewrite (proj2 (Qltb_ge q 0) Hq). apply IH. eexists; eauto.
Qed.

Lemma suffix_max_padding l k :
  l <> [] -> Forall fin_nonneg l ->
  suffix_max (l ++ replicate k Flt.zero) = suffix_max l.
Proof.
  intros Hne Hl. destruct l as [|a l]; [congruence|].
  inversion Hl as [|? ? Ha Hl']; subst.
  unfold suffix_max. simpl. rewrite foldl_app.
  apply foldl_max_zeros. apply (foldl_max_fin l a Ha Hl').
Qed.

Lemma suffix_max_is_max l :
  l <> [] -> Forall fin_nonneg l ->
  fin_nonneg (suffix_max l) /\ is_max_of (suffix_max l) l.
Proof.
  intros Hne Hl. destruct l as [|a l]; [congruence|].
  inversion Hl as [|? ? Ha Hl']; subst.
  unfold suffix_max, is_max_of. simpl.
  destruct (foldl_max_fin l a Ha Hl') as (Hf & Hin & Hge). auto.
Qed.

Lemma suffix_max_cons a l :
  l <> [] -> Forall fin_nonneg (a :: l) ->
  Flt.geb (suffix_max (a :: l)) (suffix_max l) = true.
Proof.
  intros Hne Hl. inversion Hl as [|? ? Ha Hl']; subst.
  destruct (suffix_max_is_max l Hne Hl') as (_ & Hin & _).
  destruct (suffix_max_is_max (a :: l) ltac:(discriminate) Hl)
    as (_ & _ & Hge).
  apply Hge. right. exact Hin.
Qed.

Ltac solve_length :=
  repeat (rewrite ?length_app, ?length_map, ?length_take, ?length_drop,
            ?length_seq, ?length_replicate, ?length_insert; simpl);
  lia.

Lemma np_max_suffix (l : list flt) :
  l <> [] -> np_max l = Ok (suffix_max l).
Proof. destruct l; [congruence|reflexivity]. Qed.

Lemma insert_at_boundary {A} (l1 l2 : list A) t x v :
  length l1 = t -> <[t := v]> (l1 ++ x :: l2) = (l1 ++ [v]) ++ l2.
Proof.
  intros <-. rewrite insert_app_r_alt by lia. rewrite Nat.sub_diag. simpl.
  rewrite <- app_assoc. reflexivity.
Qed.

Lemma drop_at_boundary {A} (l1 l2 : list A) t :
  length l1 = t -> drop t (l1 ++ l2) = l2.
Proof. intros <-. apply drop_app_length. Qed.

(** After [t] turns of lines 106-110 the first [t] slots hold the raw
    quotients and the other slots still hold zero. *)
Lemma draw_pr_curve_steps cm k t :
  (t <= length cm)%nat ->
  foldlM (draw_pr_curve_step cm)
         (replicate (length cm + k) Flt.zero,
          replicate (length cm + k) Flt.zero) (seq 0 t)
  = Ok (map raw_precision (take t cm)
          ++ replicate (length cm + k - t) Flt.zero,
        map raw_recall (take t cm)
          ++ replicate (length cm + k - t) Flt.zero).
Proof.
  induction t as [|t IH]; intros Ht.
  - simpl. rewrite Nat.sub_0_r. reflexivity.
  - rewrite seq_S, (foldlM_snoc _ _ _ _ _ (IH ltac:(lia))).
    destruct (lookup_lt_is_Some_2 cm t ltac:(lia)) as [row Hrow].
    simpl. rewrite (list_lookup_total_correct _ _ _ Hrow).
    rewrite (take_S_r _ _ _ Hrow), !map_app. simpl.
    replace (length cm + k - t)%nat with (S (length cm + k - S t)) by lia.
    simpl.
    assert (Lp : length (map raw_precision (take t cm)) = t).
    { rewrite length_map, length_take. lia. }
    assert (Lr : length (map raw_recall (take t cm)) = t).
    { rewrite length_map, length_take. lia. }
    destruct row as [[tp fp] fn]. simpl.
    rewrite write_ok by solve_length. simpl.
    rewrite write_ok by solve_length. simpl.
    rewrite (insert_at_boundary _ _ _ _ _ Lp).
    rewrite (insert_at_boundary _ _ _ _ _ Lr).
    reflexivity.
Qed.

(** After [t] turns of lines 112-116 the first [t] slots hold the maximum
    of the raw values from their own index on, and the other slots are
    untouched. *)
Lemma envelope_steps raw_p raw_r t :
  (t <= length raw_p)%nat -> (t <= length raw_r)%nat ->
  foldlM envelope_step (raw_p, raw_r) (seq 0 t)
  = Ok (map (fun i => suffix_max (drop i raw_p)) (seq 0 t) ++ drop t raw_p,
        map (fun i => suffix_max (drop i raw_r)) (seq 0 t) ++ drop t raw_r).
Proof.
  induction t as [|t IH]; intros Hp Hr; [reflexivity|].
  rewrite seq_S, (foldlM_snoc _ _ _ _ _ (IH ltac:(lia) ltac:(lia))).
  destruct (lookup_lt_is_Some_2 raw_p t ltac:(lia)) as [x Hx].
  destruct (lookup_lt_is_Some_2 raw_r t ltac:(lia)) as [y Hy].
  assert (Lp : length (map (fun i => suffix_max (drop i raw_p)) (seq 0 t))
               = t) by (rewrite length_map, length_seq; reflexivity).
  assert (Lr : length (map (fun i => suffix_max (drop i raw_r)) (seq 0 t))
               = t) by (rewrite length_map, length_seq; reflexivity).
  unfold envelope_step. change (0 + t)%nat with t.
  rewrite !map_app. simpl.
  rewrite (drop_S _ _ _ Hx), (drop_S _ _ _ Hy).
  rewrite (drop_at_boundary _ _ _ Lp). simpl.
  rewrite write_ok by solve_length. simpl.
  rewrite (drop_at_boundary _ _ _ Lr). simpl.
  rewrite write_ok by solve_length. simpl.
  rewrite (insert_at_boundary _ _ _ _ _ Lp).
  rewrite (insert_at_boundary _ _ _ _ _ Lr).
  reflexivity.
Qed.

Section Envelope.
Variables (cm : list (nat * nat * nat)) (k : nat).
Hypothesis cm_defined : Forall row_defined cm.

Lemma raw_precision_nonneg : Forall fin_nonneg (map raw_precision cm).
Proof.
  rewrite map_fmap. apply Forall_fmap.
  eapply Forall_impl; [exact cm_defined|]. intros row Hrow.
  apply (raw_nonneg row Hrow).
Qed.

Lemma raw_recall_nonneg : Forall fin_nonneg (map raw_recall cm).
Proof.
  rewrite map_fmap. apply Forall_fmap.
  eapply Forall_impl; [exact cm_defined|]. intros row Hrow.
  apply (raw_nonneg row Hrow).
Qed.

(** The vector that lines 112-116 leave, for [L] raw values [raw] followed
    by [k] zeros. *)
Lemma envelope_lookup_inner (raw : list flt) L i :
  length raw = L -> Forall fin_nonneg raw -> (i < L)%nat ->
  (map (fun i => suffix_max (drop i (raw ++ replicate k Flt.zero)))
       (seq 0 L)
   ++ drop L (raw ++ replicate k Flt.zero)) !!! i
  = suffix_max (drop i raw).
Proof.
  intros <- Hraw Hi.
  rewrite lookup_total_app_l by solve_length.
  rewrite (lookup_total_map _ _ i i) by (apply lookup_seq_lt; exact Hi).
  rewrite drop_app_le by lia.
  apply suffix_max_padding.
  - intros E. apply (f_equal length) in E. rewrite length_drop in E.
    simpl in E. lia.
  - apply Forall_drop. exact Hraw.
Qed.

Lemma envelope_lookup_outer (raw : list flt) L i :
  length raw = L -> (L <= i)%nat -> (i < L + k)%nat ->
  (map (fun i => suffix_max (drop i (raw ++ replicate k Flt.zero)))
       (seq 0 L)
   ++ drop L (raw ++ replicate k Flt.zero)) !!! i
  = Flt.zero.
Proof.
  intros <- Hlo Hhi.
  rewrite lookup_total_app_r by solve_length.
  rewrite drop_app_length, length_map, length_seq.
  apply list_lookup_total_correct. apply lookup_replicate.
  split; [reflexivity|lia].
Qed.

Lemma envelope_non_increasing (raw : list flt) L :
  length raw = L -> Forall fin_nonneg raw ->
  non_increasing
    (map (fun i => suffix_max (drop i (raw ++ replicate k Flt.zero)))
         (seq 0 L)
     ++ drop L (raw ++ replicate k Flt.zero)).
Proof.
  intros EL Hraw i Hi.
  assert (Hi' : (S i < L + k)%nat).
  { subst L. rewrite length_app, length_map, length_seq, drop_app_length,
      length_replicate in Hi. exact Hi. }
  destruct (le_gt_dec L i) as [Hout|Hin].
  - rewrite !(envelope_lookup_outer raw L) by (assumption || lia).
    reflexivity.
  - rewrite (envelope_lookup_inner raw L i) by assumption.
    destruct (lookup_lt_is_Some_2 raw i ltac:(lia)) as [x Hx].
    rewrite (drop_S _ _ _ Hx).
    destruct (le_gt_dec L (S i)) as [Hlast|Hnext].
    + rewrite (envelope_lookup_outer raw L) by (assumption || lia).
      assert (Hf : Forall fin_nonneg (x :: drop (S i) raw)).
      { rewrite <- (drop_S _ _ _ Hx). apply Forall_drop. exact Hraw. }
      destruct (suffix_max_is_max (x :: drop (S i) raw)
                  ltac:(discriminate) Hf) as ((q & -> & Hq) & _).
      apply geb_fin. exact Hq.
    + rewrite (envelope_lookup_inner raw L (S i)) by assumption.
      apply suffix_max_cons.
      * intros E. apply (f_equal length) in E. rewrite length_drop in E.
        simpl in E. lia.
      * rewrite <- (drop_S _ _ _ Hx). apply Forall_drop. exact Hraw.
Qed.

End Envelope.

(** C3 fails as it stands: for pedestrians between 0 and 30 m, the sample
    [straddle_gt], [straddle_pred] gives 0/0 for the raw precision at every
    threshold, [np.max] keeps the NaN, and a vector of NaN is not
    non-increasing. *)
Lemma nan_rows_are_not_monotone :
  exists ious precision recall,
    @compute_iou3d Reference.externals [straddle_gt] [straddle_pred]
                   [1%nat] true = Ok ious
    /\ @class_difficulty_rows Reference.externals [straddle_gt]
         [straddle_pred] ious "Distance" false 4 "Pedestrian" (3 # 10) 0
       = Ok (precision, recall)
    /\ precision = [NaN; NaN; NaN; NaN; NaN]
    /\ ~ non_increasing precision /\ ~ non_increasing recall.
Proof.
  eexists _, _, _. split; [vm_compute; reflexivity|].
  split; [vm_compute; reflexivity|]. split; [reflexivity|].
  split; intros Hmono; specialize (Hmono 0%nat ltac:(simpl; lia));
    vm_compute in Hmono; discriminate Hmono.
Qed.

(** C3, amended: when no selected threshold has an empty denominator
    (tp + fp > 0 and tp + fn > 0), lines 106-116 raise nothing, each
    precision and each recall value below the number of thresholds is,
    after the envelope step, the maximum of the raw values at its own and
    all later threshold indices, and both vectors are non-increasing over
    all the [num_pr_points + 1] indices. *)
Theorem envelope_is_suffix_maximum
    (cm : list (nat * nat * nat)) (num_pr_points : nat) :
  Forall row_defined cm ->
  (length cm <= num_pr_points + 1)%nat ->
  let zeros := replicate (num_pr_points + 1) Flt.zero in
  exists raw env,
    draw_pr_curve cm (zeros, zeros) = Ok raw
    /\ envelope (length cm) raw = Ok env
    /\ (forall th_idx, (th_idx < length cm)%nat ->
          raw.1 !!! th_idx = raw_precision (cm !!! th_idx)
          /\ raw.2 !!! th_idx = raw_recall (cm !!! th_idx)
          /\ is_max_of (env.1 !!! th_idx)
                       (drop th_idx (map raw_precision cm))
          /\ is_max_of (env.2 !!! th_idx)
                       (drop th_idx (map raw_recall cm)))
    /\ length env.1 = (num_pr_points + 1)%nat
    /\ length env.2 = (num_pr_points + 1)%nat
    /\ non_increasing env.1 /\ non_increasing env.2.
Proof.
  intros Hdef Hlen zeros.
  set (k := (num_pr_points + 1 - length cm)%nat).
  assert (Ek : (num_pr_points + 1 = length cm + k)%nat) by (unfold k; lia).
  unfold zeros. rewrite Ek.
  pose proof (raw_precision_nonneg cm Hdef) as Hp.
  pose proof (raw_recall_nonneg cm Hdef) as Hr.
  assert (Lp : length (map raw_precision cm) = length cm)
    by apply length_map.
  assert (Lr : length (map raw_recall cm) = length cm) by apply length_map.
  eexists. eexists. split.
  { unfold draw_pr_curve. rewrite (draw_pr_curve_steps cm k (length cm))
      by lia. rewrite firstn_all, Nat.add_sub'. reflexivity. }
  split.
  { unfold envelope. rewrite envelope_steps by solve_length. reflexivity. }
  simpl. split.
  { intros i Hi.
    destruct (lookup_lt_is_Some_2 cm i Hi) as [row Hrow].
    rewrite (list_lookup_total_correct _ _ _ Hrow).
    rewrite (envelope_lookup_inner k (map raw_precision cm) (length cm) i)
      by assumption.
    rewrite (envelope_lookup_inner k (map raw_recall cm) (length cm) i)
      by assumption.
    rewrite !lookup_total_app_l by solve_length.
    rewrite !(lookup_total_map _ _ _ _ Hrow).
    split; [reflexivity|]. split; [reflexivity|].
    split.
    - apply suffix_max_is_max; [|apply Forall_drop; exact Hp].
      intros E. apply (f_equal length) in E.
      rewrite length_drop, length_map in E. simpl in E. lia.
    - apply suffix_max_is_max; [|apply Forall_drop; exact Hr].
      intros E. apply (f_equal length) in E.
      rewrite length_drop, length_map in E. simpl in E. lia. }
  split; [solve_length|]. split; [solve_length|].
  split; apply envelope_non_increasing; assumption.
Qed.

Lemma envelope_is_suffix_maximum_witness :
  exists raw env,
    draw_pr_curve [(2, 1, 1); (1, 0, 2)]%nat
                  (replicate 4 Flt.zero, replicate 4 Flt.zero) = Ok raw
    /\ envelope 2 raw = Ok env
    /\ non_increasing env.1 /\ non_increasing env.2.
Proof.
  destruct (envelope_is_suffix_maximum [(2, 1, 1); (1, 0, 2)]%nat 3)
    as (raw & env & E1 & E2 & _ & _ & _ & M1 & M2).
  - repeat constructor.
  - simpl. lia.
  - exists raw, env. repeat split; assumption.
Defined.



(** ** One class and one difficulty, sample by sample *)

Lemma res_mapM_app {A B} (f : A -> res B) l1 l2 :
  res_mapM f (l1 ++ l2)
  = (a ← res_mapM f l1; b ← res_mapM f l2; Ok (a ++ b)).
Proof.
  induction l1 as [|x l1 IH]; simpl.
  - destruct (res_mapM f l2); reflexivity.
  - destruct (f x) as [y|e]; simpl; [|reflexivity].
    rewrite IH. destruct (res_mapM f l1) as [ys|e]; simpl; [|reflexivity].
    destruct (res_mapM f l2); reflexivity.
Qed.

Lemma res_mapM_snoc_check {A B C} (f : A -> res B) l x (k : res C) :
  (_ ← res_mapM f (l ++ [x]); k)
  = (_ ← res_mapM f l; _ ← f x; k).
Proof.
  rewrite res_mapM_app. destruct (res_mapM f l) as [ys|e]; simpl;
    [|reflexivity].
  destruct (f x); reflexivity.
Qed.

Lemma samples_of_lookup gt_annos pred_annos ious t g p m :
  gt_annos !! t = Some g -> pred_annos !! t = Some p -> ious !! t = Some m ->
  samples_of gt_annos pred_annos ious !! t = Some (g, p, m).
Proof.
  intros Hg Hp Hm. unfold samples_of.
  apply lookup_zip_Some. split; [|exact Hm].
  apply lookup_zip_Some. split; assumption.
Qed.

Lemma samples_of_length gt_annos pred_annos ious :
  length gt_annos = length pred_annos -> length gt_annos = length ious ->
  length (samples_of gt_annos pred_annos ious) = length gt_annos.
Proof.
  intros Hp Hi. unfold samples_of. rewrite !length_zip_with. lia.
Qed.

Section BlockFacts.
Context `{Externals}.
Variables (gt_annos pred_annos : list Anno) (ious : list Mat).
Variables (difficulty_mode : string) (use_superclass : bool).
Variable num_pr_points : nat.
Variables (cur_class : string) (iou_threshold : Q) (diff_idx : nat).
Hypothesis pred_length : length gt_annos = length pred_annos.
Hypothesis ious_length : length gt_annos = length ious.

Let l : list sample := samples_of gt_annos pred_annos ious.
Let filter_of : sample -> res (list flag * list flag) :=
  sample_filter difficulty_mode use_superclass cur_class diff_idx.
Let G : list sample -> gathered :=
  gathered_of difficulty_mode use_superclass cur_class iou_threshold diff_idx.

Lemma sample_at t :
  (t < length gt_annos)%nat ->
  exists g p m,
    gt_annos !! t = Some g /\ pred_annos !! t = Some p /\ ious !! t = Some m
    /\ l !! t = Some (g, p, m).
Proof.
  intros Ht.
  destruct (lookup_lt_is_Some_2 gt_annos t Ht) as [g Hg].
  destruct (lookup_lt_is_Some_2 pred_annos t ltac:(lia)) as [p Hp].
  destruct (lookup_lt_is_Some_2 ious t ltac:(lia)) as [m Hm].
  exists g, p, m. repeat split; try assumption.
  apply samples_of_lookup; assumption.
Qed.

Lemma gathered_of_snoc l0 s :
  filter_of s = Ok (sample_flags difficulty_mode use_superclass cur_class
                      diff_idx s) ->
  G (l0 ++ [s])
  = mkGathered
      (accum_all_scores (G l0)
       ++ [accumulate_scores s.2 (score s.1.2)
             (sample_flags difficulty_mode use_superclass cur_class
                diff_idx s).1
             (sample_flags difficulty_mode use_superclass cur_class
                diff_idx s).2 iou_threshold])
      (gt_flags (G l0)
       ++ [(sample_flags difficulty_mode use_superclass cur_class
              diff_idx s).1])
      (pred_flags (G l0)
       ++ [(sample_flags difficulty_mode use_superclass cur_class
              diff_idx s).2])
      (num_valid_gt (G l0)
       + count_accepted
           (sample_flags difficulty_mode use_superclass cur_class
              diff_idx s).1).
Proof.
  intros _. unfold G, gathered_of. simpl.
  rewrite !map_app, sum_list_with_app. simpl.
  unfold sample_valid, sample_scores. f_equal. lia.
Qed.

(** The first loop over the samples, after [t] turns. *)
Lemma gather_steps t :
  (t <= length gt_annos)%nat ->
  foldlM (gather_step gt_annos pred_annos ious difficulty_mode
            use_superclass cur_class iou_threshold diff_idx)
         (mkGathered [] [] [] 0) (seq 0 t)
  = (_ ← res_mapM filter_of (take t l); Ok (G (take t l))).
Proof.
  induction t as [|t IH]; intros Ht; [reflexivity|].
  rewrite seq_S, foldlM_app, (IH ltac:(lia)).
  destruct (sample_at t ltac:(lia)) as (g & p & m & Hg & Hp & Hm & Hs).
  rewrite (take_S_r l t (g, p, m) Hs).
  rewrite res_mapM_snoc_check.
  destruct (res_mapM filter_of (take t l)) as [fl|e]; [|reflexivity].
  simpl. unfold gather_step.
  rewrite (index_ok _ _ _ Hg), (index_ok _ _ _ Hp), (index_ok _ _ _ Hm).
  simpl.
  change (filter_data g p difficulty_mode diff_idx cur_class use_superclass)
    with (filter_of (g, p, m)).
  destruct (filter_of (g, p, m)) as [[gf pf]|e] eqn:Ef; [|reflexivity].
  simpl.
  assert (Efl : sample_flags difficulty_mode use_superclass cur_class
                  diff_idx (g, p, m) = (gf, pf)).
  { unfold sample_flags. fold filter_of. rewrite Ef. reflexivity. }
  rewrite gathered_of_snoc by (rewrite Efl; exact Ef).
  rewrite Efl. reflexivity.
Qed.

Lemma gather_samples :
  gather gt_annos pred_annos ious difficulty_mode use_superclass cur_class
         iou_threshold diff_idx
  = (_ ← res_mapM filter_of l; Ok (G l)).
Proof.
  unfold gather. rewrite gather_steps by lia.
  rewrite take_ge; [reflexivity|].
  unfold l. rewrite samples_of_length by assumption. lia.
Qed.

End BlockFacts.

Lemma lookup_map_Some {A B} (f : A -> B) (l : list A) i a :
  l !! i = Some a -> map f l !! i = Some (f a).
Proof. intros E. rewrite map_fmap, list_lookup_fmap, E. reflexivity. Qed.

Lemma zip_with_map_same {A B C} (f : B -> A -> C) (g : A -> B) (l : list A) :
  zip_with f (map g l) l = map (fun x => f (g x) x) l.
Proof. induction l as [|x l IH]; simpl; [reflexivity|]. rewrite IH. reflexivity. Qed.

Lemma map_const_replicate {A B} (b : B) (l : list A) :
  map (fun _ => b) l = replicate (length l) b.
Proof. induction l as [|x l IH]; simpl; [reflexivity|]. rewrite IH. reflexivity. Qed.

Section ConfusionFacts.
Context `{Externals}.
Variables (gt_annos pred_annos : list Anno) (ious : list Mat).
Variables (difficulty_mode : string) (use_superclass : bool).
Variable num_pr_points : nat.
Variables (cur_class : string) (iou_threshold : Q) (diff_idx : nat).
Hypothesis pred_length : length gt_annos = length pred_annos.
Hypothesis ious_length : length gt_annos = length ious.

Let l : list sample := samples_of gt_annos pred_annos ious.
Let G : list sample -> gathered :=
  gathered_of difficulty_mode use_superclass cur_class iou_threshold diff_idx.
Let total : list sample -> Qc -> nat * nat * nat :=
  total_counts difficulty_mode use_superclass cur_class iou_threshold
               diff_idx.

Lemma total_counts_snoc l0 s score_th :
  total (l0 ++ [s]) score_th
  = add_counts (total l0 score_th)
      (sample_counts difficulty_mode use_superclass cur_class iou_threshold
                     diff_idx score_th s).
Proof.
  unfold total, total_counts, add_counts.
  rewrite !sum_list_with_app. simpl.
  destruct (sample_counts difficulty_mode use_superclass cur_class
              iou_threshold diff_idx score_th s) as [[a b] c]. simpl.
  f_equal; [f_equal|]; lia.
Qed.

(** The second loop over the samples, after [t] turns: each row is the sum
    of the counts of the samples seen so far. *)
Lemma confusion_steps thresholds t :
  (t <= length gt_annos)%nat ->
  foldlM (confusion_step pred_annos ious iou_threshold (G l) thresholds)
         (replicate (length thresholds) (0, 0, 0)%nat) (seq 0 t)
  = Ok (map (total (take t l)) thresholds).
Proof.
  induction t as [|t IH]; intros Ht.
  - simpl. f_equal. symmetry. apply (map_const_replicate (0, 0, 0)%nat).
  - rewrite seq_S, (foldlM_snoc _ _ _ _ _ (IH ltac:(lia))).
    destruct (sample_at gt_annos pred_annos ious pred_length ious_length t
                ltac:(lia)) as (g & p & m & Hg & Hp & Hm & Hs).
    fold l in Hs. change (0 + t)%nat with t.
    unfold confusion_step.
    rewrite (index_ok _ _ _ Hp), (index_ok _ _ _ Hm). simpl.
    rewrite (index_ok _ _ _
               (lookup_map_Some
                  (fun s => (sample_flags difficulty_mode use_superclass
                               cur_class diff_idx s).1) l t (g, p, m) Hs)).
    simpl.
    rewrite (index_ok _ _ _
               (lookup_map_Some
                  (fun s => (sample_flags difficulty_mode use_superclass
                               cur_class diff_idx s).2) l t (g, p, m) Hs)).
    simpl. f_equal.
    rewrite zip_with_map_same.
    rewrite (take_S_r l t (g, p, m) Hs).
    apply map_ext. intros score_th.
    rewrite total_counts_snoc. reflexivity.
Qed.

Lemma confusion_matrix_samples thresholds :
  confusion_matrix gt_annos pred_annos ious iou_threshold (G l) thresholds
  = Ok (map (total l) thresholds).
Proof.
  unfold confusion_matrix. rewrite confusion_steps by lia.
  rewrite take_ge; [reflexivity|].
  unfold l. rewrite samples_of_length by assumption. lia.
Qed.

(** [class_difficulty_rows] depends on the three lists only through the
    list of samples. *)
Lemma class_difficulty_rows_samples :
  class_difficulty_rows gt_annos pred_annos ious difficulty_mode
    use_superclass num_pr_points cur_class iou_threshold diff_idx
  = rows_of_samples difficulty_mode use_superclass num_pr_points cur_class
      iou_threshold diff_idx l.
Proof.
  unfold class_difficulty_rows, rows_of_samples.
  rewrite (gather_samples gt_annos pred_annos ious difficulty_mode
             use_superclass cur_class iou_threshold diff_idx pred_length
             ious_length).
  fold l. destruct (res_mapM _ l) as [fl|e]; [|reflexivity]. simpl.
  destruct (np_concatenate _) as [all_scores|e]; [|reflexivity]. simpl.
  destruct (get_thresholds _ _ _) as [thresholds|e]; [|reflexivity]. simpl.
  fold G. rewrite confusion_matrix_samples. reflexivity.
Qed.

End ConfusionFacts.

(** ** The order of the samples does not matter *)

Lemma forallb_perm {A} (p : A -> bool) l l' :
  l ≡ₚ l' -> forallb p l = forallb p l'.
Proof.
  induction 1 as [|x l l' _ IH|x y l|l l' l'' _ IH1 _ IH2]; simpl.
  - reflexivity.
  - rewrite IH. reflexivity.
  - destruct (p x), (p y); reflexivity.
  - congruence.
Qed.

Lemma concat_perm {A} (l l' : list (list A)) :
  l ≡ₚ l' -> concat l ≡ₚ concat l'.
Proof.
  induction 1 as [|x l l' _ IH|x y l|l l' l'' _ IH1 _ IH2]; simpl.
  - reflexivity.
  - rewrite IH. reflexivity.
  - rewrite !app_assoc. apply Permutation_app_tail, Permutation_app_comm.
  - etransitivity; eassumption.
Qed.

(** With errors that are all the same, whether a list passes a check does
    not depend on its order. *)
Lemma res_mapM_check {A B C} (f : A -> res B) (e0 : error) (k : res C) l :
  (forall x e, f x = Err e -> e = e0) ->
  (_ ← res_mapM f l; k)
  = if forallb (fun x => is_ok (f x)) l then k else Err e0.
Proof.
  intros Hu. induction l as [|x l IH]; simpl; [reflexivity|].
  destruct (f x) as [y|e] eqn:E; simpl.
  - rewrite <- IH. destruct (res_mapM f l); reflexivity.
  - rewrite (Hu _ _ E). reflexivity.
Qed.

Lemma mask_set_ok flags mask v :
  length mask = length flags ->
  mask_set flags mask v
  = Ok (zip_with (fun f (m : bool) => if m then v else f) flags mask).
Proof. intros E. unfold mask_set. rewrite decide_True by exact E. reflexivity. Qed.

Lemma mask_set_error flags mask v e :
  mask_set flags mask v = Err e -> e = IndexError.
Proof. unfold mask_set. case_decide; congruence. Qed.

Lemma reject_mask_length names class_name use_superclass :
  length (reject_mask names class_name use_superclass) = length names.
Proof.
  unfold reject_mask. destruct use_superclass; [case_bool_decide|];
    apply length_map.
Qed.

Section FilterFacts.
Context `{Externals}.

Lemma ignore_mask_error boxes difficulty_mode difficulty_level e :
  ignore_mask boxes difficulty_mode difficulty_level = Err e ->
  e = NotImplementedError
  /\ forall boxes', ignore_mask boxes' difficulty_mode difficulty_level
                    = Err NotImplementedError.
Proof.
  unfold ignore_mask. repeat case_bool_decide; try discriminate.
  intros E. split; [congruence|]. intros _. reflexivity.
Qed.

Lemma ignore_mask_ok boxes difficulty_mode difficulty_level mask boxes' :
  ignore_mask boxes difficulty_mode difficulty_level = Ok mask ->
  exists mask', ignore_mask boxes' difficulty_mode difficulty_level
                = Ok mask'.
Proof.
  unfold ignore_mask. repeat case_bool_decide; try discriminate;
    intros _; eexists; reflexivity.
Qed.

(** [filter_data] raises in two ways only: an unsupported mode, which fails
    for every sample, and a mask of the wrong length. *)
Lemma filter_data_error_kind difficulty_mode difficulty_level class_name
    use_superclass g p e :
  filter_data g p difficulty_mode difficulty_level class_name use_superclass
  = Err e ->
  (e = NotImplementedError
   /\ forall boxes, ignore_mask boxes difficulty_mode difficulty_level
                    = Err NotImplementedError)
  \/ (e = IndexError
      /\ forall boxes, exists mask,
           ignore_mask boxes difficulty_mode difficulty_level = Ok mask).
Proof.
  unfold filter_data.
  rewrite !mask_set_ok by (rewrite length_replicate, reject_mask_length;
                           reflexivity).
  simpl.
  destruct (ignore_mask (boxes_3d g) _ _) as [m1|e1] eqn:E1; simpl.
  - intros He. right. split.
    + destruct (mask_set _ m1 Ignored) as [gf|x] eqn:Ea; simpl in He.
      * destruct (ignore_mask_ok _ _ _ _ (boxes_3d p) E1) as [m2 E2].
        rewrite E2 in He. simpl in He.
        destruct (mask_set _ m2 Ignored) as [pf|x] eqn:Eb; simpl in He;
          [discriminate|].
        inversion He; subst. eapply mask_set_error. exact Eb.
      * inversion He; subst. eapply mask_set_error. exact Ea.
    + intros boxes. eapply ignore_mask_ok. exact E1.
  - intros He. inversion He; subst.
    destruct (ignore_mask_error _ _ _ _ E1) as [-> Hall].
    left. split; [reflexivity|exact Hall].
Qed.

(** All the samples on which [filter_data] raises raise the same
    exception. *)
Lemma filter_data_errors difficulty_mode difficulty_level class_name
    use_superclass g p g' p' e e' :
  filter_data g p difficulty_mode difficulty_level class_name use_superclass
  = Err e ->
  filter_data g' p' difficulty_mode difficulty_level class_name use_superclass
  = Err e' ->
  e = e'.
Proof.
  intros He He'.
  destruct (filter_data_error_kind _ _ _ _ _ _ _ He) as [[-> H1]|[-> H1]];
    destruct (filter_data_error_kind _ _ _ _ _ _ _ He') as [[-> H2]|[-> H2]];
    try reflexivity.
  - destruct (H2 []) as [m Em]. rewrite H1 in Em. discriminate.
  - destruct (H1 []) as [m Em]. rewrite H2 in Em. discriminate.
Qed.

End FilterFacts.

Lemma merge_sort_perm (sc sc' : list Qc) :
  sc ≡ₚ sc' -> merge_sort Qcle sc = merge_sort Qcle sc'.
Proof.
  intros Hp. apply (StronglySorted_unique Qcle).
  - apply StronglySorted_merge_sort; apply _.
  - apply StronglySorted_merge_sort; apply _.
  - rewrite !merge_sort_Permutation. exact Hp.
Qed.

(** [get_thresholds] sorts its scores first, so their order is
    irrelevant. *)
Lemma get_thresholds_perm sc sc' num_gt num_pr_points :
  sc ≡ₚ sc' ->
  get_thresholds sc num_gt num_pr_points
  = get_thresholds sc' num_gt num_pr_points.
Proof.
  intros Hp. unfold get_thresholds. rewrite (merge_sort_perm sc sc' Hp).
  reflexivity.
Qed.

Section SampleOrder.
Context `{Externals}.
Variables (difficulty_mode : string) (use_superclass : bool).
Variable num_pr_points : nat.
Variables (cur_class : string) (iou_threshold : Q) (diff_idx : nat).

Lemma sample_filter_errors (s s' : sample) e e' :
  sample_filter difficulty_mode use_superclass cur_class diff_idx s = Err e ->
  sample_filter difficulty_mode use_superclass cur_class diff_idx s' = Err e' ->
  e = e'.
Proof. apply filter_data_errors. Qed.

Lemma sample_filter_check_perm {C} (k : res C) (l l' : list sample) :
  l ≡ₚ l' ->
  (_ ← res_mapM
         (sample_filter difficulty_mode use_superclass cur_class diff_idx) l;
   k)
  = (_ ← res_mapM
           (sample_filter difficulty_mode use_superclass cur_class diff_idx)
           l';
     k).
Proof.
  intros Hp.
  set (f := sample_filter difficulty_mode use_superclass cur_class diff_idx).
  destruct (forallb (fun x => is_ok (f x)) l) eqn:Eall.
  - (* nothing raises: any exception will do as the common one *)
    assert (Hl : forall l0, forallb (fun x => is_ok (f x)) l0 = true ->
                 (_ ← res_mapM f l0; k) = k).
    { induction l0 as [|x l0 IH]; simpl; [reflexivity|].
      intros Hx. apply andb_true_iff in Hx as [Hx Hl0].
      destruct (f x); [|discriminate]. simpl.
      transitivity (_ ← res_mapM f l0; k); [|exact (IH Hl0)].
      destruct (res_mapM f l0); reflexivity. }
    rewrite (Hl l Eall).
    rewrite (forallb_perm _ _ _ Hp) in Eall. rewrite (Hl l' Eall).
    reflexivity.
  - (* some sample raises: every failure raises the same exception *)
    assert (Hex : exists s e0, s ∈ l /\ f s = Err e0).
    { clear Hp. induction l as [|x l IH]; simpl in Eall; [discriminate|].
      destruct (f x) as [?|e0] eqn:Ex; simpl in Eall.
      - destruct (IH Eall) as (s & e0 & Hin & Es).
        exists s, e0. split; [right; exact Hin|exact Es].
      - exists x, e0. split; [left|exact Ex]. }
    destruct Hex as (s & e0 & _ & Es).
    assert (Hu : forall x e, f x = Err e -> e = e0).
    { intros x e Ex. apply (sample_filter_errors x s e e0 Ex Es). }
    rewrite !(res_mapM_check f e0 k _ Hu).
    rewrite (forallb_perm _ _ _ Hp). reflexivity.
Qed.

(** The rows of a class and a difficulty do not depend on the order of the
    samples. *)
Lemma rows_of_samples_perm (l l' : list sample) :
  l ≡ₚ l' ->
  rows_of_samples difficulty_mode use_superclass num_pr_points cur_class
                  iou_threshold diff_idx l
  = rows_of_samples difficulty_mode use_superclass num_pr_points cur_class
                    iou_threshold diff_idx l'.
Proof.
  intros Hp. unfold rows_of_samples.
  rewrite (sample_filter_check_perm _ l l' Hp). f_equal.
  set (sc := sample_scores difficulty_mode use_superclass cur_class
               iou_threshold diff_idx).
  assert (Evalid :
    sum_list_with (sample_valid difficulty_mode use_superclass cur_class
                     diff_idx) l
    = sum_list_with (sample_valid difficulty_mode use_superclass cur_class
                       diff_idx) l').
  { rewrite Hp. reflexivity. }
  assert (Etotal : forall th,
    total_counts difficulty_mode use_superclass cur_class iou_threshold
                 diff_idx l th
    = total_counts difficulty_mode use_superclass cur_class iou_threshold
                   diff_idx l' th).
  { intros th. unfold total_counts. rewrite Hp. reflexivity. }
  rewrite Evalid.
  destruct l as [|s0 l0].
  - apply Permutation_nil in Hp. subst l'. reflexivity.
  - destruct l' as [|s0' l0'].
    + symmetry in Hp. apply Permutation_nil in Hp. discriminate Hp.
    + rewrite !np_concatenate_ok by discriminate.
      cbn [mbind res_bind].
      assert (Esc : concat (map sc (s0 :: l0))
                    ≡ₚ concat (map sc (s0' :: l0'))).
      { apply concat_perm. rewrite !map_fmap. rewrite Hp. reflexivity. }
      rewrite (get_thresholds_perm _ _ _ _ Esc).
      destruct (get_thresholds _ _ _) as [ths|e]; [|reflexivity].
      cbn [mbind res_bind].
      rewrite (map_ext _ _ Etotal). reflexivity.
Qed.

End SampleOrder.

(** ** The whole evaluation *)

Lemma res_mapM_ext {A B} (f g : A -> res B) l :
  (forall x, x ∈ l -> f x = g x) -> res_mapM f l = res_mapM g l.
Proof.
  induction l as [|x l IH]; intros Hfg; simpl; [reflexivity|].
  rewrite (Hfg x) by left. rewrite IH; [reflexivity|].
  intros y Hy. apply Hfg. right. exact Hy.
Qed.

Section WholeEvaluation.
Context `{Externals}.

Lemma samples_of_zip gt_annos pred_annos with_heading :
  samples_of gt_annos pred_annos
             (zip_with (sample_iou with_heading) gt_annos pred_annos)
  = (fun gp => (gp.1, gp.2, sample_iou with_heading gp.1 gp.2))
    <$> zip gt_annos pred_annos.
Proof.
  unfold samples_of. revert pred_annos.
  induction gt_annos as [|g gt IH]; intros [|p pred]; simpl;
    try reflexivity.
  rewrite IH. reflexivity.
Qed.

(** The rows of a class and a difficulty, from the annotations alone. *)
Lemma class_difficulty_rows_zip gt_annos pred_annos with_heading
    difficulty_mode use_superclass num_pr_points cur_class iou_threshold
    diff_idx :
  length gt_annos = length pred_annos ->
  class_difficulty_rows gt_annos pred_annos
    (zip_with (sample_iou with_heading) gt_annos pred_annos)
    difficulty_mode use_superclass num_pr_points cur_class iou_threshold
    diff_idx
  = rows_of_samples difficulty_mode use_superclass num_pr_points cur_class
      iou_threshold diff_idx
      ((fun gp => (gp.1, gp.2, sample_iou with_heading gp.1 gp.2))
       <$> zip gt_annos pred_annos).
Proof.
  intros Hlen. rewrite class_difficulty_rows_samples.
  - rewrite samples_of_zip. reflexivity.
  - exact Hlen.
  - rewrite length_zip_with. lia.
Qed.

(** [evaluate_AP] depends on [num_parts] through the IoU matrices only. *)
Lemma evaluate_AP_ious gt_annos pred_annos classes use_superclass
    iou_thresholds num_pr_points difficulty_mode ap_with_heading
    num_parts num_parts' :
  compute_iou3d gt_annos pred_annos
    (compute_split_parts (length gt_annos) num_parts) ap_with_heading
  = compute_iou3d gt_annos pred_annos
      (compute_split_parts (length gt_annos) num_parts') ap_with_heading ->
  evaluate_AP gt_annos pred_annos classes use_superclass iou_thresholds
              num_pr_points difficulty_mode ap_with_heading num_parts
  = evaluate_AP gt_annos pred_annos classes use_superclass iou_thresholds
                num_pr_points difficulty_mode ap_with_heading num_parts'.
Proof. intros E. unfold evaluate_AP. rewrite E. reflexivity. Qed.

Lemma compute_iou3d_parts gt_annos pred_annos with_heading parts parts' :
  length gt_annos = length pred_annos ->
  Forall anno_wf gt_annos -> Forall anno_wf pred_annos ->
  split_ok (length gt_annos) parts -> split_ok (length gt_annos) parts' ->
  compute_iou3d gt_annos pred_annos parts with_heading
  = compute_iou3d gt_annos pred_annos parts' with_heading.
Proof.
  intros Hlen Hg Hp Hs Hs'.
  destruct gt_annos as [|g gt] eqn:Eg; [reflexivity|].
  rewrite <- Eg in *.
  assert (Hne : gt_annos <> []) by (rewrite Eg; discriminate).
  rewrite !compute_iou3d_per_sample by assumption. reflexivity.
Qed.

End WholeEvaluation.

(** The reference splitter cuts any positive number of samples into
    non-empty parts that cover them, for any positive [num_parts]. *)
Lemma split_evenly_ok (num_samples num_parts : nat) :
  (1 <= num_samples)%nat -> (1 <= num_parts)%nat ->
  split_ok num_samples (Reference.split_evenly num_samples num_parts).
Proof.
  intros Hn Hk. unfold split_ok, Reference.split_evenly.
  pose proof (Nat.div_mod_eq num_samples num_parts) as D.
  destruct (num_samples / num_parts =? 0)%nat eqn:E0.
  - split; [repeat constructor; lia|simpl; lia].
  - apply Nat.eqb_neq in E0.
    destruct (num_samples mod num_parts =? 0)%nat eqn:E1.
    + apply Nat.eqb_eq in E1. split.
      * apply Forall_replicate. lia.
      * rewrite sum_list_replicate. lia.
    + apply Nat.eqb_neq in E1. split.
      * apply Forall_app. split; [apply Forall_replicate; lia|].
        repeat constructor. lia.
      * rewrite sum_list_with_app, sum_list_replicate. simpl. lia.
Qed.

(** C5.  For annotations whose name and box sequences have one length, and
    two values of [num_parts] for which [compute_split_parts] cuts the
    samples into non-empty parts that cover them, [compute_iou3d] returns
    the same per-sample IoU matrices, each the matrix of the sample computed
    on its own, and [get_evaluation_results] returns the same report and the
    same AP map. *)
Theorem num_parts_is_irrelevant `{Externals}
    (gt_annos pred_annos : list Anno) (classes : list string)
    (use_superclass : bool) (iou_thresholds : option (gmap string Q))
    (num_pr_points : nat) (difficulty_mode : string)
    (ap_with_heading : bool) (num_parts num_parts' : nat) :
  length gt_annos = length pred_annos ->
  Forall anno_wf gt_annos -> Forall anno_wf pred_annos ->
  split_ok (length gt_annos)
           (compute_split_parts (length gt_annos) num_parts) ->
  split_ok (length gt_annos)
           (compute_split_parts (length gt_annos) num_parts') ->
  compute_iou3d gt_annos pred_annos
    (compute_split_parts (length gt_annos) num_parts) ap_with_heading
  = compute_iou3d gt_annos pred_annos
      (compute_split_parts (length gt_annos) num_parts') ap_with_heading
  /\ (gt_annos <> [] ->
      compute_iou3d gt_annos pred_annos
        (compute_split_parts (length gt_annos) num_parts) ap_with_heading
      = Ok (zip_with (sample_iou ap_with_heading) gt_annos pred_annos))
  /\ get_evaluation_results gt_annos pred_annos classes use_superclass
       iou_thresholds num_pr_points difficulty_mode ap_with_heading num_parts
     = get_evaluation_results gt_annos pred_annos classes use_superclass
         iou_thresholds num_pr_points difficulty_mode ap_with_heading
         num_parts'.
Proof.
  intros Hlen Hg Hp Hs Hs'.
  pose proof (compute_iou3d_parts gt_annos pred_annos ap_with_heading _ _
                Hlen Hg Hp Hs Hs') as E.
  split; [exact E|]. split.
  - intros Hne. apply compute_iou3d_per_sample; assumption.
  - unfold get_evaluation_results.
    rewrite (evaluate_AP_ious _ _ _ _ _ _ _ _ num_parts num_parts' E).
    reflexivity.
Qed.

Lemma num_parts_is_irrelevant_witness :
  get_evaluation_results (H := Reference.externals)
    [one_car_gt; one_car_gt; one_car_gt]
    [one_car_pred; one_car_miss; one_car_pred]
    ["Car"] false None 2 "Overall" false 1
  = get_evaluation_results (H := Reference.externals)
      [one_car_gt; one_car_gt; one_car_gt]
      [one_car_pred; one_car_miss; one_car_pred]
      ["Car"] false None 2 "Overall" false 2.
Proof.
  apply (num_parts_is_irrelevant (H := Reference.externals)
           [one_car_gt; one_car_gt; one_car_gt]
           [one_car_pred; one_car_miss; one_car_pred]
           ["Car"] false None 2 "Overall" false 1 2).
  - reflexivity.
  - repeat constructor.
  - repeat constructor.
  - split; [repeat constructor | reflexivity].
  - split; [repeat constructor | reflexivity].
Defined.

Lemma precision_curves_ext rows rows' iou_thresholds classes
    num_difficulties :
  (forall c t d, rows c t d = rows' c t d) ->
  precision_curves rows iou_thresholds classes num_difficulties
  = precision_curves rows' iou_thresholds classes num_difficulties.
Proof.
  intros E. unfold precision_curves. apply res_mapM_ext. intros c _.
  destruct (dict_get iou_thresholds c) as [t|e]; [|reflexivity]. simpl.
  apply res_mapM_ext. intros d _. apply E.
Qed.

Lemma zip_perm_length {A B} (l l' : list A) (k k' : list B) :
  length l = length k -> length l' = length k' ->
  zip l k ≡ₚ zip l' k' ->
  length l = length l' /\ l ≡ₚ l' /\ k ≡ₚ k'.
Proof.
  intros Hl Hl' Hp. split; [|split].
  - apply Permutation_length in Hp. rewrite !length_zip_with in Hp. lia.
  - rewrite <- (fst_zip l k) by lia. rewrite <- (fst_zip l' k') by lia.
    rewrite Hp. reflexivity.
  - rewrite <- (snd_zip l k) by lia. rewrite <- (snd_zip l' k') by lia.
    rewrite Hp. reflexivity.
Qed.

(** C4.  When the ground-truth samples and the predictions are permuted
    together, their name and box sequences being of one length and
    [compute_split_parts] cutting the samples into non-empty parts that
    cover them, [get_evaluation_results] returns the same outcome: the same
    array of AP values for every class and difficulty, the same report and
    the same map. *)
Theorem sample_order_is_irrelevant `{Externals}
    (gt_annos pred_annos gt_annos' pred_annos' : list Anno)
    (classes : list string) (use_superclass : bool)
    (iou_thresholds : option (gmap string Q)) (num_pr_points : nat)
    (difficulty_mode : string) (ap_with_heading : bool) (num_parts : nat) :
  length gt_annos = length pred_annos ->
  length gt_annos' = length pred_annos' ->
  zip gt_annos pred_annos ≡ₚ zip gt_annos' pred_annos' ->
  Forall anno_wf gt_annos -> Forall anno_wf pred_annos ->
  split_ok (length gt_annos)
           (compute_split_parts (length gt_annos) num_parts) ->
  evaluate_AP gt_annos pred_annos classes use_superclass iou_thresholds
              num_pr_points difficulty_mode ap_with_heading num_parts
  = evaluate_AP gt_annos' pred_annos' classes use_superclass iou_thresholds
                num_pr_points difficulty_mode ap_with_heading num_parts
  /\ get_evaluation_results gt_annos pred_annos classes use_superclass
       iou_thresholds num_pr_points difficulty_mode ap_with_heading num_parts
     = get_evaluation_results gt_annos' pred_annos' classes use_superclass
         iou_thresholds num_pr_points difficulty_mode ap_with_heading
         num_parts.
Proof.
  intros Hlen Hlen' Hperm Hg Hp Hsplit.
  destruct (zip_perm_length _ _ _ _ Hlen Hlen' Hperm) as (Hn & Pg & Pp).
  assert (E : evaluate_AP gt_annos pred_annos classes use_superclass
                iou_thresholds num_pr_points difficulty_mode ap_with_heading
                num_parts
              = evaluate_AP gt_annos' pred_annos' classes use_superclass
                  iou_thresholds num_pr_points difficulty_mode
                  ap_with_heading num_parts).
  { destruct (decide (gt_annos = [])) as [Eg|Hne].
    - subst gt_annos. apply Permutation_nil in Pg. subst gt_annos'.
      destruct pred_annos; [|discriminate Hlen].
      destruct pred_annos'; [|discriminate Hlen']. reflexivity.
    - assert (Hne' : gt_annos' <> []).
      { intros Eg'. subst gt_annos'. symmetry in Pg.
        apply Permutation_nil in Pg. contradiction. }
      assert (Hg' : Forall anno_wf gt_annos') by (rewrite <- Pg; exact Hg).
      assert (Hp' : Forall anno_wf pred_annos') by (rewrite <- Pp; exact Hp).
      unfold evaluate_AP. rewrite <- Hn.
      rewrite (compute_iou3d_per_sample gt_annos pred_annos ap_with_heading
                 Hlen Hg Hp _ Hne Hsplit).
      rewrite (compute_iou3d_per_sample gt_annos' pred_annos' ap_with_heading
                 Hlen' Hg' Hp' _ Hne' ltac:(rewrite <- Hn; exact Hsplit)).
      rewrite <- Hlen, <- Hlen', <- Hn.
      destruct (assert _) as [[]|e]; [|reflexivity]. cbn [mbind res_bind].
      destruct (assert _) as [[]|e]; [|reflexivity]. cbn [mbind res_bind].
      destruct (scored_classes classes use_superclass) as [cls|e];
        [|reflexivity].
      cbn [mbind res_bind].
      destruct (difficulty_types_of difficulty_mode) as [dts|e];
        [|reflexivity].
      cbn [mbind res_bind].
      erewrite precision_curves_ext; [reflexivity|].
      intros c t d. cbn beta.
      rewrite !class_difficulty_rows_zip by assumption.
      apply rows_of_samples_perm. rewrite Hperm. reflexivity. }
  split; [exact E|].
  unfold get_evaluation_results. rewrite E. reflexivity.
Qed.

Lemma sample_order_is_irrelevant_witness :
  get_evaluation_results (H := Reference.externals)
    [one_car_gt; one_car_gt] [one_car_pred; one_car_miss]
    ["Car"] false None 2 "Overall" false 1
  = get_evaluation_results (H := Reference.externals)
      [one_car_gt; one_car_gt] [one_car_miss; one_car_pred]
      ["Car"] false None 2 "Overall" false 1.
Proof.
  apply (sample_order_is_irrelevant (H := Reference.externals)
           [one_car_gt; one_car_gt] [one_car_pred; one_car_miss]
           [one_car_gt; one_car_gt] [one_car_miss; one_car_pred]
           ["Car"] false None 2 "Overall" false 1).
  - reflexivity.
  - reflexivity.
  - apply perm_swap.
  - repeat constructor.
  - repeat constructor.
  - split; [repeat constructor | reflexivity].
Defined.

(** ** A class without accepted ground truth *)

Lemma res_mapM_ok_lookup {A B} (f : A -> res B) l :
  (forall x, x ∈ l -> exists y, f x = Ok y) ->
  exists ys,
    res_mapM f l = Ok ys
    /\ forall i x, l !! i = Some x -> exists y, ys !! i = Some y /\ f x = Ok y.
Proof.
  induction l as [|a l IH]; intros Hok.
  - exists []. split; [reflexivity|]. intros i x Hi. discriminate Hi.
  - destruct (Hok a ltac:(left)) as [b Eb].
    destruct IH as (ys & E & Hys).
    { intros x Hx. apply Hok. right. exact Hx. }
    exists (b :: ys). split.
    + simpl. rewrite Eb. simpl. rewrite E. reflexivity.
    + intros [|i] x Hi; simpl in Hi.
      * inversion Hi; subst. exists b. split; [reflexivity|exact Eb].
      * apply Hys. exact Hi.
Qed.

Lemma mask_set_length flags mask v flags' :
  mask_set flags mask v = Ok flags' -> length flags' = length flags.
Proof.
  unfold mask_set. case_decide as E; [|discriminate].
  intros E'. inversion E'; subst. rewrite length_zip_with. lia.
Qed.

Lemma filter_data_lengths `{Externals} g p difficulty_mode difficulty_level
    class_name use_superclass gt_flag pred_flag :
  filter_data g p difficulty_mode difficulty_level class_name use_superclass
  = Ok (gt_flag, pred_flag) ->
  length gt_flag = length (name g) /\ length pred_flag = length (name p).
Proof.
  unfold filter_data.
  rewrite !mask_set_ok by (rewrite length_replicate, reject_mask_length;
                           reflexivity).
  simpl.
  destruct (ignore_mask (boxes_3d g) _ _) as [m1|e1]; [|discriminate]. simpl.
  destruct (mask_set _ m1 Ignored) as [gf|e] eqn:Eg; [|discriminate]. simpl.
  destruct (ignore_mask (boxes_3d p) _ _) as [m2|e2]; [|discriminate]. simpl.
  destruct (mask_set _ m2 Ignored) as [pf|e] eqn:Ep; [|discriminate]. simpl.
  intros E. inversion E; subst.
  apply mask_set_length in Eg, Ep.
  rewrite length_zip_with, length_replicate, reject_mask_length in Eg, Ep.
  split; lia.
Qed.

Lemma sample_iou_shape0 `{Externals} with_heading g p :
  shape0 (sample_iou with_heading g p) = length (boxes_3d g).
Proof.
  unfold sample_iou, shape0.
  destruct with_heading; simpl; apply length_map.
Qed.

Lemma filter_none {A} (P : A -> Prop) `{!forall x, Decision (P x)} l :
  (forall x, x ∈ l -> ~ P x) -> filter P l = [].
Proof.
  induction l as [|a l IH]; intros Hno; [reflexivity|].
  rewrite filter_cons_False by (apply Hno; left).
  apply IH. intros x Hx. apply Hno. right. exact Hx.
Qed.

(** Without an accepted row nothing is accumulated. *)
Lemma accumulate_scores_none iou pred_scores gt_flag pred_flag iou_threshold :
  shape0 iou = length gt_flag -> Accepted ∉ gt_flag ->
  accumulate_scores iou pred_scores gt_flag pred_flag iou_threshold = [].
Proof.
  intros Hshape Hnone.
  pose proof (proj2 (accumulate_pass_inv iou pred_scores gt_flag pred_flag
                       iou_threshold (shape0 iou))) as Hle.
  cbv zeta in Hle.
  fold (accumulate_pass iou pred_scores gt_flag pred_flag iou_threshold)
    in Hle.
  assert (E : filter (fun i => gt_flag !!! i = Accepted) (seq 0 (shape0 iou))
              = []).
  { apply filter_none. intros i Hi Hacc.
    apply elem_of_seq in Hi. apply Hnone. rewrite <- Hacc.
    apply list_elem_of_lookup_total_2. lia. }
  rewrite E in Hle. simpl in Hle. unfold accumulate_scores.
  destruct (accum _) as [|? ?]; [reflexivity|simpl in Hle; lia].
Qed.

Lemma average_precision_of_zeros num_pr_points :
  (1 <= num_pr_points)%nat ->
  exists q,
    average_precision_of num_pr_points
      (replicate (num_pr_points + 1) Flt.zero) = Fin q
    /\ q == 0.
Proof.
  intros Hn. unfold average_precision_of.
  replace (num_pr_points + 1)%nat with (S num_pr_points) by lia.
  cbn [replicate drop].
  assert (Hsum : forall k q0, q0 == 0 ->
            exists q, foldl Flt.add (Fin q0) (replicate k Flt.zero) = Fin q
                      /\ q == 0).
  { induction k as [|k IH]; intros q0 Hq0; simpl.
    - exists q0. split; [reflexivity|exact Hq0].
    - apply IH. rewrite Hq0. reflexivity. }
  rewrite drop_0.
  destruct (Hsum num_pr_points 0 ltac:(reflexivity)) as (q & -> & Hq).
  simpl. pose proof (Qn_pos num_pr_points Hn) as Hpos.
  rewrite div_finite by lra. simpl.
  eexists. split; [reflexivity|]. rewrite Hq. field. lra.
Qed.

Section NoAcceptedGroundTruth.
Context `{Externals}.
Variables (difficulty_mode : string) (use_superclass : bool).
Variable num_pr_points : nat.
Variables (cur_class : string) (iou_threshold : Q) (diff_idx : nat).

Let zeros : list flt := replicate (num_pr_points + 1) Flt.zero.

Lemma sample_scores_none l s :
  no_accepted difficulty_mode use_superclass cur_class diff_idx l -> s ∈ l ->
  sample_scores difficulty_mode use_superclass cur_class iou_threshold
                diff_idx s = []
  /\ sample_valid difficulty_mode use_superclass cur_class diff_idx s = 0%nat.
Proof.
  intros Hno Hs. destruct (Hno s Hs) as (gf & pf & E & Hnone & Hshape).
  unfold sample_scores, sample_valid, sample_flags. rewrite E. simpl.
  split.
  - apply accumulate_scores_none; assumption.
  - unfold count_accepted. rewrite filter_none; [reflexivity|].
    intros f Hf Ef. subst f. contradiction.
Qed.

Lemma rows_of_samples_none l :
  l <> [] -> no_accepted difficulty_mode use_superclass cur_class diff_idx l ->
  rows_of_samples difficulty_mode use_superclass num_pr_points cur_class
                  iou_threshold diff_idx l
  = Ok (zeros, zeros).
Proof.
  intros Hne Hno. unfold rows_of_samples.
  destruct (res_mapM_ok_lookup
              (sample_filter difficulty_mode use_superclass cur_class
                 diff_idx) l) as (fl & -> & _).
  { intros s Hs. destruct (Hno s Hs) as (gf & pf & E & _).
    eexists. exact E. }
  cbn [mbind res_bind].
  assert (Esc : concat (map (sample_scores difficulty_mode use_superclass
                               cur_class iou_threshold diff_idx) l) = []).
  { assert (Hin : forall s, s ∈ l -> s ∈ l) by auto.
    revert Hin. generalize l at 1 3. intros l0 Hin.
    induction l0 as [|s l0 IH]; [reflexivity|]. simpl.
    rewrite (proj1 (sample_scores_none l s Hno (Hin s ltac:(left)))).
    apply IH. intros s' Hs'. apply Hin. right. exact Hs'. }
  rewrite np_concatenate_ok by (apply map_nonempty; destruct l;
                                [congruence|simpl; lia]).
  cbn [mbind res_bind]. rewrite Esc, get_thresholds_nil.
  reflexivity.
Qed.

End NoAcceptedGroundTruth.

Lemma difficulty_types_supported difficulty_mode dts :
  difficulty_types_of difficulty_mode = Ok dts ->
  assert (bool_decide (difficulty_mode ∈
            ["Overall&Distance"; "Overall"; "Distance"])) = Ok tt.
Proof.
  unfold difficulty_types_of.
  destruct (bool_decide (difficulty_mode = "Distance")) eqn:E1.
  { apply bool_decide_eq_true in E1. subst. reflexivity. }
  destruct (bool_decide (difficulty_mode = "Overall")) eqn:E2.
  { apply bool_decide_eq_true in E2. subst. reflexivity. }
  destruct (bool_decide (difficulty_mode = "Overall&Distance")) eqn:E3.
  { apply bool_decide_eq_true in E3. subst. reflexivity. }
  discriminate.
Qed.

(** C9, the claim as written.  No pedestrian is accepted in the sample of
    one car, nor when there is no sample.  Yet the call raises when there is
    no sample at all ([np.stack] of an empty list at line 397), when
    [num_pr_points] is 0 (line 121 divides 0 by 0), and when another class
    of the call has no IoU threshold (line 71). *)
Lemma degenerate_calls_raise :
  filter_data (H := Reference.externals) one_car_gt one_car_pred
    "Overall" 0 "Pedestrian" false
  = Ok ([Rejected], [Rejected])
  /\ get_evaluation_results (H := Reference.externals)
       [] [] ["Pedestrian"] false None 50 "Overall" false 100
     = Err ValueError
  /\ get_evaluation_results (H := Reference.externals)
       [one_car_gt] [one_car_pred] ["Pedestrian"] false None 0 "Overall"
       false 100
     = Err ZeroDivisionError
  /\ get_evaluation_results (H := Reference.externals)
       [one_car_gt] [one_car_pred] ["Pedestrian"; "Tram"] false None 50
       "Overall" false 100
     = Err KeyError.
Proof. repeat split; vm_compute; reflexivity. Qed.

(** C9, amended.  Take at least one sample, and a class and a difficulty
    for which [filter_data] flags no ground-truth box as accepted in any
    sample, the annotations having name and box sequences of one length,
    [compute_split_parts] cutting the samples into non-empty parts that
    cover them, and [num_pr_points] being at least 1.  Then [accumulate_scores] returns no score for any sample,
    [get_thresholds] receives the empty list and returns it, lines 73-116
    divide nothing, raise nothing and leave the two rows at zero, and, as
    long as the other classes and difficulties raise nothing,
    [get_evaluation_results] returns with AP = 0 for that class and
    difficulty. *)
Theorem no_accepted_ground_truth_gives_zero_AP `{Externals}
    (gt_annos pred_annos : list Anno) (classes : list string)
    (use_superclass : bool) (iou_thresholds : option (gmap string Q))
    (num_pr_points : nat) (difficulty_mode : string)
    (ap_with_heading : bool) (num_parts : nat)
    (cur_class : string) (iou_threshold : Q) (diff_idx : nat) :
  length gt_annos = length pred_annos -> gt_annos <> [] ->
  Forall anno_wf gt_annos -> Forall anno_wf pred_annos ->
  split_ok (length gt_annos)
           (compute_split_parts (length gt_annos) num_parts) ->
  (1 <= num_pr_points)%nat ->
  (forall g p, (g, p) ∈ zip gt_annos pred_annos ->
     exists gt_flag pred_flag,
       filter_data g p difficulty_mode diff_idx cur_class use_superclass
       = Ok (gt_flag, pred_flag)
       /\ (Accepted ∉ gt_flag)) ->
  let ious := zip_with (sample_iou ap_with_heading) gt_annos pred_annos in
  let zeros := replicate (num_pr_points + 1) Flt.zero in
  let dict := match iou_thresholds with
              | Some d => d
              | None => if use_superclass then superclass_iou_threshold_dict
                        else iou_threshold_dict
              end in
  (forall g p gt_flag pred_flag,
     (g, p) ∈ zip gt_annos pred_annos ->
     filter_data g p difficulty_mode diff_idx cur_class use_superclass
     = Ok (gt_flag, pred_flag) ->
     accumulate_scores (sample_iou ap_with_heading g p) (score p)
                       gt_flag pred_flag iou_threshold = [])
  /\ get_thresholds [] 0 num_pr_points = Ok []
  /\ class_difficulty_rows gt_annos pred_annos ious difficulty_mode
       use_superclass num_pr_points cur_class iou_threshold diff_idx
     = Ok (zeros, zeros)
  /\ (forall cls dts,
        scored_classes classes use_superclass = Ok cls ->
        difficulty_types_of difficulty_mode = Ok dts ->
        (diff_idx < length dts)%nat ->
        dict_get dict cur_class = Ok iou_threshold ->
        (forall c, c ∈ cls ->
           exists t, dict_get dict c = Ok t
             /\ forall d, (d < length dts)%nat ->
                  (c = cur_class /\ d = diff_idx)
                  \/ exists r,
                       class_difficulty_rows gt_annos pred_annos ious
                         difficulty_mode use_superclass num_pr_points c t d
                       = Ok r) ->
        exists AP,
          get_evaluation_results gt_annos pred_annos classes use_superclass
            iou_thresholds num_pr_points difficulty_mode ap_with_heading
            num_parts
          = Ok (report cls dts num_pr_points AP)
          /\ forall i, cls !! i = Some cur_class ->
               exists q, (AP !!! i) !!! diff_idx = Fin q /\ q == 0).
Proof.
  intros Hlen Hne Hg Hp Hsplit Hn Hnone ious zeros dict.
  assert (Hshape : forall g p gt_flag pred_flag,
            (g, p) ∈ zip gt_annos pred_annos ->
            filter_data g p difficulty_mode diff_idx cur_class use_superclass
            = Ok (gt_flag, pred_flag) ->
            shape0 (sample_iou ap_with_heading g p) = length gt_flag).
  { intros g p gf pf Hin E. rewrite sample_iou_shape0.
    destruct (filter_data_lengths _ _ _ _ _ _ _ _ E) as [-> _].
    apply elem_of_zip_l in Hin. rewrite Forall_forall in Hg.
    symmetry. apply (Hg g). exact Hin. }
  assert (Hrows : class_difficulty_rows gt_annos pred_annos ious
                    difficulty_mode use_superclass num_pr_points cur_class
                    iou_threshold diff_idx = Ok (zeros, zeros)).
  { unfold ious. rewrite class_difficulty_rows_zip by exact Hlen.
    apply rows_of_samples_none.
    - intros E. apply fmap_nil_inv in E. apply zip_with_nil_inv in E.
      destruct E as [E|E]; [contradiction|].
      subst pred_annos. destruct gt_annos; [contradiction|discriminate Hlen].
    - intros s Hs. apply list_elem_of_fmap in Hs as ([g p] & -> & Hin).
      simpl. destruct (Hnone g p Hin) as (gf & pf & E & Hacc).
      exists gf, pf. split; [exact E|]. split; [exact Hacc|].
      apply (Hshape g p gf pf Hin E). }
  split.
  { intros g p gf pf Hin E. apply accumulate_scores_none.
    - apply (Hshape g p gf pf Hin E).
    - destruct (Hnone g p Hin) as (gf' & pf' & E' & Hacc).
      rewrite E in E'. inversion E'; subst. exact Hacc. }
  split; [reflexivity|]. split; [exact Hrows|].
  intros cls dts Hcls Hdts Hd Hthr Hothers.
  unfold get_evaluation_results, evaluate_AP. fold dict.
  rewrite (bool_decide_eq_true_2 (length gt_annos = length pred_annos) Hlen).
  rewrite (difficulty_types_supported _ _ Hdts).
  cbn [assert mbind res_bind].
  rewrite Hcls. cbn [mbind res_bind].
  rewrite (compute_iou3d_per_sample gt_annos pred_annos ap_with_heading
             Hlen Hg Hp _ Hne Hsplit).
  cbn [mbind res_bind]. rewrite Hdts. cbn [mbind res_bind]. fold ious.
  destruct (res_mapM_ok_lookup
              (fun c =>
                 t ← dict_get dict c;
                 res_mapM
                   (fun d =>
                      class_difficulty_rows gt_annos pred_annos ious
                        difficulty_mode use_superclass num_pr_points c t d)
                   (seq 0 (length dts))) cls) as (curves & Ecurves & Hcurves).
  { intros c Hc. destruct (Hothers c Hc) as (t & Et & Hblocks).
    rewrite Et. cbn [mbind res_bind].
    destruct (res_mapM_ok_lookup
                (fun d =>
                   class_difficulty_rows gt_annos pred_annos ious
                     difficulty_mode use_superclass num_pr_points c t d)
                (seq 0 (length dts))) as (row & Erow & _).
    - intros d Hdin. apply elem_of_seq in Hdin.
      destruct (Hblocks d ltac:(lia)) as [[-> ->]|[r Er]].
      + rewrite Hthr in Et. inversion Et; subst t.
        eexists. exact Hrows.
      + eexists. exact Er.
    - eexists. exact Erow. }
  unfold precision_curves. rewrite Ecurves. cbn [mbind res_bind].
  destruct (num_pr_points =? 0)%nat eqn:En; [apply Nat.eqb_eq in En; lia|].
  cbn [mbind res_bind].
  eexists. split; [reflexivity|].
  intros i Hi.
  destruct (Hcurves i cur_class Hi) as (row & Hrow & Erow).
  rewrite Hthr in Erow. cbn [mbind res_bind] in Erow.
  destruct (res_mapM_ok_lookup
              (fun d =>
                 class_difficulty_rows gt_annos pred_annos ious
                   difficulty_mode use_superclass num_pr_points cur_class
                   iou_threshold d)
              (seq 0 (length dts))) as (row' & Erow' & Hrow').
  { intros d Hdin. destruct (Hothers cur_class) as (t & Et & Hblocks).
    - eapply list_elem_of_lookup_2. exact Hi.
    - rewrite Hthr in Et. inversion Et; subst t.
      apply elem_of_seq in Hdin.
      destruct (Hblocks d ltac:(lia)) as [[_ ->]|[r Er]];
        eexists; eassumption. }
  rewrite Erow' in Erow. inversion Erow; subst row'.
  destruct (Hrow' diff_idx diff_idx (lookup_seq_lt _ _ _ Hd))
    as (y & Hy & Ey).
  rewrite Hrows in Ey. inversion Ey; subst y.
  rewrite !map_fmap.
  rewrite (list_lookup_total_correct _ _ _
             (eq_trans (list_lookup_fmap _ _ _)
                (f_equal _ (eq_trans (list_lookup_fmap _ _ _)
                              (f_equal _ Hrow))))).
  simpl. rewrite !map_fmap.
  rewrite (list_lookup_total_correct _ _ _
             (eq_trans (list_lookup_fmap _ _ _)
                (f_equal _ (eq_trans (list_lookup_fmap _ _ _)
                              (f_equal _ Hy))))).
  simpl. apply average_precision_of_zeros. exact Hn.
Qed.

Lemma no_accepted_ground_truth_gives_zero_AP_witness :
  exists AP,
    get_evaluation_results (H := Reference.externals)
      [one_car_gt] [one_car_pred] ["Car"; "Pedestrian"] false None 2
      "Overall" false 1
    = Ok (report (H := Reference.externals) ["Car"; "Pedestrian"]
            ["overall"] 2 AP)
    /\ exists q, (AP !!! 1%nat) !!! 0%nat = Fin q /\ q == 0.
Proof.
  pose proof (no_accepted_ground_truth_gives_zero_AP
                (H := Reference.externals)
                [one_car_gt] [one_car_pred] ["Car"; "Pedestrian"] false None
                2 "Overall" false 1 "Pedestrian" (3 # 10) 0) as T.
  cbv zeta in T.
  destruct T as (_ & _ & _ & Hcall).
  - reflexivity.
  - discriminate.
  - repeat constructor.
  - repeat constructor.
  - split; [repeat constructor | reflexivity].
  - lia.
  - intros g p Hin. apply list_elem_of_singleton in Hin. inversion Hin; subst.
    exists [Rejected], [Rejected]. split; [reflexivity|].
    intros Hacc. apply list_elem_of_singleton in Hacc. discriminate.
  - destruct (Hcall ["Car"; "Pedestrian"] ["overall"] eq_refl eq_refl)
      as (AP & E & Hz).
    + simpl. lia.
    + reflexivity.
    + intros c Hc. apply elem_of_cons in Hc as [->|Hc].
      * exists (7 # 10). split; [reflexivity|]. intros d Hd. right.
        assert (d = 0%nat) as -> by (simpl in Hd; lia).
        eexists. vm_compute. reflexivity.
      * apply list_elem_of_singleton in Hc. subst c.
        exists (3 # 10). split; [reflexivity|]. intros d Hd. left.
        split; [reflexivity|]. simpl in Hd. lia.
    + exists AP. split; [exact E|]. apply (Hz 1%nat). reflexivity.
Defined.

(** ** The report *)

Lemma append_assoc (a b c : string) : (a +:+ b) +:+ c = a +:+ b +:+ c.
Proof.
  induction a as [|x a IH]; [reflexivity|].
  change (String x ((a +:+ b) +:+ c) = String x (a +:+ b +:+ c)).
  rewrite IH. reflexivity.
Qed.

Lemma append_nil_r (a : string) : a +:+ "" = a.
Proof.
  induction a as [|x a IH]; [reflexivity|].
  change (String x (a +:+ "") = String x a). rewrite IH. reflexivity.
Qed.

Lemma foldl_append_glue {A} (cell : A -> string) l s0 :
  foldl (fun s x => s +:+ cell x) s0 l = s0 +:+ glue (map cell l).
Proof.
  revert s0. induction l as [|x l IH]; intros s0; simpl.
  - symmetry. apply append_nil_r.
  - rewrite IH. apply append_assoc.
Qed.

Lemma foldl_cells {A} (cell key : A -> string) (val : A -> flt) l s0 d0 :
  foldl (fun '(ret_str, ret_dict) x =>
           (ret_str +:+ cell x, dict_set ret_dict (key x) (val x)))
        (s0, d0) l
  = (foldl (fun s x => s +:+ cell x) s0 l,
     foldl (fun d x => dict_set d (key x) (val x)) d0 l).
Proof.
  revert s0 d0. induction l as [|x l IH]; intros s0 d0; simpl;
    [reflexivity|apply IH].
Qed.

Lemma dict_set_keys d k v : (dict_set d k v).*1 = add_key d.*1 k.
Proof.
  unfold add_key. induction d as [|[k' v'] d IH]; [reflexivity|].
  cbn [dict_set]. rewrite (fmap_cons fst (k', v') d). cbn [fst].
  destruct (bool_decide (k' = k)) eqn:E.
  - apply bool_decide_eq_true in E. subst k'.
    rewrite bool_decide_eq_true_2 by left. reflexivity.
  - apply bool_decide_eq_false in E.
    rewrite (fmap_cons fst (k', v')), IH. cbn [fst].
    destruct (bool_decide (k ∈ d.*1)) eqn:E'.
    + apply bool_decide_eq_true in E'.
      rewrite bool_decide_eq_true_2 by (right; exact E'). reflexivity.
    + apply bool_decide_eq_false in E'.
      rewrite bool_decide_eq_false_2; [reflexivity|].
      intros Hin. apply elem_of_cons in Hin as [->|Hin]; contradiction.
Qed.

Lemma foldl_dict_set_keys {A} (key : A -> string) (val : A -> flt) l d0 :
  (foldl (fun d x => dict_set d (key x) (val x)) d0 l).*1
  = foldl add_key d0.*1 (map key l).
Proof.
  revert d0. induction l as [|x l IH]; intros d0; simpl; [reflexivity|].
  rewrite IH, dict_set_keys. reflexivity.
Qed.

Lemma elem_of_first_occurrences l k : k ∈ first_occurrences l <-> k ∈ l.
Proof.
  unfold first_occurrences.
  rewrite elem_of_reverse, elem_of_remove_dups, elem_of_reverse. reflexivity.
Qed.

Lemma foldl_add_key_first_occurrences l :
  foldl add_key [] l = first_occurrences l.
Proof.
  induction l as [|k l IH] using rev_ind; [reflexivity|].
  rewrite foldl_app. simpl. rewrite IH. unfold add_key.
  assert (E : first_occurrences (l ++ [k])
              = if decide (k ∈ l) then first_occurrences l
                else first_occurrences l ++ [k]).
  { unfold first_occurrences. rewrite reverse_app. simpl.
    destruct (decide_rel elem_of k (reverse l)) as [Hin|Hn];
      rewrite elem_of_reverse in *.
    - rewrite decide_True by exact Hin. reflexivity.
    - rewrite decide_False by exact Hn. rewrite reverse_cons. reflexivity. }
  rewrite E.
  destruct (decide (k ∈ l)) as [Hin|Hn].
  - rewrite bool_decide_eq_true_2; [reflexivity|].
    apply elem_of_first_occurrences. exact Hin.
  - rewrite bool_decide_eq_false_2; [reflexivity|].
    rewrite elem_of_first_occurrences. exact Hn.
Qed.

Lemma map_lookup_total_seq {A} `{Inhabited A} (l : list A) :
  map (fun i => l !!! i) (seq 0 (length l)) = l.
Proof.
  induction l as [|x l IH] using rev_ind; [reflexivity|].
  rewrite length_app. simpl. rewrite Nat.add_1_r, seq_S, map_app. simpl.
  f_equal.
  - rewrite <- IH at 2. apply map_ext_in. intros i Hi.
    apply in_seq in Hi. apply lookup_total_app_l. lia.
  - f_equal. rewrite lookup_total_app_r by lia.
    rewrite Nat.sub_diag. reflexivity.
Qed.

Lemma row_keys_seq (label : string) (difficulty_types : list string) :
  map (fun diff_idx => "AP_" +:+ label +:+ "/" +:+ difficulty_types !!! diff_idx)
      (seq 0 (length difficulty_types))
  = row_keys label difficulty_types.
Proof.
  unfold row_keys.
  rewrite <- (map_lookup_total_seq difficulty_types) at 2.
  rewrite map_map. reflexivity.
Qed.

Section ReportLayout.
Context `{Externals}.

Lemma foldl_rows (cell : nat -> string -> nat -> string)
    (key : nat -> string -> nat -> string) (val : nat -> string -> nat -> flt)
    (l2 : list nat) (l : list (nat * string)) s0 d0 :
  foldl (fun '(ret_str, ret_dict) '(cls_idx, cur_class) =>
           let '(ret_str, ret_dict) :=
             foldl (fun '(ret_str, ret_dict) diff_idx =>
                      (ret_str +:+ cell cls_idx cur_class diff_idx,
                       dict_set ret_dict (key cls_idx cur_class diff_idx)
                                (val cls_idx cur_class diff_idx)))
                   (ret_str +:+ "|" +:+ ljust 12 cur_class +:+ "|", ret_dict)
                   l2 in
           (ret_str +:+ nl, ret_dict))
        (s0, d0) l
  = (s0 +:+ glue (map (fun '(cls_idx, cur_class) =>
                         "|" +:+ ljust 12 cur_class +:+ "|"
                         +:+ glue (map (cell cls_idx cur_class) l2) +:+ nl)
                      l),
     foldl (fun d '(cls_idx, cur_class) =>
              foldl (fun d diff_idx =>
                       dict_set d (key cls_idx cur_class diff_idx)
                                (val cls_idx cur_class diff_idx)) d l2)
           d0 l).
Proof.
  revert s0 d0. induction l as [|[i c] l IH]; intros s0 d0.
  - simpl. f_equal. symmetry. apply append_nil_r.
  - cbn [foldl]. rewrite foldl_cells, foldl_append_glue, IH. f_equal.
    cbn [map glue foldr]. rewrite !append_assoc. reflexivity.
Qed.

Lemma foldl_rows_keys (key : nat -> string -> nat -> string)
    (val : nat -> string -> nat -> flt) (l2 : list nat)
    (l : list (nat * string)) d0 :
  (foldl (fun d '(cls_idx, cur_class) =>
            foldl (fun d diff_idx =>
                     dict_set d (key cls_idx cur_class diff_idx)
                              (val cls_idx cur_class diff_idx)) d l2)
         d0 l).*1
  = foldl add_key d0.*1
      (concat (map (fun '(cls_idx, cur_class) =>
                      map (key cls_idx cur_class) l2) l)).
Proof.
  revert d0. induction l as [|[i c] l IH]; intros d0; [reflexivity|].
  cbn [foldl map concat]. rewrite IH, foldl_app, foldl_dict_set_keys.
  reflexivity.
Qed.

(** The text and the keys of the report, for any array [AP]. *)
Lemma report_layout (classes difficulty_types : list string)
    (num_pr_points : nat) (AP : list (list flt)) :
  let num_difficulties := length difficulty_types in
  (report classes difficulty_types num_pr_points AP).1
  = table_header num_pr_points difficulty_types
    +:+ glue (map (fun '(cls_idx, cur_class) =>
                     table_row cur_class
                       (map (fun diff_idx => (AP !!! cls_idx) !!! diff_idx)
                            (seq 0 num_difficulties)))
                  (zip (seq 0 (length classes)) classes))
    +:+ table_row "mAP" (mean_AP AP num_difficulties)
  /\ (report classes difficulty_types num_pr_points AP).2.*1
     = first_occurrences (table_keys classes difficulty_types).
Proof.
  intros nd. unfold report. fold nd.
  rewrite (foldl_append_glue (fun diff_type => ljust 12 diff_type +:+ "|")).
  rewrite (foldl_rows
             (fun cls_idx _ diff_idx =>
                ljust 12 (format_2f ((AP !!! cls_idx) !!! diff_idx)) +:+ "|")
             (fun _ cur_class diff_idx =>
                "AP_" +:+ cur_class +:+ "/" +:+ difficulty_types !!! diff_idx)
             (fun cls_idx _ diff_idx => (AP !!! cls_idx) !!! diff_idx)).
  fold (mean_AP AP nd).
  rewrite (foldl_cells
             (fun diff_idx =>
                ljust 12 (format_2f (mean_AP AP nd !!! diff_idx)) +:+ "|")
             (fun diff_idx =>
                "AP_mean" +:+ "/" +:+ difficulty_types !!! diff_idx)
             (fun diff_idx => mean_AP AP nd !!! diff_idx)).
  rewrite foldl_append_glue. cbn [fst snd]. split.
  - unfold table_header, table_row. rewrite !append_assoc.
    do 6 f_equal. f_equal.
    + f_equal. apply map_ext. intros [i c]. rewrite map_map. reflexivity.
    + do 3 f_equal. f_equal. f_equal.
      assert (E : map (fun d => mean_AP AP nd !!! d) (seq 0 nd)
                  = mean_AP AP nd).
      { assert (L : length (mean_AP AP nd) = nd)
          by (unfold mean_AP; rewrite length_map, length_seq; reflexivity).
        rewrite <- L at 1. apply map_lookup_total_seq. }
      etrans; [|apply (f_equal (map _) E)]. rewrite map_map. reflexivity.
  - rewrite foldl_dict_set_keys, foldl_rows_keys.
    rewrite <- foldl_app. cbn [fmap list_fmap].
    rewrite foldl_add_key_first_occurrences. f_equal. unfold table_keys.
    f_equal.
    + assert (E : forall z : list (nat * string),
                map (fun '(_, cur_class) =>
                       map (fun diff_idx =>
                              "AP_" +:+ cur_class +:+ "/"
                              +:+ difficulty_types !!! diff_idx) (seq 0 nd)) z
                = map (fun cur_class => row_keys cur_class difficulty_types)
                      z.*2).
      { induction z as [|[i c] z IH]; [reflexivity|].
        cbn [map]. rewrite IH, (fmap_cons snd (i, c) z). cbn [snd].
        rewrite (row_keys_seq c). reflexivity. }
      rewrite E, snd_zip by (rewrite length_seq; lia). reflexivity.
    + apply (row_keys_seq "mean").
Qed.

End ReportLayout.

Lemma res_mapM_Forall2 {A B} (f : A -> res B) l ys :
  res_mapM f l = Ok ys -> Forall2 (fun x y => f x = Ok y) l ys.
Proof.
  revert ys. induction l as [|a l IH]; intros ys E; simpl in E.
  - inversion E. constructor.
  - destruct (f a) as [b|e] eqn:Ea; [|discriminate E]. simpl in E.
    destruct (res_mapM f l) as [bs|e]; [|discriminate E]. simpl in E.
    inversion E; subst. constructor; [exact Ea|]. apply IH. reflexivity.
Qed.

Lemma rows_of_shape {A} (g : string -> list flt -> A) (classes : list string)
    (AP : list (list flt)) (num_difficulties : nat) :
  length AP = length classes ->
  Forall (fun row => length row = num_difficulties) AP ->
  map (fun '(cls_idx, cur_class) =>
         g cur_class
           (map (fun diff_idx => (AP !!! cls_idx) !!! diff_idx)
                (seq 0 num_difficulties)))
      (zip (seq 0 (length classes)) classes)
  = zip_with g classes AP.
Proof.
  intros Hlen Hrows. apply list_eq. intros i.
  rewrite list_lookup_fmap, !lookup_zip_with.
  destruct (classes !! i) as [c|] eqn:Ec.
  - assert (Hi : (i < length classes)%nat)
      by (eapply lookup_lt_Some; exact Ec).
    rewrite (lookup_seq_lt _ _ _ Hi).
    destruct (lookup_lt_is_Some_2 AP i) as [row Er]; [lia|].
    rewrite Er. simpl. rewrite (list_lookup_total_correct _ _ _ Er).
    rewrite Forall_forall in Hrows.
    rewrite <- (Hrows row (list_elem_of_lookup_2 _ _ _ Er)).
    rewrite map_lookup_total_seq. reflexivity.
  - destruct (seq 0 (length classes) !! i); reflexivity.
Qed.

Section ReportOrder.
Context `{Externals}.

Lemma evaluate_AP_shape gt_annos pred_annos classes use_superclass
    iou_thresholds num_pr_points difficulty_mode ap_with_heading num_parts
    cls dts AP :
  evaluate_AP gt_annos pred_annos classes use_superclass iou_thresholds
              num_pr_points difficulty_mode ap_with_heading num_parts
  = Ok (cls, dts, AP) ->
  scored_classes classes use_superclass = Ok cls
  /\ difficulty_types_of difficulty_mode = Ok dts
  /\ length AP = length cls
  /\ Forall (fun row => length row = length dts) AP.
Proof.
  unfold evaluate_AP.
  destruct (assert (bool_decide (length gt_annos = length pred_annos)))
    as [[]|e]; [|discriminate].
  destruct (assert (bool_decide (difficulty_mode ∈ _))) as [[]|e];
    [|discriminate].
  destruct (scored_classes classes use_superclass) as [cls'|e];
    [|discriminate].
  cbn [mbind res_bind].
  destruct (compute_iou3d _ _ _ _) as [ious|e]; [|discriminate].
  destruct (difficulty_types_of difficulty_mode) as [dts'|e];
    [|discriminate].
  cbn [mbind res_bind].
  destruct (precision_curves _ _ _ _) as [curves|e] eqn:Ec; [|discriminate].
  destruct (num_pr_points =? 0)%nat; [discriminate|].
  cbn [mbind res_bind]. intros E. inversion E; subst. clear E.
  split; [reflexivity|]. split; [reflexivity|].
  unfold precision_curves in Ec. apply res_mapM_Forall2 in Ec.
  split.
  - rewrite !length_map. symmetry. eapply Forall2_length. exact Ec.
  - rewrite !Forall_map. eapply Forall2_Forall_r; [exact Ec|].
    apply Forall_forall. intros c _ row Erow.
    destruct (dict_get _ c) as [t|e]; [|discriminate Erow].
    cbn [mbind res_bind] in Erow. apply res_mapM_Forall2 in Erow.
    simpl. rewrite !length_map.
    rewrite <- (Forall2_length _ _ _ Erow), length_seq. reflexivity.
Qed.

Lemma scored_classes_ok (classes : list string) (use_superclass : bool)
    (cls : list string) :
  scored_classes classes use_superclass = Ok cls ->
  cls = if use_superclass
        then "Vehicle" ::
             filter (fun cls_name => cls_name ∉ ["Car"; "Bus"; "Truck"])
                    classes
        else classes.
Proof.
  unfold scored_classes. destruct use_superclass.
  - cbv zeta.
    match goal with |- mbind _ ?m = _ -> _ => destruct m as [[]|e] end;
      [|discriminate].
    cbn [mbind res_bind]. intros E. inversion E. reflexivity.
  - intros E. inversion E. reflexivity.
Qed.

End ReportOrder.


(** C8, the claim as written.  The caller lists the pedestrians first and
    asks for the superclass: the row and the keys of "Vehicle" come first,
    so that neither the rows nor the keys are those of the [classes]
    argument in the caller's order. *)
Lemma vehicle_row_precedes_caller_order :
  exists text dict,
    get_evaluation_results (H := Reference.externals)
      [one_car_gt] [one_car_pred] pedestrian_first true None 2 "Overall"
      false 1
    = Ok (text, dict)
    /\ text = table_header 2 ["overall"]
              +:+ table_row (H := Reference.externals) "Vehicle" [Fin 100]
              +:+ table_row (H := Reference.externals) "Pedestrian" [Fin 0]
              +:+ table_row (H := Reference.externals) "mAP" [Fin 50]
    /\ dict.*1 = ["AP_Vehicle/overall"; "AP_Pedestrian/overall";
                  "AP_mean/overall"]
    /\ dict.*1 <> first_occurrences (table_keys pedestrian_first ["overall"])
    /\ forall AP,
         text <> table_header 2 ["overall"]
                 +:+ glue (zip_with (table_row (H := Reference.externals))
                                    pedestrian_first AP)
                 +:+ table_row (H := Reference.externals) "mAP"
                       (mean_AP AP 1).
Proof.
  eexists. eexists. split; [vm_compute; reflexivity|].
  split; [vm_compute; reflexivity|]. split; [reflexivity|]. split.
  - intros E. vm_compute in E. discriminate E.
  - intros [|row AP] E; vm_compute in E; discriminate E.
Qed.

(** C8, amended.  Whenever [get_evaluation_results] returns, the text is the
    header line with the difficulty types of the mode in their fixed order,
    then one line per scored class, then the line of the means; the keys of
    the map are those of the scored classes, class by class and difficulty
    by difficulty, then those of the means, each key where it is first
    assigned.  The scored classes are the caller's in the caller's order
    when [use_superclass] is off; otherwise they are "Vehicle" followed by
    the caller's classes other than Car, Bus and Truck. *)
Theorem report_follows_scored_classes `{Externals}
    (gt_annos pred_annos : list Anno) (classes : list string)
    (use_superclass : bool) (iou_thresholds : option (gmap string Q))
    (num_pr_points : nat) (difficulty_mode : string)
    (ap_with_heading : bool) (num_parts : nat)
    (text : string) (dict : list (string * flt)) :
  get_evaluation_results gt_annos pred_annos classes use_superclass
    iou_thresholds num_pr_points difficulty_mode ap_with_heading num_parts
  = Ok (text, dict) ->
  let scored :=
    if use_superclass
    then "Vehicle" ::
         filter (fun cls_name => cls_name ∉ ["Car"; "Bus"; "Truck"]) classes
    else classes in
  exists difficulty_types AP,
    difficulty_types_of difficulty_mode = Ok difficulty_types
    /\ length AP = length scored
    /\ Forall (fun row => length row = length difficulty_types) AP
    /\ text = table_header num_pr_points difficulty_types
              +:+ glue (zip_with table_row scored AP)
              +:+ table_row "mAP" (mean_AP AP (length difficulty_types))
    /\ dict.*1 = first_occurrences (table_keys scored difficulty_types).
Proof.
  intros E scored. unfold get_evaluation_results in E.
  destruct (evaluate_AP _ _ _ _ _ _ _ _ _) as [[[cls dts] AP]|e] eqn:Ev;
    [|discriminate E].
  cbn [mbind res_bind] in E. inversion E as [E']. clear E.
  destruct (evaluate_AP_shape _ _ _ _ _ _ _ _ _ _ _ _ Ev)
    as (Hc & Hd & HL & HF).
  apply scored_classes_ok in Hc. fold scored in Hc. subst cls.
  destruct (report_layout scored dts num_pr_points AP) as [T K].
  exists dts, AP. split; [exact Hd|]. split; [exact HL|]. split; [exact HF|].
  split.
  - change text with (text, dict).1.
    rewrite <- E', T, (rows_of_shape table_row scored AP (length dts) HL HF).
    reflexivity.
  - change dict with (text, dict).2. rewrite <- E'. exact K.
Qed.

Lemma report_follows_scored_classes_witness :
  exists text dict,
    get_evaluation_results (H := Reference.externals)
      [one_car_gt] [one_car_pred] ["Car"] false None 2 "Overall" false 1
    = Ok (text, dict)
    /\ dict.*1 = first_occurrences (table_keys ["Car"] ["overall"]).
Proof.
  pose (r := report (H := Reference.externals) ["Car"] ["overall"] 2
               [[Fin (200 # 2)]]).
  assert (E : get_evaluation_results (H := Reference.externals)
                [one_car_gt] [one_car_pred] ["Car"] false None 2 "Overall"
                false 1
              = Ok (r.1, r.2)) by (vm_compute; reflexivity).
  exists r.1, r.2. split; [exact E|].
  destruct (report_follows_scored_classes (H := Reference.externals)
              _ _ _ _ _ _ _ _ _ _ _ E) as (dts & AP & Hd & _ & _ & _ & K).
  inversion Hd; subst dts. exact K.
Defined.

(** * Further properties of the evaluator *)

(** * Further properties of the evaluator *)

(** ** Exceptions through the loops *)

Lemma foldlM_error {S A} (f : S -> A -> res S) l : forall s e,
  foldlM f s l = Err e -> exists s' x, x ∈ l /\ f s' x = Err e.
Proof.
  induction l as [|a l IH]; intros s e E; [discriminate E|].
  simpl in E. destruct (f s a) as [s1|e1] eqn:Ea.
  - destruct (IH _ _ E) as (s' & x & Hx & Ex).
    exists s', x. split; [right; exact Hx|exact Ex].
  - inversion E; subst. exists s, a. split; [left|exact Ea].
Qed.

Lemma foldlM_total {S A} (f : S -> A -> res S) l :
  (forall s x, x ∈ l -> exists s', f s x = Ok s') ->
  forall s, exists s', foldlM f s l = Ok s'.
Proof.
  induction l as [|a l IH]; intros Hf s; [exists s; reflexivity|].
  destruct (Hf s a ltac:(left)) as [s1 E1]. simpl. rewrite E1.
  apply IH. intros s0 x Hx. apply Hf. right. exact Hx.
Qed.

Lemma res_mapM_error {A B} (f : A -> res B) l e :
  res_mapM f l = Err e -> exists x, x ∈ l /\ f x = Err e.
Proof.
  induction l as [|a l IH]; intros E; [discriminate E|].
  simpl in E. destruct (f a) as [b|e1] eqn:Ea.
  - destruct (res_mapM f l) as [bs|e2]; [discriminate E|].
    inversion E; subst. destruct (IH eq_refl) as (x & Hx & Ex).
    exists x. split; [right; exact Hx|exact Ex].
  - inversion E; subst. exists a. split; [left|exact Ea].
Qed.

(** ** get_thresholds: when it raises, and what it returns *)

Lemma recall_sum_nonneg num_gt len i : 0 <= recall_sum num_gt len i.
Proof.
  assert (Hq : forall k, 0 <= Qn k / Qn num_gt).
  { intros k. pose proof (Qn_nonneg k) as Hk.
    pose proof (Qn_nonneg num_gt) as Hg.
    destruct (Qlt_le_dec 0 (Qn num_gt)) as [Hpos|Hz].
    - apply Qle_shift_div_l; [exact Hpos|lra].
    - assert (Ez : Qn num_gt == 0) by lra.
      unfold Qdiv. rewrite Ez. unfold Qinv. simpl. lra. }
  unfold recall_sum. destruct (i <? len - 1)%nat.
  - pose proof (Hq (i + 2)%nat). pose proof (Hq (i + 1)%nat). lra.
  - pose proof (Hq (i + 1)%nat). lra.
Qed.

(** A turn of the loop raises nothing but [ZeroDivisionError], and only
    when one of the two counts is zero. *)
Lemma thresholds_step_error num_gt num_pr_points len st entry e :
  thresholds_step num_gt num_pr_points len st entry = Err e ->
  e = ZeroDivisionError /\ (num_gt = 0 \/ num_pr_points = 0)%nat.
Proof.
  destruct st as [rl ths], entry as [i x]. unfold thresholds_step.
  destruct (num_gt =? 0)%nat eqn:Eg.
  { apply Nat.eqb_eq in Eg. intros E. inversion E. auto. }
  cbn [mbind res_bind]. destruct (_ && _); [discriminate|].
  destruct (num_pr_points =? 0)%nat eqn:En; [|discriminate].
  apply Nat.eqb_eq in En. intros E. inversion E. auto.
Qed.

Lemma thresholds_step_total num_gt num_pr_points len st entry :
  (1 <= num_gt)%nat -> (1 <= num_pr_points)%nat ->
  exists st', thresholds_step num_gt num_pr_points len st entry = Ok st'.
Proof.
  intros Hg Hn.
  destruct (thresholds_step num_gt num_pr_points len st entry) as [st'|e]
    eqn:E; [exists st'; reflexivity|].
  apply thresholds_step_error in E as [_ [?|?]]; lia.
Qed.

(** A turn appends copies of its score, at least one unless the score is
    skipped. *)
Lemma thresholds_step_appends num_gt num_pr_points len rl ths i x st' :
  thresholds_step num_gt num_pr_points len (rl, ths) (i, x) = Ok st' ->
  exists k, st'.2 = ths ++ replicate k x
            /\ (Qltb (recall_sum num_gt len i) (2 * rl)
                && (i <? len - 1)%nat = false -> (1 <= k)%nat).
Proof.
  unfold thresholds_step.
  destruct (num_gt =? 0)%nat; [discriminate|]. cbn [mbind res_bind].
  fold (recall_sum num_gt len i).
  destruct (_ && _) eqn:Eskip.
  - intros E. inversion E. exists 0%nat. simpl. rewrite app_nil_r.
    split; [reflexivity|discriminate].
  - destruct (num_pr_points =? 0)%nat; [discriminate|].
    cbn [mbind res_bind]. intros E. inversion E as [E'].
    destruct (while_append_fuel
                (while_turns (recall_sum num_gt len i + eps)
                   (1 / Qn num_pr_points) (rl + 1 / Qn num_pr_points))
                (recall_sum num_gt len i + eps) (1 / Qn num_pr_points) x
                (rl + 1 / Qn num_pr_points) (ths ++ [x]))
      as (t & _ & -> & _).
    exists (S t). simpl. rewrite <- app_assoc. split; [reflexivity|lia].
Qed.

(** The thresholds after the loop has run over some of the scores. *)
Lemma thresholds_loop_appends num_gt num_pr_points len
    (l : list (nat * Qc)) : forall st st',
  foldlM (thresholds_step num_gt num_pr_points len) st l = Ok st' ->
  exists ks, length ks = length l
             /\ st'.2 = st.2 ++ concat (zip_with replicate ks l.*2).
Proof.
  induction l as [|[i x] l IH]; intros [rl ths] st' E.
  - inversion E. exists []. simpl. rewrite app_nil_r. split; reflexivity.
  - cbn [foldlM] in E.
    destruct (thresholds_step num_gt num_pr_points len (rl, ths) (i, x))
      as [st1|e] eqn:E1; cbn [mbind res_bind] in E; [|discriminate E].
    destruct (thresholds_step_appends _ _ _ _ _ _ _ _ E1) as (k & Ek & _).
    destruct (IH _ _ E) as (ks & Hks & Eks).
    exists (k :: ks). split; [simpl; lia|].
    rewrite Eks, Ek. simpl. rewrite <- app_assoc. reflexivity.
Qed.

Lemma elem_of_concat {A} (x : A) (ls : list (list A)) :
  x ∈ concat ls <-> exists l, x ∈ l /\ l ∈ ls.
Proof.
  induction ls as [|l0 ls IH]; simpl.
  - split; [intros Hx; apply elem_of_nil in Hx; destruct Hx|].
    intros (l & _ & Hl). apply elem_of_nil in Hl. destruct Hl.
  - rewrite elem_of_app, IH. split.
    + intros [Hx|(l & Hx & Hl)].
      * exists l0. split; [exact Hx|left].
      * exists l. split; [exact Hx|right; exact Hl].
    + intros (l & Hx & Hl). apply elem_of_cons in Hl as [->|Hl].
      * left. exact Hx.
      * right. exists l. split; assumption.
Qed.

Lemma sorted_scores_descend (scores : list Qc) :
  StronglySorted (flip Qcle) (reverse (merge_sort Qcle scores)).
Proof.
  apply Sorted_StronglySorted; [apply _|].
  apply Sorted_reverse. apply Sorted_merge_sort. apply _.
Qed.

Lemma replicated_descend (sc : list Qc) : forall ks,
  StronglySorted (flip Qcle) sc ->
  StronglySorted (flip Qcle) (concat (zip_with replicate ks sc)).
Proof.
  induction sc as [|x sc IH]; intros ks Hs.
  - destruct ks; constructor.
  - destruct ks as [|k ks]; [constructor|]. simpl.
    apply StronglySorted_inv in Hs as [Hs Hx].
    apply StronglySorted_app_2.
    + intros a b Ha Hb. apply elem_of_replicate in Ha as [-> _].
      apply elem_of_concat in Hb as (r & Hb & Hr).
      apply elem_of_lookup_zip_with in Hr as (j & k' & y & -> & _ & Hy).
      apply elem_of_replicate in Hb as [-> _].
      rewrite Forall_forall in Hx. apply Hx.
      eapply list_elem_of_lookup_2. exact Hy.
    + clear. induction k as [|k IHk]; simpl; [constructor|].
      constructor; [exact IHk|]. apply Forall_replicate. reflexivity.
    + apply IH. exact Hs.
Qed.

Lemma replicated_elements (sc : list Qc) ks :
  Forall (fun t => t ∈ sc) (concat (zip_with replicate ks sc)).
Proof.
  apply Forall_forall. intros t Ht.
  apply elem_of_concat in Ht as (r & Ht & Hr).
  apply elem_of_lookup_zip_with in Hr as (j & k' & y & -> & _ & Hy).
  apply elem_of_replicate in Ht as [-> _].
  eapply list_elem_of_lookup_2. exact Hy.
Qed.

Lemma zip_seq_snd {A} (l : list A) : (zip (seq 0 (length l)) l).*2 = l.
Proof. apply snd_zip. rewrite length_seq. lia. Qed.

(** X1.  [get_thresholds] fails only with ZeroDivisionError, and exactly
    when there is a score and [num_gt] or [num_pr_points] is 0 (the
    divisions of lines 161 and 169); on an empty list of scores it returns
    the empty list, whatever the two numbers. *)
Theorem get_thresholds_raises_iff (scores : list Qc)
    (num_gt num_pr_points : nat) (e : error) :
  (get_thresholds scores num_gt num_pr_points = Err e
   <-> e = ZeroDivisionError /\ scores <> []
       /\ (num_gt = 0 \/ num_pr_points = 0)%nat)
  /\ get_thresholds [] num_gt num_pr_points = Ok [].
Proof.
  split; [|reflexivity].
  unfold get_thresholds.
  set (sc := reverse (merge_sort Qcle scores)).
  assert (Hperm : sc ≡ₚ scores).
  { unfold sc. rewrite reverse_Permutation. apply merge_sort_Permutation. }
  split.
  - intros E.
    destruct (foldlM _ _ _) as [[rl ths]|e'] eqn:Ef; [discriminate E|].
    cbn [mbind res_bind] in E. inversion E; subst e'. clear E.
    destruct (foldlM_error _ _ _ _ Ef) as (st & x & Hx & Ex).
    apply thresholds_step_error in Ex as [-> Hz].
    split; [reflexivity|]. split; [|exact Hz].
    intros ->. apply Permutation_nil_r in Hperm. rewrite Hperm in Hx.
    apply elem_of_nil in Hx. exact Hx.
  - intros (-> & Hne & Hz).
    destruct sc as [|x sc'] eqn:Esc.
    { exfalso. apply Hne. apply Permutation_nil_r. symmetry. exact Hperm. }
    cbn [length seq zip zip_with foldlM].
    assert (E1 : thresholds_step num_gt num_pr_points (S (length sc'))
                   (0, []) (0%nat, x) = Err ZeroDivisionError).
    { unfold thresholds_step.
      destruct (num_gt =? 0)%nat eqn:Eg; [reflexivity|].
      cbn [mbind res_bind].
      fold (recall_sum num_gt (S (length sc')) 0).
      rewrite (proj2 (Qltb_ge _ _)).
      2:{ pose proof (recall_sum_nonneg num_gt (S (length sc')) 0). lra. }
      cbn [andb].
      destruct (num_pr_points =? 0)%nat eqn:En; [reflexivity|].
      apply Nat.eqb_neq in Eg, En. lia. }
    rewrite E1. reflexivity.
Qed.


(** X2.  Whenever [get_thresholds] returns, every threshold is one of the
    scores it was given, the thresholds are in non-increasing order, and, if
    there is a score, the first threshold is the greatest score. *)
Theorem thresholds_descend_through_scores (scores : list Qc)
    (num_gt num_pr_points : nat) (thresholds : list Qc) :
  get_thresholds scores num_gt num_pr_points = Ok thresholds ->
  Forall (fun t => t ∈ scores) thresholds
  /\ StronglySorted (flip Qcle) thresholds
  /\ (scores <> [] ->
      exists top rest,
        thresholds = top :: rest
        /\ forall s, s ∈ scores -> (s <= top)%Qc).
Proof.
  unfold get_thresholds.
  set (sc := reverse (merge_sort Qcle scores)).
  assert (Hperm : sc ≡ₚ scores).
  { unfold sc. rewrite reverse_Permutation. apply merge_sort_Permutation. }
  pose proof (sorted_scores_descend scores) as Hsorted. fold sc in Hsorted.
  intros E.
  destruct (foldlM _ _ _) as [[rl ths]|e'] eqn:Ef; [|discriminate E].
  cbn [mbind res_bind] in E. inversion E; subst ths. clear E.
  destruct (thresholds_loop_appends _ _ _ _ _ _ Ef) as (ks & Hks & Eks).
  simpl in Eks. rewrite zip_seq_snd in Eks.
  split; [|split].
  - rewrite Eks. eapply Forall_impl; [apply replicated_elements|].
    intros t Ht. simpl in Ht. rewrite <- Hperm. exact Ht.
  - rewrite Eks. apply replicated_descend. exact Hsorted.
  - intros Hne. clear ks Hks Eks.
    destruct sc as [|x sc'] eqn:Esc.
    { exfalso. apply Hne. apply Permutation_nil_r. symmetry. exact Hperm. }
    cbn [length seq zip zip_with foldlM] in Ef.
    destruct (thresholds_step num_gt num_pr_points (S (length sc')) (0, [])
                (0%nat, x)) as [st1|e] eqn:E1;
      cbn [mbind res_bind] in Ef; [|discriminate Ef].
    destruct (thresholds_step_appends _ _ _ _ _ _ _ _ E1) as (k & Ek & Hk).
    assert (Hk1 : (1 <= k)%nat).
    { apply Hk. rewrite (proj2 (Qltb_ge _ _)); [reflexivity|].
      pose proof (recall_sum_nonneg num_gt (S (length sc')) 0). lra. }
    destruct (thresholds_loop_appends _ _ _ _ _ _ Ef) as (ks & _ & Eks).
    simpl in Eks. rewrite Ek in Eks.
    destruct k as [|k]; [lia|].
    exists x. eexists. split; [exact Eks|].
    intros s Hs. rewrite <- Hperm in Hs.
    apply elem_of_cons in Hs as [->|Hs]; [reflexivity|].
    apply StronglySorted_inv in Hsorted as [_ Hx].
    rewrite Forall_forall in Hx. apply (Hx s Hs).
Qed.

Lemma thresholds_descend_through_scores_witness :
  exists thresholds,
    get_thresholds [Q2Qc (5 # 10); Q2Qc (9 # 10)] 3 4 = Ok thresholds
    /\ StronglySorted (flip Qcle) thresholds.
Proof.
  eexists. split; [vm_compute; reflexivity|].
  apply (thresholds_descend_through_scores
           [Q2Qc (5 # 10); Q2Qc (9 # 10)] 3 4).
  vm_compute. reflexivity.
Defined.

(** The state after the last score. *)
Lemma thresholds_last_turn (scores : list Qc) (num_gt num_pr_points : nat) :
  (1 <= length scores)%nat -> (length scores <= num_gt)%nat ->
  (1 <= num_pr_points)%nat -> (num_pr_points <= pr_points_max)%nat ->
  exists recall_level thresholds,
    get_thresholds scores num_gt num_pr_points = Ok thresholds
    /\ recall_level == Qn (length thresholds) * (1 / Qn num_pr_points)
    /\ (length thresholds <= num_pr_points + 1)%nat
    /\ 2 * (Qn (length scores) / Qn num_gt) + eps <= 2 * recall_level.
Proof.
  intros H1 Hlen Hn Hmax. unfold get_thresholds.
  set (sc := reverse (merge_sort Qcle scores)).
  assert (Hsc : length sc = length scores).
  { unfold sc. rewrite length_reverse.
    apply Permutation_length, merge_sort_Permutation. }
  assert (HG : (1 <= num_gt)%nat) by lia.
  destruct (thresholds_loop num_gt num_pr_points sc (length sc - 1) Hn Hmax
              ltac:(lia) ltac:(lia)) as ([rl ths] & E & Hinv).
  destruct (lookup_lt_is_Some_2 sc (length sc - 1) ltac:(lia)) as [x Hx].
  assert (Ez : zip (seq 0 (length sc)) sc
               = take (length sc - 1) (zip (seq 0 (length sc)) sc)
                 ++ [((length sc - 1)%nat, x)]).
  { rewrite <- (take_S_r _ _ _ (zip_seq_lookup sc _ x Hx)).
    rewrite take_ge; [reflexivity|].
    rewrite length_zip, length_seq. lia. }
  rewrite Ez, (foldlM_snoc _ _ _ _ _ E).
  destruct (thresholds_inv_step num_gt num_pr_points (length sc) Hn Hmax
              ltac:(lia) (length sc - 1) rl ths x ltac:(lia) Hinv)
    as (rl' & k & E' & (I1 & _ & IN & _)).
  destruct (thresholds_step_spec num_gt num_pr_points (length sc) HG Hn
              rl ths (length sc - 1) x)
    as [(_ & Hi & _)|(t & Et & _ & Hex & _)]; [lia|].
  rewrite E' in Et. inversion Et as [[Erl Eths]].
  rewrite E'. cbn [mbind res_bind].
  exists rl', (ths ++ replicate k x).
  split; [reflexivity|]. split; [exact I1|]. split; [exact IN|].
  rewrite <- Erl in Hex.
  rewrite (recall_sum_last num_gt (length sc) HG (length sc - 1)) in Hex
    by lia.
  assert (EQ : Qn (length scores) == Qn (length sc - 1) + 1).
  { rewrite <- Qn_S. replace (S (length sc - 1)) with (length scores) by lia.
    reflexivity. }
  unfold Qdiv. rewrite EQ.
  assert (Er : (2 * Qn (length sc - 1) + 2) * / Qn num_gt
               == 2 * ((Qn (length sc - 1) + 1) * / Qn num_gt)) by ring.
  rewrite Er in Hex. exact Hex.
Qed.



(** ** The greedy passes: what is counted *)

Lemma filter_seq_lookup_total {A} `{Inhabited A} (P : A -> Prop)
    `{!forall x, Decision (P x)} (l : list A) :
  length (filter (fun i => P (l !!! i)) (seq 0 (length l)))
  = length (filter P l).
Proof.
  induction l as [|x l IH] using rev_ind; [reflexivity|].
  rewrite length_app. simpl. rewrite Nat.add_1_r, seq_S.
  rewrite !filter_app, !length_app. simpl. f_equal.
  - rewrite <- IH. f_equal. apply filter_ext_in. intros i Hi.
    apply elem_of_seq in Hi. rewrite lookup_total_app_l by lia. reflexivity.
  - assert (E : (l ++ [x]) !!! length l = x).
    { rewrite lookup_total_app_r by lia. rewrite Nat.sub_diag. reflexivity. }
    destruct (decide (P x)) as [Hx|Hx].
    + rewrite !filter_cons_True by (try rewrite E; exact Hx). reflexivity.
    + rewrite !filter_cons_False by (try rewrite E; exact Hx). reflexivity.
Qed.

Lemma lookup_total_elem_of {A} `{Inhabited A} (l : list A) i x :
  l !!! i = x -> x <> inhabitant -> x ∈ l.
Proof.
  intros E Hx. destruct (l !! i) as [y|] eqn:Ei.
  - rewrite (list_lookup_total_correct _ _ _ Ei) in E. subst y.
    eapply list_elem_of_lookup_2. exact Ei.
  - exfalso. apply Hx. rewrite <- E, list_lookup_total_alt, Ei. reflexivity.
Qed.

(** Taking one index out of a counted set. *)
Lemma filter_seq_remove (P P' : nat -> Prop)
    `{!forall j, Decision (P j), !forall j, Decision (P' j)} (j n : nat) :
  (j < n)%nat -> ~ P' j ->
  (forall j', j' <> j -> P' j' <-> P j') ->
  length (filter P (seq 0 n))
  = (length (filter P' (seq 0 n)) + if decide (P j) then 1 else 0)%nat.
Proof.
  intros Hj Hnot Hsame.
  assert (Hbelow : forall m, (m <= j)%nat ->
            length (filter P (seq 0 m)) = length (filter P' (seq 0 m))).
  { intros m Hm. f_equal. apply filter_ext_in. intros j' Hj'.
    apply elem_of_seq in Hj'. symmetry. apply Hsame. lia. }
  induction n as [|n IH]; [lia|].
  rewrite seq_S, !filter_app, !length_app. simpl.
  destruct (decide (j = n)) as [->|Hne].
  - rewrite (Hbelow n) by lia.
    rewrite (filter_cons_False P' n) by exact Hnot. simpl.
    destruct (decide (P n)) as [Hn|Hn].
    + rewrite filter_cons_True by exact Hn. simpl. lia.
    + rewrite filter_cons_False by exact Hn. simpl. lia.
  - rewrite IH by lia.
    destruct (decide (P n)) as [Hn|Hn].
    + rewrite filter_cons_True by exact Hn.
      rewrite filter_cons_True by (apply Hsame; [lia|exact Hn]). simpl. lia.
    + rewrite filter_cons_False by exact Hn.
      rewrite filter_cons_False
        by (intros Hn'; apply Hn; apply Hsame; [lia|exact Hn']).
      simpl. lia.
Qed.

Section AccumulateFacts.
Variables (iou : Mat) (pred_scores : list Qc).
Variables (gt_flag pred_flag : list flag).
Variable iou_threshold : Q.

(** The prediction picked for a row overlaps it by more than the
    threshold. *)
Lemma accumulate_inner_overlap asg i n j :
  (foldl (accumulate_inner_step iou pred_scores pred_flag iou_threshold
            asg i)
         (None, Q2Qc (-1)) (seq 0 n)).1 = Some j ->
  Flt.gtb (mat_get iou i j) (Fin iou_threshold) = true.
Proof.
  induction n as [|n IH]; [discriminate|].
  rewrite seq_S, foldl_app. simpl.
  destruct (foldl _ _ (seq 0 n)) as [d ds]. simpl in IH.
  unfold accumulate_inner_step.
  case_bool_decide as Hrej; [exact IH|].
  destruct (asg !!! n : bool); [exact IH|].
  destruct (Flt.gtb (mat_get iou i n) (Fin iou_threshold)) eqn:Eg;
    simpl; [|exact IH].
  case_bool_decide as Hlt; simpl; [|exact IH].
  intros E. inversion E; subst. exact Eg.
Qed.

Lemma accumulate_step_scores st i :
  (i < shape0 iou)%nat ->
  length (assigned st) = shape1 iou ->
  let st' := accumulate_step iou pred_scores gt_flag pred_flag iou_threshold
               st i in
  accum st' = accum st
  \/ exists s, true_positive_score iou pred_scores gt_flag pred_flag
                 iou_threshold s
               /\ accum st' = accum st ++ [s].
Proof.
  intros Hi Hlen. unfold accumulate_step.
  case_bool_decide as Hrej; [left; reflexivity|].
  pose proof (accumulate_inner_cases iou pred_scores pred_flag iou_threshold
                (assigned st) i (shape1 iou)) as Hin.
  pose proof (accumulate_inner_overlap (assigned st) i (shape1 iou)) as Hov.
  fold (accumulate_inner iou pred_scores pred_flag iou_threshold
          (assigned st) i) in Hin, Hov.
  destruct (accumulate_inner _ _ _ _ _ _) as [d ds]. simpl in Hin, Hov.
  destruct Hin as [[-> ->]|(j & -> & Hj & Hfree & Hcls & Hds & Eds)].
  - rewrite bool_decide_eq_true_2 by reflexivity. simpl.
    case_bool_decide; left; reflexivity.
  - rewrite bool_decide_eq_false_2
      by (intros E; rewrite E in Hds; apply (Qclt_not_eq _ _ Hds);
          reflexivity).
    simpl.
    destruct (bool_decide (gt_flag !!! i = Ignored)
              || bool_decide (pred_flag !!! j = Ignored)) eqn:Eign.
    + left. reflexivity.
    + right. simpl. exists (pred_scores !!! j). split; [|reflexivity].
      apply orb_false_iff in Eign as [Eg Ep].
      apply bool_decide_eq_false in Eg, Ep.
      exists i, j. split; [exact Hi|]. split; [exact Hj|].
      split; [destruct (gt_flag !!! i); congruence|].
      split; [destruct (pred_flag !!! j); congruence|].
      split; [apply Hov; reflexivity|reflexivity].
Qed.

Lemma accumulate_pass_scores t :
  (t <= shape0 iou)%nat ->
  Forall (true_positive_score iou pred_scores gt_flag pred_flag
            iou_threshold)
         (accum (foldl (accumulate_step iou pred_scores gt_flag pred_flag
                          iou_threshold)
                       (mkPass (replicate (shape1 iou) false) [] 0 0 [])
                       (seq 0 t))).
Proof.
  induction t as [|t IH]; intros Ht; [constructor|].
  rewrite seq_S, foldl_app. simpl.
  pose proof (proj1 (accumulate_pass_inv iou pred_scores gt_flag pred_flag
                       iou_threshold t)) as (Hlen & _).
  set (st := foldl _ _ (seq 0 t)) in *.
  destruct (accumulate_step_scores st t ltac:(lia) Hlen)
    as [->|(s & Hs & ->)]; [apply IH; lia|].
  apply Forall_app. split; [apply IH; lia|].
  constructor; [exact Hs|constructor].
Qed.

End AccumulateFacts.

Lemma accumulate_scores_length (iou : Mat) (pred_scores : list Qc)
    (gt_flag pred_flag : list flag) (iou_threshold : Q) :
  shape0 iou = length gt_flag ->
  (length (accumulate_scores iou pred_scores gt_flag pred_flag iou_threshold)
   <= count_accepted gt_flag)%nat.
Proof.
  intros Hshape.
  pose proof (proj2 (accumulate_pass_inv iou pred_scores gt_flag pred_flag
                       iou_threshold (shape0 iou))) as Hle.
  simpl in Hle. unfold accumulate_scores, accumulate_pass.
  eapply Nat.le_trans; [exact Hle|].
  rewrite Hshape.
  pose proof (filter_seq_lookup_total (fun f => f = Accepted) gt_flag) as E.
  cbv beta in E. unfold count_accepted. rewrite E. reflexivity.
Qed.

(** X4.  On an IoU matrix with one row per ground-truth flag and one column
    per prediction flag and score, [accumulate_scores] returns at most as
    many scores as there are accepted ground truths (flag 0), and each score
    it returns is the score of an accepted prediction whose IoU with an
    accepted ground truth is above the threshold. *)
Theorem accumulated_scores_are_true_positives (iou : Mat)
    (pred_scores : list Qc) (gt_flag pred_flag : list flag)
    (iou_threshold : Q) :
  shape0 iou = length gt_flag ->
  length pred_flag = shape1 iou -> length pred_scores = shape1 iou ->
  let scores := accumulate_scores iou pred_scores gt_flag pred_flag
                  iou_threshold in
  (length scores <= count_accepted gt_flag)%nat
  /\ Forall (true_positive_score iou pred_scores gt_flag pred_flag
               iou_threshold) scores.
Proof.
  intros Hshape _ _ scores. split.
  - apply accumulate_scores_length. exact Hshape.
  - apply accumulate_pass_scores. lia.
Qed.

Lemma accumulated_scores_are_true_positives_witness :
  (length (accumulate_scores crossed_iou crossed_scores crossed_gt_flag
             crossed_pred_flag (1 # 2))
   <= count_accepted crossed_gt_flag)%nat.
Proof.
  apply (accumulated_scores_are_true_positives crossed_iou crossed_scores
           crossed_gt_flag crossed_pred_flag (1 # 2));
    reflexivity.
Defined.


Section StatisticsCounts.
Variables (iou : Mat) (pred_scores : list Qc).
Variables (gt_flag pred_flag : list flag).
Variable iou_threshold : Q.
Variable score_threshold : Qc.

Let under := under_threshold pred_scores score_threshold.

(** After [t] rows: every accepted row is a true positive, a false
    negative or matched to an ignored prediction; every accepted prediction
    that is not under the threshold is still free, or matched to an
    accepted row, or matched to an ignored row. *)
Lemma statistics_pass_counts t :
  let st := foldl (statistics_step iou pred_scores gt_flag pred_flag
                     iou_threshold score_threshold)
                  (mkPass (replicate (shape1 iou) false) [] 0 0 [])
                  (seq 0 t) in
  (tp st + fn st
   + length (filter (fun ij => gt_flag !!! ij.1 = Accepted
                               /\ pred_flag !!! ij.2 = Ignored) (matched st))
   = length (filter (fun i => gt_flag !!! i = Accepted) (seq 0 t)))%nat
  /\ (tp st
      + length (filter (fun ij => gt_flag !!! ij.1 = Ignored
                                  /\ pred_flag !!! ij.2 = Accepted)
                       (matched st))
      + length (filter (fun j => assigned st !!! j = false
                                 /\ pred_flag !!! j = Accepted
                                 /\ under !!! j = false)
                       (seq 0 (shape1 iou)))
      = length (filter (fun j => pred_flag !!! j = Accepted
                                 /\ under !!! j = false)
                       (seq 0 (shape1 iou))))%nat.
Proof.
  induction t as [|t [IHg IHp]].
  - simpl. split; [reflexivity|]. f_equal. apply filter_ext_in.
    intros j Hj. apply elem_of_seq in Hj.
    rewrite lookup_total_replicate_2 by lia. tauto.
  - cbv zeta in *. rewrite seq_S, foldl_app. simpl.
    pose proof (statistics_pass_inv iou pred_scores gt_flag pred_flag
                  iou_threshold score_threshold t) as ((Hlen & _) & _).
    set (st := foldl _ _ (seq 0 t)) in *.
    pose proof (statistics_step_cases iou pred_scores gt_flag pred_flag
                  iou_threshold score_threshold st t) as Hst.
    simpl in Hst.
    rewrite filter_app, length_app. simpl.
    destruct Hst as [(Ea & Em & Etp & Efn)
                    |(j & Hj & Hfree & Hcls & Hund & Hg & Ea & Em & Efn & Etp)].
    + rewrite Ea, Em, Etp, Efn. split; [|exact IHp].
      case_bool_decide as Hacc.
      * rewrite filter_cons_True by exact Hacc. simpl. lia.
      * rewrite filter_cons_False by exact Hacc. simpl. lia.
    + rewrite Ea, Em, Etp, Efn, !filter_app, !length_app. simpl. split.
      * destruct (gt_flag !!! t) eqn:Eg; [congruence| |].
        -- rewrite (filter_cons_True (fun i => gt_flag !!! i = Accepted))
             by exact Eg.
           destruct (pred_flag !!! j) eqn:Ep; [congruence| |].
           ++ rewrite bool_decide_eq_true_2 by (split; reflexivity).
              rewrite filter_cons_False
                by (simpl; rewrite Ep; intros [_ ?]; discriminate).
              simpl. lia.
           ++ rewrite bool_decide_eq_false_2
                by (intros [_ ?]; discriminate).
              rewrite filter_cons_True by (simpl; rewrite Eg, Ep; auto).
              simpl. lia.
        -- rewrite (filter_cons_False (fun i => gt_flag !!! i = Accepted))
             by (rewrite Eg; discriminate).
           rewrite bool_decide_eq_false_2 by (intros [? _]; discriminate).
           rewrite filter_cons_False
             by (simpl; rewrite Eg; intros [? _]; discriminate).
           simpl. lia.
      * rewrite <- IHp.
        rewrite (filter_seq_remove
                   (fun j' => assigned st !!! j' = false
                              /\ pred_flag !!! j' = Accepted
                              /\ under !!! j' = false)
                   (fun j' => <[j:=true]> (assigned st) !!! j' = false
                              /\ pred_flag !!! j' = Accepted
                              /\ under !!! j' = false) j (shape1 iou) Hj).
        2:{ rewrite list_lookup_total_insert_eq by lia. intros [? _].
            discriminate. }
        2:{ intros j' Hne. rewrite list_lookup_total_insert_ne by congruence.
            reflexivity. }
        destruct (pred_flag !!! j) eqn:Ep; [congruence| |].
        -- rewrite decide_True by (repeat split; assumption || reflexivity).
           destruct (gt_flag !!! t) eqn:Eg; [congruence| |].
           ++ rewrite bool_decide_eq_true_2 by (split; reflexivity).
              rewrite filter_cons_False
                by (simpl; rewrite Eg; intros [? _]; discriminate).
              simpl. lia.
           ++ rewrite bool_decide_eq_false_2
                by (intros [? _]; discriminate).
              rewrite filter_cons_True by (simpl; rewrite Eg, Ep; auto).
              simpl. lia.
        -- rewrite decide_False by (intros (_ & ? & _); congruence).
           rewrite bool_decide_eq_false_2 by (intros [_ ?]; discriminate).
           rewrite filter_cons_False
             by (simpl; rewrite Ep; intros [_ ?]; discriminate).
           simpl. lia.
Qed.

End StatisticsCounts.

Lemma counts_as_fp_free (pred_scores : list Qc) (pred_flag : list flag)
    (score_threshold : Qc) (asg : list bool) (j : nat) :
  counts_as_fp pred_scores pred_flag score_threshold asg j = true
  <-> asg !!! j = false /\ pred_flag !!! j = Accepted
      /\ under_threshold pred_scores score_threshold !!! j = false.
Proof.
  unfold counts_as_fp.
  rewrite negb_true_iff, !orb_false_iff, !bool_decide_eq_false.
  split.
  - intros (((Ha & Hr) & Hi) & Hu). split; [exact Ha|]. split; [|exact Hu].
    destruct (pred_flag !!! j); congruence.
  - intros (Ha & Hp & Hu). rewrite Hp. repeat split; congruence.
Qed.

(** What the counts of one call add up to: every accepted row is a true
    positive, a false negative or matched to an ignored prediction; every
    accepted prediction that is not under the threshold is a true positive,
    a false positive or matched to an ignored row. *)
Lemma compute_statistics_balance (iou : Mat) (pred_scores : list Qc)
    (gt_flag pred_flag : list flag) (iou_threshold : Q)
    (score_threshold : Qc) :
  length pred_scores = shape1 iou -> shape0 iou = length gt_flag ->
  let counts := compute_statistics iou pred_scores gt_flag pred_flag
                  iou_threshold score_threshold in
  let st := statistics_pass iou pred_scores gt_flag pred_flag iou_threshold
              score_threshold in
  (counts.1.1 + counts.2
   + length (filter (fun ij => gt_flag !!! ij.1 = Accepted
                               /\ pred_flag !!! ij.2 = Ignored) (matched st))
   = count_accepted gt_flag)%nat
  /\ (counts.1.1
      + length (filter (fun ij => gt_flag !!! ij.1 = Ignored
                                  /\ pred_flag !!! ij.2 = Accepted)
                       (matched st))
      + counts.1.2
      = confident_accepted pred_scores pred_flag score_threshold
          (shape1 iou))%nat.
Proof.
  intros Hscores Hshape counts st.
  pose proof (statistics_pass_counts iou pred_scores gt_flag pred_flag
                iou_threshold score_threshold (shape0 iou)) as [Hg Hp].
  cbv zeta in Hg, Hp.
  fold (statistics_pass iou pred_scores gt_flag pred_flag iou_threshold
          score_threshold) in Hg, Hp.
  fold st in Hg, Hp.
  assert (Etp : counts.1.1 = tp st) by reflexivity.
  assert (Efn : counts.2 = fn st) by reflexivity.
  assert (Efp : counts.1.2
                = length (filter
                    (fun j => assigned st !!! j = false
                              /\ pred_flag !!! j = Accepted
                              /\ under_threshold pred_scores score_threshold
                                 !!! j = false)
                    (seq 0 (shape1 iou)))).
  { unfold counts, compute_statistics. fold st. cbn [fst snd].
    rewrite count_fp_filter. f_equal. apply filter_ext_in. intros j _.
    apply counts_as_fp_free. }
  assert (Econf : length (filter
                    (fun j => pred_flag !!! j = Accepted
                              /\ under_threshold pred_scores score_threshold
                                 !!! j = false)
                    (seq 0 (shape1 iou)))
                  = confident_accepted pred_scores pred_flag score_threshold
                      (shape1 iou)).
  { unfold confident_accepted. f_equal. apply filter_ext_in.
    intros j Hj. apply elem_of_seq in Hj.
    rewrite under_threshold_lookup by lia.
    rewrite bool_decide_eq_false. split.
    - intros [? Hn]. split; [assumption|]. apply Qcnot_lt_le. exact Hn.
    - intros [? Hle]. split; [assumption|]. apply Qcle_not_lt. exact Hle. }
  assert (Evalid : length (filter (fun i => gt_flag !!! i = Accepted)
                             (seq 0 (shape0 iou)))
                   = count_accepted gt_flag).
  { rewrite Hshape.
    pose proof (filter_seq_lookup_total (fun f => f = Accepted) gt_flag)
      as E.
    cbv beta in E. exact E. }
  rewrite Evalid in Hg. rewrite Econf, <- Efp, <- Etp in Hp.
  rewrite <- Etp, <- Efn in Hg. split; [exact Hg|lia].
Qed.

(** X5.  On an IoU matrix with one row per ground-truth flag and one column
    per prediction flag and score, [compute_statistics] returns, at any
    score threshold, [tp + fn] at most the number of accepted ground truths
    and [tp + fp] at most the number of accepted predictions whose score is
    not under the threshold; [tp + fn] is that number of ground truths when
    no prediction is flagged ignored, and [tp + fp] is that number of
    predictions when no ground truth is flagged ignored. *)
Theorem confusion_counts_are_bounded (iou : Mat) (pred_scores : list Qc)
    (gt_flag pred_flag : list flag) (iou_threshold : Q)
    (score_threshold : Qc) :
  length pred_scores = shape1 iou -> length pred_flag = shape1 iou ->
  shape0 iou = length gt_flag ->
  let counts := compute_statistics iou pred_scores gt_flag pred_flag
                  iou_threshold score_threshold in
  let tp := counts.1.1 in
  let fp := counts.1.2 in
  let fn := counts.2 in
  let confident := confident_accepted pred_scores pred_flag score_threshold
                     (shape1 iou) in
  (tp + fn <= count_accepted gt_flag)%nat
  /\ (tp + fp <= confident)%nat
  /\ (Ignored ∉ pred_flag -> (tp + fn)%nat = count_accepted gt_flag)
  /\ (Ignored ∉ gt_flag -> (tp + fp)%nat = confident).
Proof.
  intros Hscores _ Hshape counts tp0 fp0 fn0 confident.
  destruct (compute_statistics_balance iou pred_scores gt_flag pred_flag
              iou_threshold score_threshold Hscores Hshape) as [Hg Hp].
  fold counts tp0 fp0 fn0 confident in Hg, Hp.
  split; [lia|]. split; [lia|]. split.
  - intros Hno.
    rewrite (filter_none (fun ij => gt_flag !!! ij.1 = Accepted
                                    /\ pred_flag !!! ij.2 = Ignored)) in Hg.
    + simpl in Hg. lia.
    + intros [i j] _ [_ Hj]. apply Hno.
      eapply lookup_total_elem_of; [exact Hj|discriminate].
  - intros Hno.
    rewrite (filter_none (fun ij => gt_flag !!! ij.1 = Ignored
                                    /\ pred_flag !!! ij.2 = Accepted)) in Hp.
    + simpl in Hp. lia.
    + intros [i j] _ [Hi _]. apply Hno.
      eapply lookup_total_elem_of; [exact Hi|discriminate].
Qed.

Lemma confusion_counts_are_bounded_witness :
  let counts := compute_statistics crossed_iou crossed_scores
                  crossed_gt_flag crossed_pred_flag (1 # 2)
                  (Q2Qc (1 # 2)) in
  (counts.1.1 + counts.2 <= count_accepted crossed_gt_flag)%nat
  /\ (counts.1.1 + counts.1.2
      <= confident_accepted crossed_scores crossed_pred_flag (Q2Qc (1 # 2))
           (shape1 crossed_iou))%nat.
Proof.
  destruct (confusion_counts_are_bounded crossed_iou crossed_scores
              crossed_gt_flag crossed_pred_flag (1 # 2) (Q2Qc (1 # 2)))
    as (H1 & H2 & _).
  - reflexivity.
  - reflexivity.
  - reflexivity.
  - split; [exact H1|exact H2].
Defined.

(** ** filter_data *)

Lemma reject_mask_other_class names class_name use_superclass :
  reject_mask names class_name use_superclass
  = map (other_class use_superclass class_name) names.
Proof.
  unfold reject_mask, other_class.
  destruct use_superclass; simpl; [|reflexivity].
  destruct (bool_decide (class_name = "Vehicle")); reflexivity.
Qed.

Section FilterOutcome.
Context `{Externals}.
Hypothesis keep_length : filters_keep_length.

Lemma ignore_mask_unsupported boxes difficulty_mode level :
  difficulty_mode ∉ supported_modes ->
  ignore_mask boxes difficulty_mode level = Err NotImplementedError.
Proof.
  intros Hno. unfold ignore_mask.
  unfold supported_modes in Hno.
  rewrite !not_elem_of_cons in Hno. destruct Hno as (H1 & H2 & H3 & _).
  rewrite !bool_decide_eq_false_2 by assumption. reflexivity.
Qed.

Lemma ignore_mask_supported boxes difficulty_mode level :
  difficulty_mode ∈ supported_modes ->
  exists mask, ignore_mask boxes difficulty_mode level = Ok mask
               /\ length mask = length boxes.
Proof.
  intros Hin. destruct (keep_length boxes level) as (H1 & H2 & H3).
  unfold ignore_mask.
  case_bool_decide as E1; [eexists; split; [reflexivity|exact H1]|].
  case_bool_decide as E2; [eexists; split; [reflexivity|exact H2]|].
  case_bool_decide as E3; [eexists; split; [reflexivity|exact H3]|].
  exfalso. unfold supported_modes in Hin.
  repeat (apply elem_of_cons in Hin as [->|Hin]; [congruence|]).
  apply elem_of_nil in Hin. exact Hin.
Qed.

(** The flags of one annotation: the class mask first, then the ignore mask
    over it. *)
Lemma flags_of_masks names class_name use_superclass (mask : list bool) :
  length mask = length names ->
  exists flags,
    mask_set
      (zip_with (fun f (m : bool) => if m then Rejected else f)
                (replicate (length names) Accepted)
                (reject_mask names class_name use_superclass))
      mask Ignored = Ok flags
    /\ length flags = length names
    /\ forall i nm, names !! i = Some nm ->
         flags !! i
         = Some (flag_of (mask !!! i)
                         (other_class use_superclass class_name nm)).
Proof.
  intros Hmask.
  rewrite mask_set_ok
    by (rewrite length_zip_with, length_replicate, reject_mask_length; lia).
  eexists. split; [reflexivity|]. split.
  - rewrite !length_zip_with, length_replicate, reject_mask_length. lia.
  - intros i nm Hi.
    assert (Hlt : (i < length names)%nat) by (eapply lookup_lt_Some; eauto).
    destruct (lookup_lt_is_Some_2 mask i ltac:(lia)) as [m Hm].
    rewrite !lookup_zip_with, lookup_replicate_2 by lia.
    rewrite reject_mask_other_class, (lookup_map_Some _ _ _ _ Hi), Hm.
    simpl. rewrite (list_lookup_total_correct _ _ _ Hm).
    unfold flag_of.
    destruct m, (other_class use_superclass class_name nm); reflexivity.
Qed.

Lemma flags_of_masks_error names class_name use_superclass
    (mask : list bool) :
  length mask <> length names ->
  mask_set
    (zip_with (fun f (m : bool) => if m then Rejected else f)
              (replicate (length names) Accepted)
              (reject_mask names class_name use_superclass))
    mask Ignored = Err IndexError.
Proof.
  intros Hmask. unfold mask_set. rewrite decide_False; [reflexivity|].
  rewrite length_zip_with, length_replicate, reject_mask_length. lia.
Qed.

End FilterOutcome.

Lemma reference_filters_keep_length :
  @filters_keep_length Reference.externals.
Proof.
  intros boxes level. simpl.
  unfold Reference.ignore_overall_distance, Reference.ignore_by_distance,
    Reference.ignore_none.
  split; [apply length_map|]. split; [apply length_map|].
  destruct level; apply length_map.
Qed.

Lemma filter_data_well_formed `{Externals} (gt_anno pred_anno : Anno)
    (difficulty_mode : string) (difficulty_level : nat)
    (class_name : string) (use_superclass : bool) :
  filters_keep_length ->
  difficulty_mode ∈ supported_modes ->
  anno_wf gt_anno -> anno_wf pred_anno ->
  exists gt_ignore pred_ignore gt_flag pred_flag,
    ignore_mask (boxes_3d gt_anno) difficulty_mode difficulty_level
    = Ok gt_ignore
    /\ ignore_mask (boxes_3d pred_anno) difficulty_mode difficulty_level
       = Ok pred_ignore
    /\ filter_data gt_anno pred_anno difficulty_mode difficulty_level
                   class_name use_superclass
       = Ok (gt_flag, pred_flag)
    /\ length gt_flag = length (name gt_anno)
    /\ length pred_flag = length (name pred_anno)
    /\ (forall i nm, name gt_anno !! i = Some nm ->
          gt_flag !! i
          = Some (flag_of (gt_ignore !!! i)
                          (other_class use_superclass class_name nm)))
    /\ (forall j nm, name pred_anno !! j = Some nm ->
          pred_flag !! j
          = Some (flag_of (pred_ignore !!! j)
                          (other_class use_superclass class_name nm))).
Proof.
  intros Hkeep Hin Hg Hp. unfold filter_data.
  rewrite !mask_set_ok
    by (rewrite length_replicate, reject_mask_length; reflexivity).
  cbn [mbind res_bind]. unfold anno_wf in Hg, Hp.
  destruct (ignore_mask_supported Hkeep (boxes_3d gt_anno) _
              difficulty_level Hin) as (ig & Eig & Hig).
  destruct (ignore_mask_supported Hkeep (boxes_3d pred_anno) _
              difficulty_level Hin) as (ip & Eip & Hip).
  destruct (flags_of_masks (name gt_anno) class_name use_superclass ig
              ltac:(lia)) as (gf & Egf & Hgl & Hgf).
  destruct (flags_of_masks (name pred_anno) class_name use_superclass ip
              ltac:(lia)) as (pf & Epf & Hpl & Hpf).
  exists ig, ip, gf, pf. rewrite Eig, Eip. cbn [mbind res_bind].
  rewrite Egf. cbn [mbind res_bind]. rewrite Epf. cbn [mbind res_bind].
  repeat split; assumption.
Qed.

(** X6.  [filter_data], the difficulty filters returning one mask entry per
    box. A difficulty mode other than the three supported ones raises
    NotImplementedError. In a supported mode, an annotation with another
    number of names than of boxes raises IndexError. Otherwise there is one
    flag per name: 1 (ignored) when the difficulty filter marks the box,
    whatever its class; else -1 (rejected) when the name is of another class
    than the scored one (for the superclass Vehicle: when it is Pedestrian
    or Cyclist); else 0 (accepted). *)
Theorem filter_data_outcome `{Externals} (gt_anno pred_anno : Anno)
    (difficulty_mode : string) (difficulty_level : nat)
    (class_name : string) (use_superclass : bool) :
  filters_keep_length ->
  (difficulty_mode ∉ supported_modes ->
   filter_data gt_anno pred_anno difficulty_mode difficulty_level class_name
               use_superclass
   = Err NotImplementedError)
  /\ (difficulty_mode ∈ supported_modes ->
      ~ (anno_wf gt_anno /\ anno_wf pred_anno) ->
      filter_data gt_anno pred_anno difficulty_mode difficulty_level
                  class_name use_superclass
      = Err IndexError)
  /\ (difficulty_mode ∈ supported_modes ->
      anno_wf gt_anno -> anno_wf pred_anno ->
      exists gt_ignore pred_ignore gt_flag pred_flag,
        ignore_mask (boxes_3d gt_anno) difficulty_mode difficulty_level
        = Ok gt_ignore
        /\ ignore_mask (boxes_3d pred_anno) difficulty_mode difficulty_level
           = Ok pred_ignore
        /\ filter_data gt_anno pred_anno difficulty_mode difficulty_level
                       class_name use_superclass
           = Ok (gt_flag, pred_flag)
        /\ length gt_flag = length (name gt_anno)
        /\ length pred_flag = length (name pred_anno)
        /\ (forall i nm, name gt_anno !! i = Some nm ->
              gt_flag !! i
              = Some (flag_of (gt_ignore !!! i)
                              (other_class use_superclass class_name nm)))
        /\ (forall j nm, name pred_anno !! j = Some nm ->
              pred_flag !! j
              = Some (flag_of (pred_ignore !!! j)
                              (other_class use_superclass class_name nm)))).
Proof.
  intros Hkeep. split; [|split].
  - intros Hno. unfold filter_data.
    rewrite !mask_set_ok
      by (rewrite length_replicate, reject_mask_length; reflexivity).
    cbn [mbind res_bind].
    rewrite (ignore_mask_unsupported (boxes_3d gt_anno) _ difficulty_level
               Hno).
    reflexivity.
  - intros Hin Hwf. unfold filter_data.
    rewrite !mask_set_ok
      by (rewrite length_replicate, reject_mask_length; reflexivity).
    cbn [mbind res_bind].
    destruct (ignore_mask_supported Hkeep (boxes_3d gt_anno) _
                difficulty_level Hin) as (ig & -> & Hig).
    destruct (ignore_mask_supported Hkeep (boxes_3d pred_anno) _
                difficulty_level Hin) as (ip & -> & Hip).
    cbn [mbind res_bind]. unfold anno_wf in Hwf.
    destruct (decide (length ig = length (name gt_anno))) as [Eg|Eg].
    + destruct (flags_of_masks (name gt_anno) class_name use_superclass ig Eg)
        as (gf & -> & _).
      cbn [mbind res_bind].
      rewrite (flags_of_masks_error (name pred_anno) class_name
                 use_superclass ip); [reflexivity|]. lia.
    + rewrite (flags_of_masks_error (name gt_anno) class_name use_superclass
                 ig Eg).
      reflexivity.
  - intros Hin Hg Hp. apply filter_data_well_formed; assumption.
Qed.

Lemma filter_data_outcome_witness :
  exists gt_flag pred_flag,
    filter_data (H := Reference.externals) straddle_gt straddle_pred
      "Distance" 0 "Pedestrian" true
    = Ok (gt_flag, pred_flag)
    /\ gt_flag !! 0%nat = Some Ignored /\ gt_flag !! 1%nat = Some Accepted.
Proof.
  destruct (filter_data_outcome (H := Reference.externals) straddle_gt
              straddle_pred "Distance" 0 "Pedestrian" true
              reference_filters_keep_length)
    as (_ & _ & Hok).
  destruct Hok as (ig & ip & gf & pf & Eig & _ & E & _ & _ & Hgf & _).
  - unfold supported_modes. right. right. left.
  - reflexivity.
  - reflexivity.
  - exists gf, pf. split; [exact E|].
    inversion Eig; subst ig.
    split; [apply (Hgf 0%nat "Pedestrian" eq_refl)
           |apply (Hgf 1%nat "Pedestrian" eq_refl)].
Defined.

(** ** The exceptions of the evaluator *)

Ltac in_body_errors :=
  unfold body_errors;
  repeat first [apply list_elem_of_here | apply list_elem_of_further].

Lemma may_raise_ok {A} es (a : A) : may_raise es (Ok a).
Proof. intros e E. discriminate E. Qed.

Lemma may_raise_err {A} es e : e ∈ es -> may_raise es (@Err A e).
Proof. intros He e' E. inversion E; subst. exact He. Qed.

Lemma may_raise_bind {A B} es (m : res A) (k : A -> res B) :
  may_raise es m -> (forall a, m = Ok a -> may_raise es (k a)) ->
  may_raise es (m ≫= k).
Proof.
  intros Hm Hk e E. destruct m as [a|e0]; simpl in E.
  - apply (Hk a eq_refl e E).
  - inversion E; subst. apply Hm. reflexivity.
Qed.

Lemma may_raise_foldlM {S A} es (f : S -> A -> res S) l :
  (forall s x, x ∈ l -> may_raise es (f s x)) ->
  forall s, may_raise es (foldlM f s l).
Proof.
  intros Hf s e E. apply foldlM_error in E as (s' & x & Hx & E).
  apply (Hf s' x Hx e E).
Qed.

Lemma may_raise_mapM {A B} es (f : A -> res B) l :
  (forall x, x ∈ l -> may_raise es (f x)) -> may_raise es (res_mapM f l).
Proof.
  intros Hf e E. apply res_mapM_error in E as (x & Hx & E).
  apply (Hf x Hx e E).
Qed.

Lemma may_raise_index {A} (l : list A) i :
  may_raise body_errors (index l i).
Proof.
  unfold index. destruct (l !! i); [apply may_raise_ok|].
  apply may_raise_err. in_body_errors.
Qed.

Lemma may_raise_write {A} (l : list A) i v :
  may_raise body_errors (write l i v).
Proof.
  unfold write. destruct (decide _); [apply may_raise_ok|].
  apply may_raise_err. in_body_errors.
Qed.

Lemma may_raise_concatenate {A} (parts : list (list A)) :
  may_raise body_errors (np_concatenate parts).
Proof.
  destruct parts; [|apply may_raise_ok].
  apply may_raise_err. in_body_errors.
Qed.

Lemma may_raise_np_max (l : list flt) : may_raise body_errors (np_max l).
Proof.
  destruct l; [|apply may_raise_ok].
  apply may_raise_err. in_body_errors.
Qed.

Lemma may_raise_mask_set flags mask v :
  may_raise body_errors (mask_set flags mask v).
Proof.
  intros e E. apply mask_set_error in E. subst. in_body_errors.
Qed.

Lemma may_raise_dict_get d k : may_raise body_errors (dict_get d k).
Proof.
  unfold dict_get. destruct (d !! k); [apply may_raise_ok|].
  apply may_raise_err. in_body_errors.
Qed.

Lemma may_raise_get_thresholds scores num_gt num_pr_points :
  may_raise body_errors (get_thresholds scores num_gt num_pr_points).
Proof.
  intros e E. unfold get_thresholds in E.
  destruct (foldlM _ _ _) as [[rl ths]|e'] eqn:Ef; [discriminate E|].
  simpl in E. inversion E; subst e'.
  apply foldlM_error in Ef as (st & x & _ & Ex).
  apply thresholds_step_error in Ex as [-> _].
  in_body_errors.
Qed.

Create HintDb raises.
#[local] Hint Resolve may_raise_ok may_raise_index may_raise_write
  may_raise_concatenate may_raise_np_max may_raise_mask_set
  may_raise_dict_get may_raise_get_thresholds : raises.

(** One step of the case analysis: through a bind, a pattern or a
    conditional. *)
Ltac raise_step :=
  match goal with
  | |- may_raise _ (mbind _ _) => apply may_raise_bind; [|intros ? ?]
  | |- may_raise _ (match ?x with _ => _ end) => destruct x
  | |- may_raise _ (foldlM _ _ _) => apply may_raise_foldlM; intros ? ? ?
  | |- may_raise _ (res_mapM _ _) => apply may_raise_mapM; intros ? ?
  | |- may_raise _ _ => solve [auto with raises]
  end.

Section EvaluatorErrors.
Context `{Externals}.

Lemma may_raise_compute_iou3d gt_annos pred_annos split_parts with_heading :
  may_raise body_errors
    (compute_iou3d gt_annos pred_annos split_parts with_heading).
Proof.
  unfold compute_iou3d.
  apply may_raise_bind.
  { destruct gt_annos; [|apply may_raise_ok].
    apply may_raise_err. in_body_errors. }
  intros _ _. apply may_raise_bind.
  { destruct pred_annos; [|apply may_raise_ok].
    apply may_raise_err. in_body_errors. }
  intros _ _. apply may_raise_bind; [|intros [? ?] _; apply may_raise_ok].
  apply may_raise_foldlM. intros [s ious] k _.
  unfold compute_iou3d_step. cbv zeta.
  repeat raise_step.
  unfold cut_part. repeat raise_step.
  unfold cut_part_step. repeat raise_step.
Qed.

Lemma difficulty_types_supported_ok difficulty_mode :
  difficulty_mode ∈ supported_modes ->
  exists dts, difficulty_types_of difficulty_mode = Ok dts.
Proof.
  intros Hin. unfold difficulty_types_of.
  repeat (case_bool_decide; [eexists; reflexivity|]).
  exfalso. unfold supported_modes in Hin.
  repeat (apply elem_of_cons in Hin as [->|Hin]; [congruence|]).
  apply elem_of_nil in Hin. exact Hin.
Qed.

Lemma may_raise_ignore_mask boxes difficulty_mode level :
  difficulty_mode ∈ supported_modes ->
  may_raise body_errors (ignore_mask boxes difficulty_mode level).
Proof.
  intros Hin. unfold ignore_mask.
  repeat (case_bool_decide; [apply may_raise_ok|]).
  exfalso. unfold supported_modes in Hin.
  repeat (apply elem_of_cons in Hin as [->|Hin]; [congruence|]).
  apply elem_of_nil in Hin. exact Hin.
Qed.

Lemma may_raise_filter_data g p difficulty_mode level class_name
    use_superclass :
  difficulty_mode ∈ supported_modes ->
  may_raise body_errors
    (filter_data g p difficulty_mode level class_name use_superclass).
Proof.
  intros Hin. pose proof (may_raise_ignore_mask (boxes_3d g) _ level Hin).
  pose proof (may_raise_ignore_mask (boxes_3d p) _ level Hin).
  unfold filter_data. cbv zeta. repeat raise_step; assumption.
Qed.

Lemma may_raise_rows gt_annos pred_annos ious difficulty_mode use_superclass
    num_pr_points cur_class iou_threshold diff_idx :
  difficulty_mode ∈ supported_modes ->
  may_raise body_errors
    (class_difficulty_rows gt_annos pred_annos ious difficulty_mode
       use_superclass num_pr_points cur_class iou_threshold diff_idx).
Proof.
  intros Hin.
  pose proof (fun g p => may_raise_filter_data g p _ diff_idx cur_class
                           use_superclass Hin) as Hf.
  unfold class_difficulty_rows. cbv zeta.
  apply may_raise_bind.
  { unfold gather. apply may_raise_foldlM. intros g i _.
    unfold gather_step. cbv zeta. repeat raise_step. }
  intros g _. repeat raise_step.
  - unfold confusion_matrix. apply may_raise_foldlM. intros cm i _.
    unfold confusion_step. cbv zeta. repeat raise_step.
  - unfold draw_pr_curve. apply may_raise_foldlM. intros [pr rc] i _.
    unfold draw_pr_curve_step. repeat raise_step.
  - unfold envelope. apply may_raise_foldlM. intros [pr rc] i _.
    unfold envelope_step. repeat raise_step.
Qed.

Lemma may_raise_scored_classes classes use_superclass :
  may_raise [AssertionError] (scored_classes classes use_superclass).
Proof.
  unfold scored_classes. destruct use_superclass; [|apply may_raise_ok].
  cbv zeta. apply may_raise_bind; [|intros; apply may_raise_ok].
  destruct (_ || _ || _); [|apply may_raise_ok].
  unfold assert. destruct (_ && _ && _); [apply may_raise_ok|].
  apply may_raise_err. left.
Qed.

Lemma scored_classes_outcome classes use_superclass :
  let ok := use_superclass = true ->
            "Car" ∈ classes \/ "Bus" ∈ classes \/ "Truck" ∈ classes ->
            "Car" ∈ classes /\ "Bus" ∈ classes /\ "Truck" ∈ classes in
  (ok -> exists cls, scored_classes classes use_superclass = Ok cls)
  /\ (~ ok -> scored_classes classes use_superclass = Err AssertionError).
Proof.
  intros ok. unfold ok, scored_classes.
  destruct use_superclass.
  2:{ split; [intros _; eexists; reflexivity|].
      intros Hno. exfalso. apply Hno. discriminate. }
  cbv zeta.
  destruct (decide ("Car" ∈ classes)) as [Ec|Ec];
    [rewrite (bool_decide_eq_true_2 _ Ec)
    |rewrite (bool_decide_eq_false_2 _ Ec)];
    (destruct (decide ("Bus" ∈ classes)) as [Eb|Eb];
     [rewrite (bool_decide_eq_true_2 _ Eb)
     |rewrite (bool_decide_eq_false_2 _ Eb)]);
    (destruct (decide ("Truck" ∈ classes)) as [Et|Et];
     [rewrite (bool_decide_eq_true_2 _ Et)
     |rewrite (bool_decide_eq_false_2 _ Et)]);
    simpl; split;
    try (intros _; eexists; reflexivity);
    try (intros Hok; exfalso; specialize (Hok eq_refl); tauto);
    try (intros Hno; exfalso; apply Hno; tauto);
    try (intros _; reflexivity).
Qed.

(** X7.  [get_evaluation_results] raises AssertionError whenever one of the
    three conditions asserted in lines 42-46 fails (as many predictions as
    ground truths, a supported difficulty mode, Car, Bus and Truck all
    present or all absent under [use_superclass]); when they hold, whatever
    it raises is a ValueError, an IndexError, a KeyError or a
    ZeroDivisionError, never an AssertionError or a NotImplementedError. *)
Theorem evaluation_error_taxonomy
    (gt_annos pred_annos : list Anno) (classes : list string)
    (use_superclass : bool) (iou_thresholds : option (gmap string Q))
    (num_pr_points : nat) (difficulty_mode : string)
    (ap_with_heading : bool) (num_parts : nat) :
  let outcome :=
    get_evaluation_results gt_annos pred_annos classes use_superclass
      iou_thresholds num_pr_points difficulty_mode ap_with_heading
      num_parts in
  let pre := preconditions gt_annos pred_annos classes use_superclass
               difficulty_mode in
  (~ pre -> outcome = Err AssertionError)
  /\ (pre -> forall e, outcome = Err e ->
              e ∈ [ValueError; IndexError; KeyError; ZeroDivisionError]).
Proof.
  intros outcome pre. unfold outcome, pre, preconditions,
    get_evaluation_results, evaluate_AP.
  destruct (scored_classes_outcome classes use_superclass) as [Hok Hbad].
  cbv zeta in Hok, Hbad.
  destruct (decide (length gt_annos = length pred_annos)) as [Hlen|Hlen].
  2:{ rewrite (bool_decide_eq_false_2 _ Hlen). split; [reflexivity|].
      intros [? _]. contradiction. }
  rewrite (bool_decide_eq_true_2 _ Hlen).
  destruct (decide (difficulty_mode
                    ∈ ["Overall&Distance"; "Overall"; "Distance"]))
    as [Hmode|Hmode].
  2:{ rewrite (bool_decide_eq_false_2 _ Hmode). split; [reflexivity|].
      intros (_ & ? & _). contradiction. }
  rewrite (bool_decide_eq_true_2 _ Hmode). cbn [assert mbind res_bind].
  split.
  - intros Hno. rewrite Hbad; [reflexivity|].
    intros Hc. apply Hno. split; [exact Hlen|]. split; [exact Hmode|exact Hc].
  - intros (_ & _ & Hc). destruct (Hok Hc) as [cls ->].
    cbn [mbind res_bind].
    change (may_raise body_errors
              (mbind (fun '(classes0, difficulty_types, AP) =>
                        Ok (report classes0 difficulty_types num_pr_points AP))
                 (ious ← compute_iou3d gt_annos pred_annos
                    (compute_split_parts (length gt_annos) num_parts)
                    ap_with_heading;
                  difficulty_types ← difficulty_types_of difficulty_mode;
                  curves ← precision_curves
                    (class_difficulty_rows gt_annos pred_annos ious
                       difficulty_mode use_superclass num_pr_points)
                    match iou_thresholds with
                    | Some d => d
                    | None => if use_superclass
                              then superclass_iou_threshold_dict
                              else iou_threshold_dict
                    end cls (length difficulty_types);
                  _ ← (if (num_pr_points =? 0)%nat
                       then Err ZeroDivisionError else Ok tt);
                  Ok (cls, difficulty_types,
                      map (map (average_precision_of num_pr_points))
                          (map (map fst) curves))))).
    apply may_raise_bind; [|intros [[? ?] ?] _; apply may_raise_ok].
    apply may_raise_bind; [apply may_raise_compute_iou3d|]. intros ious _.
    destruct (difficulty_types_supported_ok difficulty_mode Hmode)
      as [dts ->].
    cbn [mbind res_bind].
    apply may_raise_bind.
    { unfold precision_curves. apply may_raise_mapM. intros c _.
      apply may_raise_bind; [apply may_raise_dict_get|]. intros t _.
      apply may_raise_mapM. intros d _. apply may_raise_rows. exact Hmode. }
    intros curves _. apply may_raise_bind; [|intros; apply may_raise_ok].
    destruct (num_pr_points =? 0)%nat; [|apply may_raise_ok].
    apply may_raise_err. in_body_errors.
Qed.

End EvaluatorErrors.

(** ** The evaluator on well-formed input *)

(** Lines 106-116 on a confusion matrix that fits the rows: nothing is
    raised, and the rows keep their length. *)
Lemma pr_rows_total (cm : list (nat * nat * nat)) (num_pr_points : nat) :
  (length cm <= num_pr_points + 1)%nat ->
  let zeros := replicate (num_pr_points + 1) Flt.zero in
  exists raw env,
    draw_pr_curve cm (zeros, zeros) = Ok raw
    /\ envelope (length cm) raw = Ok env
    /\ length env.1 = (num_pr_points + 1)%nat
    /\ length env.2 = (num_pr_points + 1)%nat.
Proof.
  intros Hcm zeros. unfold zeros.
  replace (num_pr_points + 1)%nat
    with (length cm + (num_pr_points + 1 - length cm))%nat by lia.
  eexists. eexists. split.
  { unfold draw_pr_curve.
    rewrite (draw_pr_curve_steps cm _ (length cm)) by lia. reflexivity. }
  split.
  { unfold envelope. rewrite envelope_steps by solve_length. reflexivity. }
  simpl. split; solve_length.
Qed.

Lemma res_mapM_first_error {A B} (f : A -> res B) (e0 : error) l :
  (forall x, x ∈ l -> (exists y, f x = Ok y) \/ f x = Err e0) ->
  (exists x, x ∈ l /\ f x = Err e0) ->
  res_mapM f l = Err e0.
Proof.
  induction l as [|a l IH]; intros Hall (x & Hx & Ex).
  - apply elem_of_nil in Hx. destruct Hx.
  - simpl. destruct (Hall a ltac:(left)) as [[y Ey]|Ea].
    + rewrite Ey. cbn [mbind res_bind].
      rewrite IH; [reflexivity| |].
      * intros x' Hx'. apply Hall. right. exact Hx'.
      * apply elem_of_cons in Hx as [->|Hx]; [congruence|].
        exists x. split; assumption.
    + rewrite Ea. reflexivity.
Qed.

Section WellFormedRun.
Context `{Externals}.
Hypothesis keep_length : filters_keep_length.
Variables (difficulty_mode : string) (use_superclass : bool).
Variable num_pr_points : nat.
Hypothesis mode_supported : difficulty_mode ∈ supported_modes.
Hypothesis num_pr_points_pos : (1 <= num_pr_points)%nat.
Hypothesis num_pr_points_max : (num_pr_points <= pr_points_max)%nat.
Variables (cur_class : string) (iou_threshold : Q) (diff_idx : nat).

Lemma sample_filter_total s :
  sample_wf s ->
  exists flags,
    sample_filter difficulty_mode use_superclass cur_class diff_idx s
    = Ok flags
    /\ length flags.1 = length (name s.1.1).
Proof.
  intros (Hg & Hp & _). unfold sample_filter.
  destruct (filter_data_well_formed s.1.1 s.1.2 difficulty_mode diff_idx
              cur_class use_superclass keep_length mode_supported Hg Hp)
    as (ig & ip & gf & pf & _ & _ & E & Hl & _).
  exists (gf, pf). split; [exact E|exact Hl].
Qed.

Lemma sample_scores_bounded s :
  sample_wf s ->
  (length (sample_scores difficulty_mode use_superclass cur_class
             iou_threshold diff_idx s)
   <= sample_valid difficulty_mode use_superclass cur_class diff_idx s)%nat.
Proof.
  intros Hs. destruct (sample_filter_total s Hs) as ([gf pf] & E & Hl).
  unfold sample_scores, sample_valid, sample_flags. rewrite E. simpl.
  apply accumulate_scores_length. destruct Hs as (_ & _ & Hshape).
  simpl in Hl. lia.
Qed.

Lemma all_scores_bounded l :
  Forall sample_wf l ->
  (length (concat (map (sample_scores difficulty_mode use_superclass
                          cur_class iou_threshold diff_idx) l))
   <= sum_list_with (sample_valid difficulty_mode use_superclass cur_class
                       diff_idx) l)%nat.
Proof.
  induction 1 as [|s l Hs _ IH]; simpl; [lia|].
  rewrite length_app. pose proof (sample_scores_bounded s Hs). lia.
Qed.

(** One class and one difficulty on well-formed samples. *)
Lemma rows_of_samples_total l :
  l <> [] -> Forall sample_wf l ->
  exists rows,
    rows_of_samples difficulty_mode use_superclass num_pr_points cur_class
                    iou_threshold diff_idx l
    = Ok rows
    /\ length rows.1 = (num_pr_points + 1)%nat
    /\ length rows.2 = (num_pr_points + 1)%nat.
Proof.
  intros Hne Hwf. unfold rows_of_samples.
  destruct (res_mapM_ok_lookup
              (sample_filter difficulty_mode use_superclass cur_class
                 diff_idx) l) as (fl & -> & _).
  { intros s Hs. rewrite Forall_forall in Hwf.
    destruct (sample_filter_total s (Hwf s Hs)) as (flags & E & _).
    exists flags. exact E. }
  cbn [mbind res_bind].
  rewrite np_concatenate_ok by (apply map_nonempty; destruct l;
                                [congruence|simpl; lia]).
  cbn [mbind res_bind].
  destruct (get_thresholds_length_le _ _ num_pr_points
              (all_scores_bounded l Hwf) num_pr_points_pos
              num_pr_points_max) as (ths & -> & Hths).
  cbn [mbind res_bind].
  set (cm := map _ ths).
  assert (Hcm : length cm = length ths) by (unfold cm; apply length_map).
  destruct (pr_rows_total cm num_pr_points ltac:(lia))
    as (raw & env & -> & Eenv & L1 & L2).
  cbn [mbind res_bind]. rewrite <- Hcm, Eenv.
  exists env. split; [reflexivity|]. split; assumption.
Qed.

End WellFormedRun.

Lemma zipped_samples_wf `{Externals} gt_annos pred_annos with_heading :
  Forall anno_wf gt_annos -> Forall anno_wf pred_annos ->
  Forall sample_wf
    ((fun gp => (gp.1, gp.2, sample_iou with_heading gp.1 gp.2))
     <$> zip gt_annos pred_annos).
Proof.
  intros Hg Hp. apply Forall_fmap, Forall_forall. intros [g p] Hin.
  rewrite Forall_forall in Hg, Hp.
  pose proof (Hg g (elem_of_zip_l _ _ _ _ Hin)) as Hwg.
  pose proof (Hp p (elem_of_zip_r _ _ _ _ Hin)) as Hwp.
  split; [exact Hwg|]. split; [exact Hwp|].
  simpl. rewrite sample_iou_shape0. symmetry. exact Hwg.
Qed.

(** The run of the evaluator on well-formed input, with the curves it
    draws. *)
Lemma well_formed_run `{Externals}
    (gt_annos pred_annos : list Anno) (classes : list string)
    (use_superclass : bool) (iou_thresholds : option (gmap string Q))
    (num_pr_points : nat) (difficulty_mode : string)
    (ap_with_heading : bool) (num_parts : nat) (scored : list string) :
  filters_keep_length ->
  length gt_annos = length pred_annos -> gt_annos <> [] ->
  Forall anno_wf gt_annos -> Forall pred_anno_wf pred_annos ->
  split_ok (length gt_annos)
           (compute_split_parts (length gt_annos) num_parts) ->
  difficulty_mode ∈ supported_modes ->
  scored_classes classes use_superclass = Ok scored ->
  (1 <= num_pr_points)%nat -> (num_pr_points <= pr_points_max)%nat ->
  let dict := match iou_thresholds with
              | Some d => d
              | None => if use_superclass then superclass_iou_threshold_dict
                        else iou_threshold_dict
              end in
  let outcome :=
    get_evaluation_results gt_annos pred_annos classes use_superclass
      iou_thresholds num_pr_points difficulty_mode ap_with_heading
      num_parts in
  (Forall (fun c => is_Some (dict !! c)) scored ->
   exists difficulty_types curves,
     difficulty_types_of difficulty_mode = Ok difficulty_types
     /\ precision_curves
          (class_difficulty_rows gt_annos pred_annos
             (zip_with (sample_iou ap_with_heading) gt_annos pred_annos)
             difficulty_mode use_superclass num_pr_points)
          dict scored (length difficulty_types)
        = Ok curves
     /\ outcome
        = Ok (report scored difficulty_types num_pr_points
                (map (map (average_precision_of num_pr_points))
                     (map (map fst) curves))))
  /\ (~ Forall (fun c => is_Some (dict !! c)) scored ->
      outcome = Err KeyError).
Proof.
  intros Hkeep Hlen Hne Hg Hp' Hsplit Hmode Hcls Hn Hmax dict outcome.
  assert (Hp : Forall anno_wf pred_annos)
    by (eapply Forall_impl; [exact Hp'|]; intros a [E _]; exact E).
  destruct (difficulty_types_supported_ok difficulty_mode Hmode)
    as [dts Hdts].
  set (ious := zip_with (sample_iou ap_with_heading) gt_annos pred_annos).
  assert (Hblock : forall c t d,
            exists rows,
              class_difficulty_rows gt_annos pred_annos ious difficulty_mode
                use_superclass num_pr_points c t d = Ok rows).
  { intros c t d. unfold ious.
    rewrite class_difficulty_rows_zip by exact Hlen.
    destruct (rows_of_samples_total Hkeep difficulty_mode use_superclass
                num_pr_points Hmode Hn Hmax c t d
                ((fun gp => (gp.1, gp.2, sample_iou ap_with_heading gp.1 gp.2))
                 <$> zip gt_annos pred_annos))
      as (rows & E & _).
    - intros E. apply fmap_nil_inv in E. apply zip_with_nil_inv in E.
      destruct E as [E|E]; [contradiction|].
      subst pred_annos. destruct gt_annos; [contradiction|discriminate Hlen].
    - apply zipped_samples_wf; assumption.
    - exists rows. exact E. }
  assert (Hclass : forall c,
            (exists row t, dict !! c = Some t /\
               (t ← dict_get dict c;
                res_mapM
                  (fun d =>
                     class_difficulty_rows gt_annos pred_annos ious
                       difficulty_mode use_superclass num_pr_points c t d)
                  (seq 0 (length dts))) = Ok row)
            \/ (dict !! c = None /\
                (t ← dict_get dict c;
                 res_mapM
                   (fun d =>
                      class_difficulty_rows gt_annos pred_annos ious
                        difficulty_mode use_superclass num_pr_points c t d)
                   (seq 0 (length dts))) = Err KeyError)).
  { intros c. unfold dict_get. destruct (dict !! c) as [t|] eqn:Ec.
    - left. cbn [mbind res_bind].
      destruct (res_mapM_ok_lookup
                  (fun d =>
                     class_difficulty_rows gt_annos pred_annos ious
                       difficulty_mode use_superclass num_pr_points c t d)
                  (seq 0 (length dts))) as (row & Erow & _).
      { intros d _. apply Hblock. }
      exists row, t. split; [reflexivity|exact Erow].
    - right. split; reflexivity. }
  unfold outcome, get_evaluation_results, evaluate_AP. fold dict.
  rewrite (bool_decide_eq_true_2 (length gt_annos = length pred_annos) Hlen).
  rewrite (difficulty_types_supported _ _ Hdts).
  cbn [assert mbind res_bind].
  rewrite Hcls. cbn [mbind res_bind].
  rewrite (compute_iou3d_per_sample gt_annos pred_annos ap_with_heading
             Hlen Hg Hp _ Hne Hsplit).
  cbn [mbind res_bind]. rewrite Hdts. cbn [mbind res_bind]. fold ious.
  unfold precision_curves.
  split.
  - intros Hall. rewrite Forall_forall in Hall.
    destruct (res_mapM_ok_lookup
                (fun c =>
                   t ← dict_get dict c;
                   res_mapM
                     (fun d =>
                        class_difficulty_rows gt_annos pred_annos ious
                          difficulty_mode use_superclass num_pr_points c t d)
                     (seq 0 (length dts))) scored) as (curves & Ec & _).
    { intros c Hc. destruct (Hclass c) as [(row & t & _ & E)|[Enone _]].
      - exists row. exact E.
      - destruct (Hall c Hc) as [t Et]. congruence. }
    rewrite Ec. cbn [mbind res_bind].
    destruct (num_pr_points =? 0)%nat eqn:En; [apply Nat.eqb_eq in En; lia|].
    cbn [mbind res_bind].
    exists dts, curves. split; [reflexivity|]. split; [exact Ec|].
    reflexivity.
  - intros Hno. apply not_Forall_Exists in Hno; [|apply _].
    apply Exists_exists in Hno as (c & Hc & Hmiss).
    rewrite (res_mapM_first_error _ KeyError).
    + reflexivity.
    + intros c' _. destruct (Hclass c') as [(row & t & _ & E)|[_ E]].
      * left. exists row. exact E.
      * right. exact E.
    + exists c. split; [exact Hc|].
      destruct (Hclass c) as [(row & t & Et & _)|[_ E]]; [|exact E].
      exfalso. apply Hmiss. exists t. exact Et.
Qed.



(** ** The IoU kernels: symmetry, and boxes that do not meet *)

Lemma Qle_bool_proper a a' b b' :
  a == a' -> b == b' -> Qle_bool a b = Qle_bool a' b'.
Proof.
  intros Ea Eb. destruct (Qle_bool a b) eqn:E1, (Qle_bool a' b') eqn:E2;
    try reflexivity;
    try apply Qle_bool_iff in E1; try apply Qle_bool_iff in E2;
    try apply Qle_bool_false in E1; try apply Qle_bool_false in E2; lra.
Qed.

Lemma Qeq_bool_zero a a' : a == a' -> Qeq_bool a 0 = Qeq_bool a' 0.
Proof.
  intros Ea. destruct (Qeq_bool a 0) eqn:E1, (Qeq_bool a' 0) eqn:E2;
    try reflexivity.
  - apply Qeq_bool_iff in E1. apply Qeq_bool_neq in E2. lra.
  - apply Qeq_bool_iff in E2. apply Qeq_bool_neq in E1. lra.
Qed.

Lemma div_proper a a' b b' :
  a == a' -> b == b' -> flt_eq (Flt.div a b) (Flt.div a' b').
Proof.
  intros Ea Eb. unfold Flt.div, Flt.Qltb.
  rewrite (Qeq_bool_zero b b' Eb), (Qeq_bool_zero a a' Ea).
  rewrite (Qle_bool_proper a a' 0 0 Ea ltac:(reflexivity)).
  destruct (Qeq_bool b' 0) eqn:E.
  - destruct (Qeq_bool a' 0); [exact I|].
    destruct (negb (Qle_bool a' 0)); exact I.
  - simpl. apply Qeq_bool_neq in E. rewrite Ea, Eb. reflexivity.
Qed.

Lemma inter_h_sym g p : inter_h g p == inter_h p g.
Proof.
  unfold inter_h. cbv zeta.
  set (d := Qmin (bz g + bh g * (1 # 2)) (bz p + bh p * (1 # 2))
            - Qmax (bz g - bh g * (1 # 2)) (bz p - bh p * (1 # 2))).
  set (d' := Qmin (bz p + bh p * (1 # 2)) (bz g + bh g * (1 # 2))
             - Qmax (bz p - bh p * (1 # 2)) (bz g - bh g * (1 # 2))).
  assert (E : d == d').
  { unfold d, d'. rewrite Q.min_comm, Q.max_comm. reflexivity. }
  rewrite (Qle_bool_proper d d' 0 0 E ltac:(reflexivity)).
  destruct (Qle_bool d' 0); [reflexivity|exact E].
Qed.

Lemma diff_rot_sym g p : diff_rot g p == diff_rot p g.
Proof.
  unfold diff_rot. cbv zeta. rewrite (Qabs_Qminus (brot g) (brot p)).
  reflexivity.
Qed.

Lemma iou3d_of_sym K K' g p :
  K == K' -> flt_eq (iou3d_of K g p) (iou3d_of K' p g).
Proof.
  intros EK. unfold iou3d_of. cbv zeta.
  pose proof (inter_h_sym g p) as Eh.
  apply div_proper.
  - rewrite EK, Eh. reflexivity.
  - rewrite EK, Eh. ring.
Qed.

Lemma flt_eq_refl a : flt_eq a a.
Proof. destruct a; simpl; [reflexivity|exact I..]. Qed.

Lemma inter_h_apart g p :
  bz g + bh g * (1 # 2) <= bz p - bh p * (1 # 2)
  \/ bz p + bh p * (1 # 2) <= bz g - bh g * (1 # 2) ->
  0 <= bh g -> 0 <= bh p ->
  inter_h g p == 0.
Proof.
  intros Hapart Hg Hp. unfold inter_h. cbv zeta.
  destruct (Qle_bool _ 0) eqn:E; [reflexivity|].
  apply Qle_bool_false in E. exfalso.
  pose proof (Q.le_min_l (bz g + bh g * (1 # 2)) (bz p + bh p * (1 # 2))).
  pose proof (Q.le_min_r (bz g + bh g * (1 # 2)) (bz p + bh p * (1 # 2))).
  pose proof (Q.le_max_l (bz g - bh g * (1 # 2)) (bz p - bh p * (1 # 2))).
  pose proof (Q.le_max_r (bz g - bh g * (1 # 2)) (bz p - bh p * (1 # 2))).
  destruct Hapart; lra.
Qed.

Lemma iou3d_of_zero K g p :
  positive_extents g -> positive_extents p ->
  K * inter_h g p == 0 ->
  exists q, iou3d_of K g p = Fin q /\ q == 0.
Proof.
  intros Pg Pp Hz. unfold iou3d_of. cbv zeta.
  pose proof (vol_pos g Pg). pose proof (vol_pos p Pp).
  rewrite div_finite by (rewrite Hz; lra).
  eexists. split; [reflexivity|]. rewrite Hz. field. lra.
Qed.



(** X10.  When the bird's-eye-view intersection of a pair of boxes does not
    depend on their order, swapping the ground truths and the predictions
    transposes the result of [iou3d_kernel] and of
    [iou3d_kernel_with_heading]: entry (i, j) of the one is the same float
    as entry (j, i) of the other. *)
Theorem iou_is_symmetric `{Externals}
    (gt_boxes pred_boxes : list Box) (i j : nat) (g p : Box) :
  gt_boxes !! i = Some g -> pred_boxes !! j = Some p ->
  rotate_iou_gpu_eval (bev g) (bev p) == rotate_iou_gpu_eval (bev p) (bev g) ->
  flt_eq (mat_get (iou3d_kernel gt_boxes pred_boxes) i j)
         (mat_get (iou3d_kernel pred_boxes gt_boxes) j i)
  /\ flt_eq (mat_get (iou3d_kernel_with_heading gt_boxes pred_boxes) i j)
            (mat_get (iou3d_kernel_with_heading pred_boxes gt_boxes) j i).
Proof.
  intros Hg Hp HK.
  rewrite (iou3d_kernel_get _ _ _ _ _ _ Hg Hp).
  rewrite (iou3d_kernel_get _ _ _ _ _ _ Hp Hg).
  rewrite (iou3d_kernel_with_heading_get _ _ _ _ _ _ Hg Hp).
  rewrite (iou3d_kernel_with_heading_get _ _ _ _ _ _ Hp Hg).
  unfold iou3d_entry, iou3d_entry_with_heading.
  split; [apply iou3d_of_sym; exact HK|].
  unfold iou3d_with_heading_of, Flt.Qltb.
  rewrite (Qle_bool_proper (diff_rot g p) (diff_rot p g) (np_pi / 2)
             (np_pi / 2) (diff_rot_sym g p) ltac:(reflexivity)).
  destruct (negb _); [reflexivity|]. apply iou3d_of_sym. exact HK.
Qed.

Lemma iou_is_symmetric_witness :
  flt_eq
    (mat_get (iou3d_kernel (H := Reference.externals) [car_box] [turned_box])
             0 0)
    (mat_get (iou3d_kernel (H := Reference.externals) [turned_box] [car_box])
             0 0).
Proof.
  apply (iou_is_symmetric (H := Reference.externals) [car_box] [turned_box]
           0 0 car_box turned_box eq_refl eq_refl).
  reflexivity.
Defined.



(** ** compute_iou3d and its parts *)

Lemma compute_iou3d_step_empty `{Externals} gt_annos pred_annos with_heading
    (st : nat * list Mat) :
  compute_iou3d_step gt_annos pred_annos with_heading st 0 = Err ValueError.
Proof.
  destruct st as [s ious]. unfold compute_iou3d_step. cbv zeta.
  unfold slice. rewrite Nat.add_0_r, Nat.sub_diag. reflexivity.
Qed.

(** X12.  For as many ground truths as predictions, at least one sample and
    as many names as boxes in every annotation: with parts that are all
    positive and sum to m, at most the number of samples, [compute_iou3d]
    returns the IoU matrices of the first m samples, each computed from that
    sample's boxes only; a part of size 0 after such parts raises ValueError
    (the concatenation of line 405 has nothing to concatenate). *)
Theorem compute_iou3d_split_contract `{Externals}
    (gt_annos pred_annos : list Anno) (with_heading : bool)
    (parts rest : list nat) :
  length gt_annos = length pred_annos -> gt_annos <> [] ->
  Forall anno_wf gt_annos -> Forall anno_wf pred_annos ->
  Forall (fun k => (1 <= k)%nat) parts ->
  (sum_list parts <= length gt_annos)%nat ->
  compute_iou3d gt_annos pred_annos parts with_heading
  = Ok (zip_with (sample_iou with_heading)
          (take (sum_list parts) gt_annos) (take (sum_list parts) pred_annos))
  /\ compute_iou3d gt_annos pred_annos (parts ++ 0%nat :: rest) with_heading
     = Err ValueError.
Proof.
  intros Hlen Hne Hg Hp Hpos Hsum.
  assert (E : forall l : list Anno, l <> [] ->
            match l with [] => Err ValueError | _ => Ok tt end = Ok tt).
  { intros [|? ?] Hl; [congruence | reflexivity]. }
  assert (Hne' : pred_annos <> []).
  { intros Ep. apply Hne. apply length_zero_iff_nil.
    rewrite Hlen, Ep. reflexivity. }
  pose proof (compute_iou3d_steps gt_annos pred_annos with_heading Hlen Hg Hp
                parts 0 [] Hpos ltac:(simpl; lia)) as Esteps.
  unfold compute_iou3d. rewrite (E _ Hne), (E _ Hne').
  cbn [mbind res_bind]. split.
  - rewrite Esteps. cbn [mbind res_bind]. simpl. unfold slice.
    rewrite Nat.sub_0_r. reflexivity.
  - rewrite foldlM_app, Esteps. cbn [mbind res_bind foldlM].
    rewrite compute_iou3d_step_empty. reflexivity.
Qed.

Lemma compute_iou3d_split_contract_witness :
  compute_iou3d (H := Reference.externals)
    [one_car_gt; one_car_gt; one_car_gt]
    [one_car_pred; one_car_miss; one_car_pred] [1; 1; 0; 1]%nat false
  = Err ValueError.
Proof.
  apply (compute_iou3d_split_contract (H := Reference.externals)
           [one_car_gt; one_car_gt; one_car_gt]
           [one_car_pred; one_car_miss; one_car_pred] false
           [1; 1]%nat [1%nat]).
  - reflexivity.
  - discriminate.
  - repeat constructor.
  - repeat constructor.
  - repeat constructor.
  - simpl. lia.
Defined.

(** ** The returned map, key by key *)

Lemma dict_lookup_set d k v k' :
  dict_lookup (dict_set d k v) k'
  = if bool_decide (k = k') then Some v else dict_lookup d k'.
Proof.
  induction d as [|[k0 v0] d IH]; [reflexivity|].
  cbn [dict_set]. destruct (bool_decide (k0 = k)) eqn:E0.
  - apply bool_decide_eq_true in E0. subst k0. cbn [dict_lookup].
    destruct (bool_decide (k = k')); reflexivity.
  - apply bool_decide_eq_false in E0. cbn [dict_lookup]. rewrite IH.
    destruct (bool_decide (k0 = k')) eqn:E1; [|reflexivity].
    apply bool_decide_eq_true in E1. subst k'.
    rewrite bool_decide_eq_false_2 by congruence. reflexivity.
Qed.

(** Assignments to other keys leave a key alone. *)
Lemma dict_lookup_foldl_other {A} (key : A -> string) (val : A -> flt) l k :
  forall d0, (forall x, x ∈ l -> key x <> k) ->
  dict_lookup (foldl (fun d x => dict_set d (key x) (val x)) d0 l) k
  = dict_lookup d0 k.
Proof.
  induction l as [|x l IH]; intros d0 Hne; [reflexivity|].
  cbn [foldl]. rewrite IH by (intros y Hy; apply Hne; right; exact Hy).
  rewrite dict_lookup_set.
  rewrite bool_decide_eq_false_2 by (apply Hne; left). reflexivity.
Qed.

(** The last assignment to a key is what the key holds. *)
Lemma dict_lookup_foldl_last {A} (key : A -> string) (val : A -> flt)
    l1 x l2 d0 :
  (forall y, y ∈ l2 -> key y <> key x) ->
  dict_lookup
    (foldl (fun d x => dict_set d (key x) (val x)) d0 (l1 ++ x :: l2))
    (key x)
  = Some (val x).
Proof.
  intros Hne. rewrite foldl_app. cbn [foldl].
  rewrite dict_lookup_foldl_other by exact Hne.
  rewrite dict_lookup_set, bool_decide_eq_true_2 by reflexivity.
  reflexivity.
Qed.

Lemma append_cons a s t : String a s +:+ t = String a (s +:+ t).
Proof. reflexivity. Qed.

Lemma append_inj_l p x y : p +:+ x = p +:+ y -> x = y.
Proof.
  induction p as [|a p IH]; [intros E; exact E|].
  rewrite !append_cons. intros E. inversion E. apply IH. assumption.
Qed.

Lemma slash_free_append x y : slash_free (x +:+ "/" +:+ y) = false.
Proof.
  induction x as [|a x IH]; [reflexivity|].
  rewrite append_cons. cbn [slash_free]. rewrite IH.
  apply andb_false_r.
Qed.

(** A key tells its class and its difficulty type apart. *)
Lemma key_inj c c' d d' :
  slash_free d = true -> slash_free d' = true ->
  "AP_" +:+ c +:+ "/" +:+ d = "AP_" +:+ c' +:+ "/" +:+ d' ->
  c = c' /\ d = d'.
Proof.
  intros Hd Hd' E. apply append_inj_l in E.
  revert c' E. induction c as [|a c IH]; intros [|a' c'] E.
  - split; [reflexivity|]. inversion E as [E']. exact E'.
  - exfalso. rewrite append_cons in E. inversion E as [[Ea Et]].
    assert (Et' : d = c' +:+ "/" +:+ d') by exact Et.
    rewrite Et', slash_free_append in Hd. discriminate Hd.
  - exfalso. rewrite append_cons in E. inversion E as [[Ea Et]].
    assert (Et' : c +:+ "/" +:+ d = d') by exact Et.
    rewrite <- Et', slash_free_append in Hd'. discriminate Hd'.
  - rewrite !append_cons in E. inversion E as [[Ea Et]].
    destruct (IH c' Et) as [-> ->]. split; reflexivity.
Qed.

Lemma difficulty_types_distinct difficulty_mode dts :
  difficulty_types_of difficulty_mode = Ok dts ->
  NoDup dts /\ Forall (fun dt => slash_free dt = true) dts.
Proof.
  unfold difficulty_types_of. intros E.
  repeat (destruct (bool_decide _) in E;
          [inversion E; split;
           [apply (bool_decide_unpack _); vm_compute; exact I
           |repeat constructor]|]).
  discriminate E.
Qed.

Lemma seq_split (j n : nat) :
  (j < n)%nat -> seq 0 n = seq 0 j ++ j :: seq (S j) (n - S j).
Proof.
  intros Hj. replace n with (j + S (n - S j))%nat at 1 by lia.
  rewrite seq_app. reflexivity.
Qed.

(** One pass of assignments over the columns: a column whose key no later
    column repeats holds its own value. *)
Lemma cells_lookup (key : nat -> string) (val : nat -> flt) n j d0 :
  (j < n)%nat ->
  (forall y, (y < n)%nat -> y <> j -> key y <> key j) ->
  dict_lookup (foldl (fun d x => dict_set d (key x) (val x)) d0 (seq 0 n))
              (key j)
  = Some (val j).
Proof.
  intros Hj Hne. rewrite (seq_split j n Hj).
  apply (dict_lookup_foldl_last key val). intros y Hy.
  apply elem_of_seq in Hy. apply Hne; lia.
Qed.

Lemma rows_lookup_other (key : nat -> string -> nat -> string)
    (val : nat -> string -> nat -> flt) (l2 : list nat) k
    (l : list (nat * string)) :
  forall d0,
  (forall i c j, (i, c) ∈ l -> j ∈ l2 -> key i c j <> k) ->
  dict_lookup
    (foldl (fun d '(cls_idx, cur_class) =>
              foldl (fun d diff_idx =>
                       dict_set d (key cls_idx cur_class diff_idx)
                                (val cls_idx cur_class diff_idx)) d l2)
           d0 l) k
  = dict_lookup d0 k.
Proof.
  induction l as [|[i c] l IH]; intros d0 Hne; [reflexivity|].
  cbn [foldl].
  rewrite IH by (intros i' c' j' Hi Hj; apply Hne; [right; exact Hi|exact Hj]).
  apply (dict_lookup_foldl_other (key i c) (val i c)).
  intros j' Hj. apply Hne; [left|exact Hj].
Qed.

Lemma rows_lookup (key : nat -> string -> nat -> string)
    (val : nat -> string -> nat -> flt) (n : nat) i c j
    (l : list (nat * string)) :
  (j < n)%nat ->
  (forall y, (y < n)%nat -> y <> j -> key i c y <> key i c j) ->
  (forall i' c' y, c' <> c -> (i', c') ∈ l -> (y < n)%nat ->
                   key i' c' y <> key i c j) ->
  forall d0,
  NoDup l.*2 -> (i, c) ∈ l ->
  dict_lookup
    (foldl (fun d '(cls_idx, cur_class) =>
              foldl (fun d diff_idx =>
                       dict_set d (key cls_idx cur_class diff_idx)
                                (val cls_idx cur_class diff_idx))
                    d (seq 0 n))
           d0 l) (key i c j)
  = Some (val i c j).
Proof.
  intros Hj Hcol Hrow. induction l as [|[i0 c0] l IH]; intros d0 Hnd Hin.
  - inversion Hin.
  - rewrite fmap_cons in Hnd. cbn [snd] in Hnd.
    apply NoDup_cons in Hnd as [Hc0 Hnd]. cbn [foldl].
    apply elem_of_cons in Hin as [Hin|Hin].
    + inversion Hin; subst i0 c0. rewrite rows_lookup_other.
      * apply (cells_lookup (key i c) (val i c)); assumption.
      * intros i' c' y Hi Hy. apply elem_of_seq in Hy.
        apply Hrow; [|right; exact Hi|lia].
        intros ->. apply Hc0. apply list_elem_of_fmap.
        exists (i', c). split; [reflexivity|exact Hi].
    + apply IH; [|exact Hnd|exact Hin].
      intros i' c' y Hc Hi. apply Hrow; [exact Hc|right; exact Hi].
Qed.

Section ReportMap.
Context `{Externals}.

Lemma report_map (classes difficulty_types : list string)
    (num_pr_points : nat) (AP : list (list flt)) :
  let num_difficulties := length difficulty_types in
  (report classes difficulty_types num_pr_points AP).2
  = foldl (fun d diff_idx =>
             dict_set d ("AP_mean" +:+ "/" +:+ difficulty_types !!! diff_idx)
                      (mean_AP AP num_difficulties !!! diff_idx))
          (foldl (fun d '(cls_idx, cur_class) =>
                    foldl (fun d diff_idx =>
                             dict_set d
                               ("AP_" +:+ cur_class +:+ "/"
                                +:+ difficulty_types !!! diff_idx)
                               ((AP !!! cls_idx) !!! diff_idx))
                          d (seq 0 num_difficulties))
                 [] (zip (seq 0 (length classes)) classes))
          (seq 0 num_difficulties).
Proof.
  intros nd. unfold report. fold nd.
  rewrite (foldl_append_glue (fun diff_type => ljust 12 diff_type +:+ "|")).
  rewrite (foldl_rows
             (fun cls_idx _ diff_idx =>
                ljust 12 (format_2f ((AP !!! cls_idx) !!! diff_idx)) +:+ "|")
             (fun _ cur_class diff_idx =>
                "AP_" +:+ cur_class +:+ "/" +:+ difficulty_types !!! diff_idx)
             (fun cls_idx _ diff_idx => (AP !!! cls_idx) !!! diff_idx)).
  fold (mean_AP AP nd).
  rewrite (foldl_cells
             (fun diff_idx =>
                ljust 12 (format_2f (mean_AP AP nd !!! diff_idx)) +:+ "|")
             (fun diff_idx =>
                "AP_mean" +:+ "/" +:+ difficulty_types !!! diff_idx)
             (fun diff_idx => mean_AP AP nd !!! diff_idx)).
  reflexivity.
Qed.

Lemma report_lookup_mean cls dts n AP j dt :
  NoDup dts -> dts !! j = Some dt ->
  dict_lookup (report cls dts n AP).2 ("AP_mean/" +:+ dt)
  = Some (mean_AP AP (length dts) !!! j).
Proof.
  intros Hnd Hj. rewrite report_map.
  pose proof (lookup_lt_Some _ _ _ Hj) as Hlt.
  pose proof (cells_lookup
                (fun diff_idx => "AP_mean" +:+ "/" +:+ dts !!! diff_idx)
                (fun diff_idx => mean_AP AP (length dts) !!! diff_idx)
                (length dts) j) as E.
  cbv beta in E. rewrite (list_lookup_total_correct _ _ _ Hj) in E.
  apply E; [exact Hlt|]. intros y Hy Hne Ek.
  apply (append_inj_l "AP_mean/") in Ek. apply Hne.
  destruct (lookup_lt_is_Some_2 dts y Hy) as [dy Hdy].
  rewrite (list_lookup_total_correct _ _ _ Hdy) in Ek. subst dy.
  exact (NoDup_lookup _ _ _ _ Hnd Hdy Hj).
Qed.

Lemma report_lookup_class cls dts n AP i c j dt :
  NoDup cls -> "mean" ∉ cls ->
  NoDup dts -> Forall (fun dt => slash_free dt = true) dts ->
  cls !! i = Some c -> dts !! j = Some dt ->
  dict_lookup (report cls dts n AP).2 ("AP_" +:+ c +:+ "/" +:+ dt)
  = Some ((AP !!! i) !!! j).
Proof.
  intros Hnc Hmean Hnd Hsf Hi Hj. rewrite report_map.
  pose proof (lookup_lt_Some _ _ _ Hj) as Hlt.
  assert (Hfree : forall y, (y < length dts)%nat ->
                            slash_free (dts !!! y) = true).
  { intros y Hy. destruct (lookup_lt_is_Some_2 dts y Hy) as [dy Hdy].
    rewrite (list_lookup_total_correct _ _ _ Hdy).
    exact (proj1 (Forall_lookup _ _) Hsf y dy Hdy). }
  assert (Hdt : slash_free dt = true)
    by exact (proj1 (Forall_lookup _ _) Hsf j dt Hj).
  rewrite dict_lookup_foldl_other.
  2:{ intros y Hy Ek. apply elem_of_seq in Hy.
      apply (key_inj "mean" c) in Ek as [Ec _];
        [|apply Hfree; lia|exact Hdt].
      apply Hmean. rewrite Ec. exact (list_elem_of_lookup_2 _ _ _ Hi). }
  pose proof (rows_lookup
                (fun _ cur_class diff_idx =>
                   "AP_" +:+ cur_class +:+ "/" +:+ dts !!! diff_idx)
                (fun cls_idx _ diff_idx => (AP !!! cls_idx) !!! diff_idx)
                (length dts) i c j
                (zip (seq 0 (length cls)) cls)) as E.
  cbv beta in E. rewrite (list_lookup_total_correct _ _ _ Hj) in E.
  apply E.
  - exact Hlt.
  - intros y Hy Hne Ek. apply key_inj in Ek as [_ Ek];
      [|apply Hfree; exact Hy|exact Hdt].
    apply Hne. destruct (lookup_lt_is_Some_2 dts y Hy) as [dy Hdy].
    rewrite (list_lookup_total_correct _ _ _ Hdy) in Ek. subst dy.
    exact (NoDup_lookup _ _ _ _ Hnd Hdy Hj).
  - intros i' c' y Hc _ Hy Ek. apply key_inj in Ek as [Ek _];
      [|apply Hfree; exact Hy|exact Hdt].
    apply Hc. exact Ek.
  - rewrite snd_zip by (rewrite length_seq; lia). exact Hnc.
  - apply list_elem_of_lookup. exists i.
    rewrite lookup_zip_with, lookup_seq_lt
      by exact (lookup_lt_Some _ _ _ Hi).
    cbn. rewrite Hi. reflexivity.
Qed.

End ReportMap.

(** X13.  Whenever [get_evaluation_results] returns, the map it returns
    holds under the key AP_mean/<difficulty> the mean over the scored
    classes of the column of AP of that difficulty and, when the scored
    classes are distinct and none is named mean, under the key
    AP_<class>/<difficulty> the entry of AP of that class and that
    difficulty. *)
Theorem returned_map_holds_every_AP `{Externals}
    (gt_annos pred_annos : list Anno) (classes : list string)
    (use_superclass : bool) (iou_thresholds : option (gmap string Q))
    (num_pr_points : nat) (difficulty_mode : string)
    (ap_with_heading : bool) (num_parts : nat)
    (text : string) (dict : list (string * flt)) :
  get_evaluation_results gt_annos pred_annos classes use_superclass
    iou_thresholds num_pr_points difficulty_mode ap_with_heading num_parts
  = Ok (text, dict) ->
  exists scored difficulty_types AP,
    evaluate_AP gt_annos pred_annos classes use_superclass iou_thresholds
                num_pr_points difficulty_mode ap_with_heading num_parts
    = Ok (scored, difficulty_types, AP)
    /\ (forall diff_idx diff_type,
          difficulty_types !! diff_idx = Some diff_type ->
          dict_lookup dict ("AP_mean/" +:+ diff_type)
          = Some (mean_AP AP (length difficulty_types) !!! diff_idx))
    /\ (NoDup scored -> "mean" ∉ scored ->
        forall cls_idx cur_class diff_idx diff_type,
          scored !! cls_idx = Some cur_class ->
          difficulty_types !! diff_idx = Some diff_type ->
          dict_lookup dict ("AP_" +:+ cur_class +:+ "/" +:+ diff_type)
          = Some ((AP !!! cls_idx) !!! diff_idx)).
Proof.
  intros E. unfold get_evaluation_results in E.
  destruct (evaluate_AP _ _ _ _ _ _ _ _ _) as [[[cls dts] AP]|e] eqn:Ev;
    [|discriminate E].
  cbn [mbind res_bind] in E. inversion E as [E']. clear E.
  destruct (evaluate_AP_shape _ _ _ _ _ _ _ _ _ _ _ _ Ev)
    as (_ & Hd & _ & _).
  destruct (difficulty_types_distinct _ _ Hd) as [Hnd Hsf].
  exists cls, dts, AP. split; [reflexivity|].
  change dict with (text, dict).2. rewrite <- E'. split.
  - intros j dt Hj. apply report_lookup_mean; assumption.
  - intros Hnc Hmean i c j dt Hi Hj.
    apply report_lookup_class; assumption.
Qed.


Lemma returned_map_holds_every_AP_witness :
  exists text dict,
    get_evaluation_results (H := Reference.externals)
      [one_car_gt] [one_car_pred] ["Car"] false None 2 "Overall" false 1
    = Ok (text, dict)
    /\ dict_lookup dict "AP_Car/overall" = Some (Fin (200 # 2))
    /\ dict_lookup dict "AP_mean/overall"
       = Some (mean_AP [[Fin (200 # 2)]] 1 !!! 0%nat).
Proof.
  pose (r := report (H := Reference.externals) ["Car"] ["overall"] 2
               [[Fin (200 # 2)]]).
  assert (E : get_evaluation_results (H := Reference.externals)
                [one_car_gt] [one_car_pred] ["Car"] false None 2 "Overall"
                false 1
              = Ok (r.1, r.2)) by (vm_compute; reflexivity).
  exists r.1, r.2. split; [exact E|].
  destruct (returned_map_holds_every_AP (H := Reference.externals)
              _ _ _ _ _ _ _ _ _ _ _ E) as (cls & dts & AP & Ev & Hm & Hc).
  assert (Ev' : evaluate_AP (H := Reference.externals)
                  [one_car_gt] [one_car_pred] ["Car"] false None 2 "Overall"
                  false 1
                = Ok (["Car"], ["overall"], [[Fin (200 # 2)]]))
    by (vm_compute; reflexivity).
  rewrite Ev' in Ev.
  assert (Ec : cls = ["Car"]) by congruence.
  assert (Ed : dts = ["overall"]) by congruence.
  assert (Ea : AP = [[Fin (200 # 2)]]) by congruence.
  subst cls dts AP. clear Ev Ev' E. split.
  - assert (N : NoDup ["Car"]) by (apply NoDup_singleton).
    assert (M : "mean" ∉ ["Car"])
      by (apply not_elem_of_cons; split; [discriminate|apply not_elem_of_nil]).
    exact (Hc N M 0%nat "Car" 0%nat "overall" eq_refl eq_refl).
  - exact (Hm 0%nat "overall" eq_refl).
Defined.

(** ** The range of the average precision *)

Lemma raw_precision_within row :
  (0 < row.1.1 + row.1.2)%nat -> fin_within 1 (raw_precision row).
Proof.
  destruct row as [[tp fp] fn]. simpl. intros Hd.
  assert (Hq : 0 < Qn tp + Qn fp).
  { rewrite <- Qn_add. apply Qn_pos. lia. }
  rewrite div_finite by lra. eexists. split; [reflexivity|].
  pose proof (Qn_nonneg tp). pose proof (Qn_nonneg fp). split.
  - apply Qle_shift_div_l; [exact Hq|]. lra.
  - apply Qle_shift_div_r; [exact Hq|]. lra.
Qed.

Lemma zero_within top : 0 <= top -> fin_within top Flt.zero.
Proof. intros Ht. exists 0. split; [reflexivity|]. split; lra. Qed.

Lemma foldl_max_within top l : forall a,
  fin_within top a -> Forall (fin_within top) l ->
  fin_within top (foldl Flt.max a l).
Proof.
  induction l as [|b l IH]; intros a Ha Hl; [exact Ha|].
  inversion Hl as [|? ? Hb Hl']; subst. simpl. apply IH; [|exact Hl'].
  destruct Ha as (x & -> & Hx). destruct Hb as (y & -> & Hy).
  rewrite max_fin. destruct (Qltb x y); eexists; eauto.
Qed.

Lemma suffix_max_within top l :
  l <> [] -> Forall (fin_within top) l -> fin_within top (suffix_max l).
Proof.
  intros Hne Hl. destruct l as [|a l]; [congruence|].
  inversion Hl; subst. unfold suffix_max. simpl.
  apply foldl_max_within; assumption.
Qed.

(** Lines 106-116 on a confusion matrix that fits the rows and whose rows
    have a prediction each: the precisions are between 0 and 1. *)
Lemma pr_rows_within (cm : list (nat * nat * nat)) (num_pr_points : nat) :
  (length cm <= num_pr_points + 1)%nat ->
  Forall (fun row => (0 < row.1.1 + row.1.2)%nat) cm ->
  let zeros := replicate (num_pr_points + 1) Flt.zero in
  exists raw env,
    draw_pr_curve cm (zeros, zeros) = Ok raw
    /\ envelope (length cm) raw = Ok env
    /\ length env.1 = (num_pr_points + 1)%nat
    /\ Forall (fin_within 1) env.1.
Proof.
  intros Hcm Hrows zeros. unfold zeros.
  replace (num_pr_points + 1)%nat
    with (length cm + (num_pr_points + 1 - length cm))%nat by lia.
  set (k := (num_pr_points + 1 - length cm)%nat).
  eexists. eexists. split.
  { unfold draw_pr_curve.
    rewrite (draw_pr_curve_steps cm _ (length cm)) by lia. reflexivity. }
  split.
  { unfold envelope. rewrite envelope_steps by solve_length. reflexivity. }
  cbn [fst]. split; [solve_length|].
  set (raw_p := map raw_precision (take (length cm) cm)
                ++ replicate (length cm + k - length cm) Flt.zero).
  assert (Hraw : Forall (fin_within 1) raw_p).
  { unfold raw_p. apply Forall_app. split.
    - rewrite take_ge by lia. apply Forall_map.
      eapply Forall_impl; [exact Hrows|]. intros row Hrow.
      apply raw_precision_within. exact Hrow.
    - apply Forall_replicate. apply zero_within. lra. }
  assert (Lraw : (length cm <= length raw_p)%nat)
    by (unfold raw_p; solve_length).
  apply Forall_app. split.
  - apply Forall_map, Forall_forall. intros i Hi. apply elem_of_seq in Hi.
    apply suffix_max_within.
    + intros E. apply (f_equal length) in E. rewrite length_drop in E.
      simpl in E. lia.
    + apply Forall_drop. exact Hraw.
  - apply Forall_drop. exact Hraw.
Qed.

Lemma foldl_add_within l : forall a,
  Forall (fin_within 1) l ->
  exists s, foldl Flt.add (Fin a) l = Fin s
            /\ a <= s /\ s <= a + Qn (length l).
Proof.
  induction l as [|b l IH]; intros a Hl.
  - exists a. split; [reflexivity|].
    pose proof (Qn_nonneg (length (@nil flt))). split; lra.
  - inversion Hl as [|? ? Hb Hl']; subst. destruct Hb as (y & -> & Hy).
    simpl foldl. destruct (IH (a + y) Hl') as (s & E & Hs).
    exists s. split; [exact E|].
    change (length (Fin y :: l)) with (S (length l)). rewrite Qn_S.
    split; lra.
Qed.

(** Lines 118-121 on a row of precisions between 0 and 1. *)
Lemma average_precision_within (num_pr_points : nat) (precision : list flt) :
  (1 <= num_pr_points)%nat ->
  length precision = (num_pr_points + 1)%nat ->
  Forall (fin_within 1) precision ->
  fin_within 100 (average_precision_of num_pr_points precision).
Proof.
  intros Hn Hlen Hall. unfold average_precision_of.
  destruct (foldl_add_within (drop 1 precision) 0
              (Forall_drop _ _ _ Hall)) as (s & -> & Hs0 & Hs1).
  rewrite length_drop, Hlen in Hs1.
  replace (num_pr_points + 1 - 1)%nat with num_pr_points in Hs1 by lia.
  pose proof (Qn_pos num_pr_points Hn) as Hq.
  cbn [Flt.divq]. rewrite div_finite by lra. cbn [Flt.mulq].
  eexists. split; [reflexivity|].
  assert (H0 : 0 <= s / Qn num_pr_points)
    by (apply Qle_shift_div_l; [exact Hq|]; lra).
  assert (H1 : s / Qn num_pr_points <= 1)
    by (apply Qle_shift_div_r; [exact Hq|]; lra).
  split; nra.
Qed.

Lemma get_thresholds_elements (scores : list Qc)
    (num_gt num_pr_points : nat) (thresholds : list Qc) :
  get_thresholds scores num_gt num_pr_points = Ok thresholds ->
  Forall (fun t => t ∈ scores) thresholds.
Proof.
  unfold get_thresholds.
  set (sc := reverse (merge_sort Qcle scores)).
  assert (Hperm : sc ≡ₚ scores).
  { unfold sc. rewrite reverse_Permutation. apply merge_sort_Permutation. }
  intros E.
  destruct (foldlM _ _ _) as [[rl ths]|e'] eqn:Ef; [|discriminate E].
  cbn [mbind res_bind] in E. inversion E; subst ths. clear E.
  destruct (thresholds_loop_appends _ _ _ _ _ _ Ef) as (ks & Hks & Eks).
  simpl in Eks. rewrite zip_seq_snd in Eks. rewrite Eks.
  eapply Forall_impl; [apply replicated_elements|].
  intros t Ht. simpl in Ht. rewrite <- Hperm. exact Ht.
Qed.

Lemma filter_seq_pos (P : nat -> Prop) `{!forall j, Decision (P j)}
    (n j : nat) :
  (j < n)%nat -> P j -> (1 <= length (filter P (seq 0 n)))%nat.
Proof.
  intros Hj HP.
  assert (Hin : j ∈ filter P (seq 0 n)).
  { apply list_elem_of_filter. split; [exact HP|]. apply elem_of_seq. lia. }
  destruct (filter P (seq 0 n)); [inversion Hin|simpl; lia].
Qed.

Section ScoredSamples.
Context `{Externals}.
Hypothesis keep_length : filters_keep_length.
Variables (difficulty_mode : string) (use_superclass : bool).
Variable num_pr_points : nat.
Hypothesis mode_supported : difficulty_mode ∈ supported_modes.
Hypothesis num_pr_points_pos : (1 <= num_pr_points)%nat.
Hypothesis num_pr_points_max : (num_pr_points <= pr_points_max)%nat.
Variables (cur_class : string) (iou_threshold : Q) (diff_idx : nat).

Lemma scored_sample_flags s :
  scored_sample_wf s ->
  exists gt_flag pred_flag,
    sample_filter difficulty_mode use_superclass cur_class diff_idx s
    = Ok (gt_flag, pred_flag)
    /\ shape0 s.2 = length gt_flag
    /\ length pred_flag = shape1 s.2
    /\ length (score s.1.2) = shape1 s.2.
Proof.
  intros ((Hg & Hp & Hs0) & Hs1 & Hsc). unfold sample_filter.
  destruct (filter_data_well_formed s.1.1 s.1.2 difficulty_mode diff_idx
              cur_class use_superclass keep_length mode_supported Hg Hp)
    as (ig & ip & gf & pf & _ & _ & E & Hlg & Hlp & _).
  exists gf, pf. split; [exact E|]. repeat split; congruence.
Qed.

(** A threshold that is a score of the sample counts a prediction of the
    sample, when no ground truth of the sample is ignored. *)
Lemma sample_precision_defined s t :
  scored_sample_wf s ->
  Ignored ∉ (sample_flags difficulty_mode use_superclass cur_class diff_idx
               s).1 ->
  t ∈ sample_scores difficulty_mode use_superclass cur_class iou_threshold
        diff_idx s ->
  let counts := sample_counts difficulty_mode use_superclass cur_class
                  iou_threshold diff_idx t s in
  (1 <= counts.1.1 + counts.1.2)%nat.
Proof.
  intros Hwf. destruct (scored_sample_flags s Hwf)
    as (gf & pf & E & Hs0 & Hpf & Hsc).
  unfold sample_scores, sample_counts, sample_flags. rewrite E. cbn [fst snd].
  intros Hno Ht. cbv zeta.
  destruct (compute_statistics_balance s.2 (score s.1.2) gf pf
              iou_threshold t Hsc Hs0) as [_ Heq].
  cbv zeta in Heq.
  rewrite (filter_none (fun ij => gf !!! ij.1 = Ignored
                                  /\ pf !!! ij.2 = Accepted)) in Heq.
  2:{ intros [i j] _ [Hi _]. apply Hno.
      eapply lookup_total_elem_of; [exact Hi|discriminate]. }
  cbn [length] in Heq. rewrite Nat.add_0_r in Heq. rewrite Heq.
  pose proof (accumulate_pass_scores s.2 (score s.1.2) gf pf iou_threshold
                (shape0 s.2) (Nat.le_refl _)) as Hall.
  rewrite Forall_forall in Hall.
  destruct (Hall t Ht) as (i & j & _ & Hj & _ & Hacc & _ & Et).
  unfold confident_accepted.
  apply (filter_seq_pos _ _ j Hj). split; [exact Hacc|].
  rewrite Et. reflexivity.
Qed.

Lemma total_precision_defined l t :
  Forall scored_sample_wf l ->
  (forall s, s ∈ l ->
     Ignored ∉ (sample_flags difficulty_mode use_superclass cur_class
                  diff_idx s).1) ->
  t ∈ concat (map (sample_scores difficulty_mode use_superclass cur_class
                     iou_threshold diff_idx) l) ->
  let row := total_counts difficulty_mode use_superclass cur_class
               iou_threshold diff_idx l t in
  (0 < row.1.1 + row.1.2)%nat.
Proof.
  intros Hwf Hno Ht row.
  apply elem_of_concat in Ht as (sc & Ht & Hsc).
  apply list_elem_of_fmap in Hsc as (s & -> & Hs).
  rewrite Forall_forall in Hwf.
  pose proof (sample_precision_defined s t (Hwf s Hs) (Hno s Hs) Ht) as Hp.
  cbv zeta in Hp. unfold row, total_counts. cbn [fst snd].
  pose proof (sum_list_with_in s
                (fun s => (sample_counts difficulty_mode use_superclass
                             cur_class iou_threshold diff_idx t s).1.1)
                l Hs) as H1.
  pose proof (sum_list_with_in s
                (fun s => (sample_counts difficulty_mode use_superclass
                             cur_class iou_threshold diff_idx t s).1.2)
                l Hs) as H2.
  cbv beta in H1, H2. lia.
Qed.

(** One class and one difficulty on well-formed samples none of whose
    ground truths is ignored: the precisions are between 0 and 1. *)
Lemma rows_of_samples_within l :
  l <> [] -> Forall scored_sample_wf l ->
  (forall s, s ∈ l ->
     Ignored ∉ (sample_flags difficulty_mode use_superclass cur_class
                  diff_idx s).1) ->
  exists rows,
    rows_of_samples difficulty_mode use_superclass num_pr_points cur_class
                    iou_threshold diff_idx l
    = Ok rows
    /\ length rows.1 = (num_pr_points + 1)%nat
    /\ Forall (fin_within 1) rows.1.
Proof.
  intros Hne Hwf Hno. unfold rows_of_samples.
  assert (Hwf' : Forall sample_wf l)
    by (eapply Forall_impl; [exact Hwf|]; intros s [Hs _]; exact Hs).
  destruct (res_mapM_ok_lookup
              (sample_filter difficulty_mode use_superclass cur_class
                 diff_idx) l) as (fl & -> & _).
  { intros s Hs. rewrite Forall_forall in Hwf.
    destruct (scored_sample_flags s (Hwf s Hs)) as (gf & pf & E & _).
    exists (gf, pf). exact E. }
  cbn [mbind res_bind].
  rewrite np_concatenate_ok by (apply map_nonempty; destruct l;
                                [congruence|simpl; lia]).
  cbn [mbind res_bind].
  assert (Hb : (length (concat (map (sample_scores difficulty_mode
                                       use_superclass cur_class iou_threshold
                                       diff_idx) l))
                <= sum_list_with (sample_valid difficulty_mode use_superclass
                                    cur_class diff_idx) l)%nat)
    by (apply (all_scores_bounded keep_length _ _ num_pr_points);
        assumption).
  destruct (get_thresholds_length_le _ _ num_pr_points Hb
              num_pr_points_pos num_pr_points_max) as (ths & Eths & Hths).
  rewrite Eths. cbn [mbind res_bind].
  pose proof (get_thresholds_elements _ _ _ _ Eths) as Hel.
  set (cm := map _ ths).
  assert (Hcm : length cm = length ths) by (unfold cm; apply length_map).
  destruct (pr_rows_within cm num_pr_points ltac:(lia))
    as (raw & env & -> & Eenv & L1 & Hin).
  { unfold cm. apply Forall_map. eapply Forall_impl; [exact Hel|].
    intros t Ht. apply (total_precision_defined l t Hwf Hno Ht). }
  cbn [mbind res_bind]. rewrite <- Hcm, Eenv.
  exists env. split; [reflexivity|]. split; assumption.
Qed.

End ScoredSamples.

Lemma zipped_samples_scored_wf `{Externals} gt_annos pred_annos
    with_heading :
  Forall anno_wf gt_annos -> Forall pred_anno_wf pred_annos ->
  Forall scored_sample_wf
    ((fun gp => (gp.1, gp.2, sample_iou with_heading gp.1 gp.2))
     <$> zip gt_annos pred_annos).
Proof.
  intros Hg Hp. apply Forall_fmap, Forall_forall. intros [g p] Hin.
  rewrite Forall_forall in Hg, Hp.
  pose proof (Hg g (elem_of_zip_l _ _ _ _ Hin)) as Hwg.
  destruct (Hp p (elem_of_zip_r _ _ _ _ Hin)) as [Hwp Hsc].
  split; [|split].
  - split; [exact Hwg|]. split; [exact Hwp|].
    simpl. rewrite sample_iou_shape0. symmetry. exact Hwg.
  - simpl. unfold sample_iou. destruct with_heading; simpl; symmetry;
      exact Hwp.
  - simpl. symmetry. exact Hsc.
Qed.

(** Each curve of lines 70-116 is what lines 73-116 return for its class,
    the threshold of the class and its difficulty. *)
Lemma precision_curves_rows
    (rows : string -> Q -> nat -> res (list flt * list flt))
    (iou_thresholds : gmap string Q) (classes : list string)
    (num_difficulties : nat) curves :
  precision_curves rows iou_thresholds classes num_difficulties = Ok curves ->
  Forall2 (fun cur_class curve =>
             exists iou_threshold,
               iou_thresholds !! cur_class = Some iou_threshold
               /\ Forall2 (fun diff_idx r =>
                          rows cur_class iou_threshold diff_idx = Ok r)
                       (seq 0 num_difficulties) curve)
          classes curves.
Proof.
  intros E. unfold precision_curves in E.
  apply res_mapM_Forall2 in E.
  eapply Forall2_impl; [exact E|]. intros c curve Ec. cbv beta in Ec.
  unfold dict_get in Ec.
  destruct (iou_thresholds !! c) as [t|]; [|discriminate Ec].
  cbn [mbind res_bind] in Ec. exists t. split; [reflexivity|].
  apply res_mapM_Forall2. exact Ec.
Qed.



(** ** Detections that overlap nothing *)

Lemma foldl_add_zeros k : forall a,
  exists s, foldl Flt.add (Fin a) (replicate k Flt.zero) = Fin s /\ s == a.
Proof.
  induction k as [|k IH]; intros a.
  - exists a. split; reflexivity.
  - simpl. destruct (IH (a + 0)) as (s & E & Hs).
    exists s. split; [exact E|]. lra.
Qed.

(** Lines 118-121 on a row of precisions that was left at zero. *)
Lemma average_precision_zero (num_pr_points : nat) :
  (1 <= num_pr_points)%nat ->
  fin_within 0
    (average_precision_of num_pr_points
       (replicate (num_pr_points + 1) Flt.zero)).
Proof.
  intros Hn. unfold average_precision_of.
  rewrite Nat.add_1_r. cbn [replicate drop]. rewrite drop_0.
  destruct (foldl_add_zeros num_pr_points 0) as (s & -> & Hs).
  pose proof (Qn_pos num_pr_points Hn) as Hq.
  cbn [Flt.divq]. rewrite div_finite by lra. cbn [Flt.mulq].
  eexists. split; [reflexivity|].
  assert (E : s / Qn num_pr_points * 100 == 0).
  { rewrite Hs. field. lra. }
  rewrite E. split; lra.
Qed.

(** No score is accumulated on a matrix without an entry above the
    threshold. *)
Lemma accumulate_scores_no_overlap (iou : Mat) (pred_scores : list Qc)
    (gt_flag pred_flag : list flag) (iou_threshold : Q) :
  (forall i j, (i < shape0 iou)%nat -> (j < shape1 iou)%nat ->
               Flt.gtb (mat_get iou i j) (Fin iou_threshold) = false) ->
  accumulate_scores iou pred_scores gt_flag pred_flag iou_threshold = [].
Proof.
  intros Hlow.
  pose proof (accumulate_pass_scores iou pred_scores gt_flag pred_flag
                iou_threshold (shape0 iou) (Nat.le_refl _)) as Hall.
  fold (accumulate_pass iou pred_scores gt_flag pred_flag iou_threshold)
    in Hall.
  fold (accumulate_scores iou pred_scores gt_flag pred_flag iou_threshold)
    in Hall.
  destruct (accumulate_scores iou pred_scores gt_flag pred_flag
              iou_threshold) as [|t sc]; [reflexivity|].
  inversion Hall as [|? ? (i & j & Hi & Hj & _ & _ & Hgt & _) _]; subst.
  rewrite (Hlow i j Hi Hj) in Hgt. discriminate Hgt.
Qed.

Section NoOverlap.
Context `{Externals}.
Hypothesis keep_length : filters_keep_length.
Variables (difficulty_mode : string) (use_superclass : bool).
Variable num_pr_points : nat.
Hypothesis mode_supported : difficulty_mode ∈ supported_modes.
Variables (cur_class : string) (iou_threshold : Q) (diff_idx : nat).

(** One class and one difficulty on well-formed samples without an IoU
    above the threshold: the two rows are left at zero. *)
Lemma rows_of_samples_no_overlap l :
  l <> [] -> Forall sample_wf l ->
  (forall s i j, s ∈ l -> (i < shape0 s.2)%nat -> (j < shape1 s.2)%nat ->
                 Flt.gtb (mat_get s.2 i j) (Fin iou_threshold) = false) ->
  let zeros := replicate (num_pr_points + 1) Flt.zero in
  rows_of_samples difficulty_mode use_superclass num_pr_points cur_class
                  iou_threshold diff_idx l
  = Ok (zeros, zeros).
Proof.
  intros Hne Hwf Hlow zeros. unfold rows_of_samples.
  destruct (res_mapM_ok_lookup
              (sample_filter difficulty_mode use_superclass cur_class
                 diff_idx) l) as (fl & -> & _).
  { intros s Hs. rewrite Forall_forall in Hwf.
    destruct (Hwf s Hs) as (Hg & Hp & _). unfold sample_filter.
    destruct (filter_data_well_formed s.1.1 s.1.2 difficulty_mode diff_idx
                cur_class use_superclass keep_length mode_supported Hg Hp)
      as (ig & ip & gf & pf & _ & _ & E & _).
    eexists. exact E. }
  cbn [mbind res_bind].
  assert (Esc : concat (map (sample_scores difficulty_mode use_superclass
                               cur_class iou_threshold diff_idx) l) = []).
  { clear Hne Hwf. induction l as [|s l0 IH]; [reflexivity|]. simpl.
    unfold sample_scores at 1.
    rewrite accumulate_scores_no_overlap
      by (intros i j; apply Hlow; left).
    apply IH. intros s' i j Hs'. apply Hlow. right. exact Hs'. }
  rewrite np_concatenate_ok by (apply map_nonempty; destruct l;
                                [congruence|simpl; lia]).
  cbn [mbind res_bind]. rewrite Esc, get_thresholds_nil.
  reflexivity.
Qed.

End NoOverlap.


